(** * Dinari wallet: key/address derivation, transaction hashing,
      encrypted secret store and session guard.

    A shallow embedding of [src/lib/crypto.js], [src/lib/storage.js] and the
    auto-lock check of [src/background/service-worker.js].

    Conventions of the embedding:
    - a JavaScript string is the list of its UTF-16 code units ([jsstring]);
    - a [Uint8Array] is the list of its elements, each in [0, 256);
    - a [BigInt] and an integer-valued [Number] are a [Z];
    - a function that can throw returns a [completion]; [try]/[catch] is
      [try_catch];
    - [crypto.getRandomValues] reads an explicit entropy stream,
      [Date.now()] is an explicit argument, and [chrome.storage.local] is
      an explicit [chrome_storage] record;
    - SHA-256, RIPEMD-160, HMAC, PBKDF2, [TextEncoder], [TextDecoder],
      [btoa], [atob] and [JSON.stringify] are written out; the
      authenticated cipher is the record [AEAD] of its operations and
      laws; the elliptic-curve operations and [JSON.parse] are section
      variables. *)

From Stdlib Require Import String Ascii.
From Stdlib Require Import ZArith List Lia Bool Permutation.
Import ListNotations.
Open Scope Z_scope.

(* ================================================================= *)
(** ** JavaScript values used by the wallet *)

Definition jsstring := list Z.
Definition bytes := list Z.

(** A string literal of the source (ASCII only). *)
Definition js (s : string) : jsstring :=
  map (fun a => Z.of_N (N_of_ascii a)) (list_ascii_of_string s).

(** A thrown value: the constructor name of the error and its [message]. *)
Record exn := mkExn { exn_name : string; exn_message : string }.

Definition Error (msg : string) : exn := mkExn "Error" msg.
Definition SyntaxError (msg : string) : exn := mkExn "SyntaxError" msg.

Inductive completion (A : Type) : Type :=
| Normal (a : A)
| Throw (e : exn).
Arguments Normal {A} a.
Arguments Throw {A} e.

Definition bind {A B} (c : completion A) (k : A -> completion B) : completion B :=
  match c with
  | Normal a => k a
  | Throw e => Throw e
  end.

Definition try_catch {A} (body : completion A) (handler : exn -> completion A)
  : completion A :=
  match body with
  | Normal a => Normal a
  | Throw e => handler e
  end.

Declare Scope js_scope.
Notation "x <- c ;; k" := (bind c (fun x => k))
  (at level 61, c at next level, right associativity) : js_scope.
Open Scope js_scope.

Definition byte_ok (b : Z) : Prop := 0 <= b < 256.
Definition bytes_ok (bs : bytes) : Prop := Forall byte_ok bs.

(** Decidable equality of strings and byte arrays, element by element. *)
Fixpoint list_eqb (xs ys : list Z) : bool :=
  match xs, ys with
  | [], [] => true
  | x :: xs', y :: ys' => (x =? y) && list_eqb xs' ys'
  | _, _ => false
  end.

(** [Uint8Array] element store: [NaN] (here [None]) becomes 0, any other
    integer is reduced modulo 2^8. *)
Definition to_uint8 (v : option Z) : Z :=
  match v with
  | None => 0
  | Some z => z mod 256
  end.

(* ================================================================= *)
(** ** Radix conversion shared by [Number.prototype.toString(16)],
       [BigInt.prototype.toString(16)] and the Base58 loop *)

Definition hex_char (d : Z) : Z :=
  if d <? 10 then 48 + d else 87 + d.

(** Value of a hexadecimal digit character, [None] for any other code unit. *)
Definition hex_val (c : Z) : option Z :=
  if (48 <=? c) && (c <=? 57) then Some (c - 48)
  else if (97 <=? c) && (c <=? 102) then Some (c - 87)
  else if (65 <=? c) && (c <=? 70) then Some (c - 55)
  else None.

(** [while (num > 0) { acc = digit(num % base) + acc; num = num / base }]:
    [fuel] bounds the number of iterations. *)
Fixpoint digits_loop (fuel : nat) (base num : Z) (acc : list Z) : list Z :=
  match fuel with
  | O => acc
  | S fuel' =>
      if num >? 0
      then digits_loop fuel' base (num / base) (num mod base :: acc)
      else acc
  end.

(** Every iteration at least halves [num], so [log2 num + 1] iterations
    are enough (see [digits_loop_fuel]). *)
Definition enough_fuel (num : Z) : nat := S (Z.to_nat (Z.log2 num)).

Definition to_digits (base num : Z) : list Z :=
  digits_loop (enough_fuel num) base num [].

(** Big-endian value of a digit list. *)
Definition from_digits (base : Z) (ds : list Z) : Z :=
  fold_left (fun acc d => acc * base + d) ds 0.

(** [n.toString(16)] for a non-negative integer [n]. *)
Definition toString16 (n : Z) : jsstring :=
  if n =? 0 then js "0" else map hex_char (to_digits 16 n).

(** [s.padStart(2, '0')]. *)
Definition padStart2 (s : jsstring) : jsstring :=
  match s with
  | [] => js "00"
  | [c] => 48 :: [c]
  | _ => s
  end.

(* ================================================================= *)
(** ** [parseInt(s, 16)] *)

(** [WhiteSpace] and [LineTerminator] code points of ECMAScript. *)
Definition is_js_whitespace (c : Z) : bool :=
  ((9 <=? c) && (c <=? 13)) || (c =? 32) || (c =? 160) || (c =? 5760)
  || ((8192 <=? c) && (c <=? 8202)) || (c =? 8232) || (c =? 8233)
  || (c =? 8239) || (c =? 8287) || (c =? 12288) || (c =? 65279).

Fixpoint trim_start (s : jsstring) : jsstring :=
  match s with
  | c :: s' => if is_js_whitespace c then trim_start s' else s
  | [] => []
  end.

(** The longest prefix of hexadecimal digits, as digit values. *)
Fixpoint hex_prefix (s : jsstring) : list Z :=
  match s with
  | c :: s' => match hex_val c with
               | Some d => d :: hex_prefix s'
               | None => []
               end
  | [] => []
  end.

Definition strip_0x (s : jsstring) : jsstring :=
  match s with
  | 48 :: x :: s' => if (x =? 120) || (x =? 88) then s' else s
  | _ => s
  end.

(** [parseInt(s, 16)]; [None] stands for [NaN]. *)
Definition parseInt16 (s : jsstring) : option Z :=
  let s1 := trim_start s in
  let '(sign, s2) :=
    match s1 with
    | 45 :: r => (-1, r)
    | 43 :: r => (1, r)
    | _ => (1, s1)
    end in
  match hex_prefix (strip_0x s2) with
  | [] => None
  | ds => Some (sign * from_digits 16 ds)
  end.

(* ================================================================= *)
(** ** crypto.js: hex helpers *)

(** [hexToBytes]: [bytes[i / 2] = parseInt(hex.substr(i, 2), 16)] for
    [i = 0, 2, 4, ...]; the array has [floor(hex.length / 2)] elements, so
    for an odd length the last store is out of range and is dropped. *)
Fixpoint hexToBytes (hex : jsstring) : bytes :=
  match hex with
  | a :: b :: rest => to_uint8 (parseInt16 [a; b]) :: hexToBytes rest
  | _ => []
  end.

(** [bytesToHex]: [b.toString(16).padStart(2, '0')] joined. *)
Definition bytesToHex (bs : bytes) : jsstring :=
  flat_map (fun b => padStart2 (toString16 b)) bs.

(* ================================================================= *)
(** ** crypto.js: Base58 *)

Definition ALPHABET : jsstring :=
  js "123456789ABCDEFGHJKLMNPQRSTUVWXYZabcdefghijkmnopqrstuvwxyz".

(** [ALPHABET[i]] (one code unit; never out of range in the source). *)
Definition alphabet_at (i : Z) : Z := nth (Z.to_nat i) ALPHABET 0.

(** [ALPHABET.indexOf(c)] for a one-unit string [c]: the index, or -1. *)
Fixpoint index_from (i : Z) (s : jsstring) (c : Z) : Z :=
  match s with
  | [] => -1
  | x :: s' => if x =? c then i else index_from (i + 1) s' c
  end.
Definition indexOf (s : jsstring) (c : Z) : Z := index_from 0 s c.

(** [BigInt('0x' + digits)]: a [SyntaxError] unless [digits] is a non-empty
    run of hexadecimal digits. *)
Fixpoint all_hex (s : jsstring) : option (list Z) :=
  match s with
  | [] => Some []
  | c :: s' =>
      match hex_val c, all_hex s' with
      | Some d, Some ds => Some (d :: ds)
      | _, _ => None
      end
  end.

Definition BigInt_0x (digits : jsstring) : completion Z :=
  match all_hex digits with
  | Some (d :: ds) => Normal (from_digits 16 (d :: ds))
  | _ => Throw (SyntaxError "Cannot convert 0x to a BigInt")
  end.

(** The [while (num > 0n)] loop of [base58Encode]. *)
Fixpoint encode_loop (fuel : nat) (num : Z) (encoded : jsstring) : jsstring :=
  match fuel with
  | O => encoded
  | S fuel' =>
      if num >? 0
      then let remainder := num mod 58 in
           encode_loop fuel' (num / 58) (alphabet_at remainder :: encoded)
      else encoded
  end.

(** The [for] loop that prepends one ['1'] per leading zero byte. *)
Fixpoint leading_zero_bytes (bs : bytes) : nat :=
  match bs with
  | b :: bs' => if b =? 0 then S (leading_zero_bytes bs') else O
  | [] => O
  end.

Definition base58Encode (bs : bytes) : completion jsstring :=
  num <- BigInt_0x (bytesToHex bs) ;;
  let encoded := encode_loop (enough_fuel num) num [] in
  Normal (repeat (alphabet_at 0) (leading_zero_bytes bs) ++ encoded).

(** The digit loop of [base58Decode]. *)
Fixpoint decode_loop (str : jsstring) (num : Z) : completion Z :=
  match str with
  | [] => Normal num
  | c :: str' =>
      let digit := indexOf ALPHABET c in
      if digit <? 0 then Throw (Error "Invalid Base58 character")
      else decode_loop str' (num * 58 + digit)
  end.

(** [str.match(/^1*/)[0].length]. *)
Fixpoint leading_ones (str : jsstring) : nat :=
  match str with
  | c :: str' => if c =? 49 then S (leading_ones str') else O
  | [] => O
  end.

Definition base58Decode (str : jsstring) : completion bytes :=
  num <- decode_loop str 0 ;;
  let hex := toString16 num in
  let hex := if Nat.odd (List.length hex) then 48 :: hex else hex in
  let bs := hexToBytes hex in
  Normal (repeat 0 (leading_ones str) ++ bs).

(* ================================================================= *)
(** ** The hash functions of CryptoJS

    [crypto.js] calls [CryptoJS.SHA256] and [CryptoJS.RIPEMD160]; they are
    modelled by the algorithms they implement (FIPS 180-4 and the
    RIPEMD-160 specification), on 32-bit words kept as [Z] with the
    wrap-around written out. *)

Module Word32.
Definition wrap (x : Z) : Z := x mod 4294967296.
Definition add (x y : Z) : Z := wrap (x + y).
Definition not (x : Z) : Z := Z.lxor x 0xFFFFFFFF.
Definition rotl (n x : Z) : Z :=
  Z.lor (wrap (Z.shiftl x n)) (Z.shiftr x (32 - n)).
Definition rotr (n x : Z) : Z :=
  Z.lor (Z.shiftr x n) (wrap (Z.shiftl x (32 - n))).

(** The four bytes of a word, most significant first. *)
Definition bytes_be (w : Z) : bytes :=
  [Z.land (Z.shiftr w 24) 255; Z.land (Z.shiftr w 16) 255;
   Z.land (Z.shiftr w 8) 255; Z.land w 255].
Definition bytes_le (w : Z) : bytes := rev (bytes_be w).

Fixpoint words_be (bs : bytes) : list Z :=
  match bs with
  | a :: b :: c :: d :: rest =>
      (Z.shiftl a 24 + Z.shiftl b 16 + Z.shiftl c 8 + d) :: words_be rest
  | _ => []
  end.
Fixpoint words_le (bs : bytes) : list Z :=
  match bs with
  | a :: b :: c :: d :: rest =>
      (Z.shiftl d 24 + Z.shiftl c 16 + Z.shiftl b 8 + a) :: words_le rest
  | _ => []
  end.

(** The 64-bit length field, as eight bytes, most significant first. *)
Definition length_be (bits : Z) : bytes :=
  bytes_be (Z.shiftr bits 32) ++ bytes_be bits.
Definition length_le (bits : Z) : bytes := rev (length_be bits).

(** Merkle-Damgard padding up to a multiple of 64 bytes: a [0x80] byte,
    zero bytes, and the bit length in [len_field]. *)
Definition pad (len_field : Z -> bytes) (msg : bytes) : bytes :=
  let l := Z.of_nat (List.length msg) in
  msg ++ [128] ++ repeat 0 (Z.to_nat ((55 - l) mod 64)) ++ len_field (8 * l).

(** Folding a compression function over the 64-byte blocks. *)
Fixpoint blocks {S : Type} (compress : S -> bytes -> S)
         (n : nat) (bs : bytes) (st : S) : S :=
  match n with
  | O => st
  | S n' => blocks compress n' (skipn 64 bs) (compress st (firstn 64 bs))
  end.
End Word32.

Module SHA256.
Import Word32.

(** The constants, as the library computes them when it is loaded: the
    first 32 bits of the fractional parts of the square roots (initial
    state) and of the cube roots (round constants) of the first primes.
    The roots are taken in integers. *)
Definition isPrime (n : Z) : bool :=
  forallb (fun factor => negb (n mod factor =? 0))
          (filter (fun factor => factor * factor <=? n)
                  (map Z.of_nat (seq 2 (Z.to_nat n - 2)))).

Definition primes (count : nat) : list Z :=
  firstn count (filter isPrime (map Z.of_nat (seq 2 400))).

(** The greatest [r] between [lo] and [hi] with [r^3 <= n], by
    bisection. *)
Fixpoint cube_root (fuel : nat) (lo hi n : Z) : Z :=
  match fuel with
  | O => lo
  | S fuel' =>
      if lo <? hi then
        let mid := (lo + hi + 1) / 2 in
        if mid * mid * mid <=? n then cube_root fuel' mid hi n
        else cube_root fuel' lo (mid - 1) n
      else lo
  end.

Definition square_root_bits (n : Z) : Z := wrap (Z.sqrt (n * 2 ^ 64)).
Definition cube_root_bits (n : Z) : Z := wrap (cube_root 64 0 (2 ^ 40) (n * 2 ^ 96)).

Definition K : list Z := Eval vm_compute in map cube_root_bits (primes 64).

Record state := mkState { a : Z; b : Z; c : Z; d : Z; e : Z; f : Z; g : Z; h : Z }.

Definition state_of_words (ws : list Z) : state :=
  mkState (nth 0 ws 0) (nth 1 ws 0) (nth 2 ws 0) (nth 3 ws 0)
          (nth 4 ws 0) (nth 5 ws 0) (nth 6 ws 0) (nth 7 ws 0).

Definition H0 : state :=
  Eval vm_compute in state_of_words (map square_root_bits (primes 8)).

Definition Ch (x y z : Z) : Z := Z.lxor (Z.land x y) (Z.land (not x) z).
Definition Maj (x y z : Z) : Z :=
  Z.lxor (Z.lxor (Z.land x y) (Z.land x z)) (Z.land y z).
Definition Sigma0 (x : Z) : Z := Z.lxor (Z.lxor (rotr 2 x) (rotr 13 x)) (rotr 22 x).
Definition Sigma1 (x : Z) : Z := Z.lxor (Z.lxor (rotr 6 x) (rotr 11 x)) (rotr 25 x).
Definition sigma0 (x : Z) : Z := Z.lxor (Z.lxor (rotr 7 x) (rotr 18 x)) (Z.shiftr x 3).
Definition sigma1 (x : Z) : Z := Z.lxor (Z.lxor (rotr 17 x) (rotr 19 x)) (Z.shiftr x 10).

Definition round (k w : Z) (s : state) : state :=
  let t1 := wrap (h s + Sigma1 (e s) + Ch (e s) (f s) (g s) + k + w) in
  let t2 := wrap (Sigma0 (a s) + Maj (a s) (b s) (c s)) in
  mkState (add t1 t2) (a s) (b s) (c s) (add (d s) t1) (e s) (f s) (g s).

(** The 64 rounds; [w] is the window of the sixteen most recent words of
    the message schedule, oldest first. *)
Fixpoint rounds (ks : list Z) (w : list Z) (s : state) : state :=
  match ks with
  | [] => s
  | k :: ks' =>
      let wt := hd 0 w in
      let next := wrap (sigma1 (nth 14 w 0) + nth 9 w 0 + sigma0 (nth 1 w 0) + wt) in
      rounds ks' (tl w ++ [next]) (round k wt s)
  end.

Definition compress (s : state) (block : bytes) : state :=
  let r := rounds K (words_be block) s in
  mkState (add (a s) (a r)) (add (b s) (b r)) (add (c s) (c r)) (add (d s) (d r))
          (add (e s) (e r)) (add (f s) (f r)) (add (g s) (g r)) (add (h s) (h r)).

Definition digest_state (msg : bytes) : state :=
  let padded := pad length_be msg in
  blocks compress (List.length padded / 64) padded H0.

(** The 32-byte digest. *)
Definition digest (msg : bytes) : bytes :=
  let s := digest_state msg in
  flat_map bytes_be [a s; b s; c s; d s; e s; f s; g s; h s].
End SHA256.

Module RIPEMD160.
Import Word32.

Definition r_left : list nat :=
  [0; 1; 2; 3; 4; 5; 6; 7; 8; 9; 10; 11; 12; 13; 14; 15;
   7; 4; 13; 1; 10; 6; 15; 3; 12; 0; 9; 5; 2; 14; 11; 8;
   3; 10; 14; 4; 9; 15; 8; 1; 2; 7; 0; 6; 13; 11; 5; 12;
   1; 9; 11; 10; 0; 8; 12; 4; 13; 3; 7; 15; 14; 5; 6; 2;
   4; 0; 5; 9; 7; 12; 2; 10; 14; 1; 3; 8; 11; 6; 15; 13]%nat.
Definition r_right : list nat :=
  [5; 14; 7; 0; 9; 2; 11; 4; 13; 6; 15; 8; 1; 10; 3; 12;
   6; 11; 3; 7; 0; 13; 5; 10; 14; 15; 8; 12; 4; 9; 1; 2;
   15; 5; 1; 3; 7; 14; 6; 9; 11; 8; 12; 2; 10; 0; 4; 13;
   8; 6; 4; 1; 3; 11; 15; 0; 5; 12; 2; 13; 9; 7; 10; 14;
   12; 15; 10; 4; 1; 5; 8; 7; 6; 2; 13; 14; 0; 3; 9; 11]%nat.
Definition s_left : list Z :=
  [11; 14; 15; 12; 5; 8; 7; 9; 11; 13; 14; 15; 6; 7; 9; 8;
   7; 6; 8; 13; 11; 9; 7; 15; 7; 12; 15; 9; 11; 7; 13; 12;
   11; 13; 6; 7; 14; 9; 13; 15; 14; 8; 13; 6; 5; 12; 7; 5;
   11; 12; 14; 15; 14; 15; 9; 8; 9; 14; 5; 6; 8; 6; 5; 12;
   9; 15; 5; 11; 6; 8; 13; 12; 5; 12; 13; 14; 11; 8; 5; 6].
Definition s_right : list Z :=
  [8; 9; 9; 11; 13; 15; 15; 5; 7; 7; 8; 11; 14; 14; 12; 6;
   9; 13; 15; 7; 12; 8; 9; 11; 7; 7; 12; 7; 6; 15; 13; 11;
   9; 7; 15; 11; 8; 6; 6; 14; 12; 13; 5; 14; 13; 13; 7; 5;
   15; 5; 8; 11; 14; 14; 6; 14; 6; 9; 12; 9; 12; 5; 15; 8;
   8; 5; 12; 9; 12; 5; 14; 6; 8; 13; 6; 5; 15; 13; 11; 11].
Definition K_left : list Z :=
  [0x00000000; 0x5A827999; 0x6ED9EBA1; 0x8F1BBCDC; 0xA953FD4E].
Definition K_right : list Z :=
  [0x50A28BE6; 0x5C4DD124; 0x6D703EF3; 0x7A6D76E9; 0x00000000].

(** The five boolean functions, by group of sixteen steps. *)
Definition f (group : nat) (x y z : Z) : Z :=
  match group with
  | 0%nat => Z.lxor (Z.lxor x y) z
  | 1%nat => Z.lor (Z.land x y) (Z.land (not x) z)
  | 2%nat => Z.lxor (Z.lor x (not y)) z
  | 3%nat => Z.lor (Z.land x z) (Z.land y (not z))
  | _ => Z.lxor x (Z.lor y (not z))
  end.

Record state := mkState { a : Z; b : Z; c : Z; d : Z; e : Z }.

Definition H0 : state :=
  mkState 0x67452301 0xEFCDAB89 0x98BADCFE 0x10325476 0xC3D2E1F0.

Definition step (fn : Z -> Z -> Z -> Z) (k x s : Z) (st : state) : state :=
  let t := add (rotl s (wrap (a st + fn (b st) (c st) (d st) + x + k))) (e st) in
  mkState (e st) t (b st) (rotl 10 (c st)) (d st).

(** One line of 80 steps; [right] selects the reversed order of the
    boolean functions. *)
Fixpoint line (right : bool) (j : nat) (rs : list nat) (ss ks : list Z)
         (x : list Z) (st : state) : state :=
  match rs, ss with
  | r :: rs', s :: ss' =>
      let group := (j / 16)%nat in
      let fn := f (if right then (4 - group)%nat else group) in
      line right (S j) rs' ss' ks x (step fn (nth group ks 0) (nth r x 0) s st)
  | _, _ => st
  end.

Definition compress (st : state) (block : bytes) : state :=
  let x := words_le block in
  let l := line false 0 r_left s_left K_left x st in
  let r := line true 0 r_right s_right K_right x st in
  mkState (wrap (b st + c l + d r)) (wrap (c st + d l + e r))
          (wrap (d st + e l + a r)) (wrap (e st + a l + b r))
          (wrap (a st + b l + c r)).

Definition digest_state (msg : bytes) : state :=
  let padded := pad length_le msg in
  blocks compress (List.length padded / 64) padded H0.

(** The 20-byte digest. *)
Definition digest (msg : bytes) : bytes :=
  let s := digest_state msg in
  flat_map bytes_le [a s; b s; c s; d s; e s].
End RIPEMD160.

(** [WordArray.toString(CryptoJS.enc.Hex)]: two lower-case digits per byte. *)
Definition CryptoJS_enc_Hex (bs : bytes) : jsstring :=
  flat_map (fun b => [hex_char (Z.shiftr b 4); hex_char (Z.land b 15)]) bs.

(** [sha256Sync] (called with byte arrays only) and [ripemd160]. *)
Definition sha256Sync (data : bytes) : bytes :=
  hexToBytes (CryptoJS_enc_Hex (SHA256.digest data)).

Definition ripemd160 (data : bytes) : bytes :=
  hexToBytes (CryptoJS_enc_Hex (RIPEMD160.digest data)).

(* ================================================================= *)
(** ** Typed arrays *)

Definition RangeError (msg : string) : exn := mkExn "RangeError" msg.

(** [new Uint8Array(n)]. *)
Definition Uint8Array_new (n : nat) : bytes := repeat 0 n.

(** [target[i] = v]: a store past the end is dropped. *)
Fixpoint typed_store (target : bytes) (i : nat) (v : Z) : bytes :=
  match target, i with
  | [], _ => []
  | _ :: rest, O => to_uint8 (Some v) :: rest
  | x :: rest, S i' => x :: typed_store rest i' v
  end.

(** [target.set(source, offset)]: a [RangeError] when [source] does not
    fit. *)
Definition typed_set (target source : bytes) (offset : nat) : completion bytes :=
  if (offset + List.length source <=? List.length target)%nat
  then Normal (firstn offset target ++ source
                 ++ skipn (offset + List.length source) target)
  else Throw (RangeError "offset is out of bounds").

(** [a.slice(from, to)] for [0 <= from <= to]. *)
Definition slice (a : bytes) (from to : nat) : bytes :=
  firstn (to - from) (skipn from a).

(* ================================================================= *)
(** ** crypto.js: addresses *)

Definition ADDRESS_VERSION : Z := 0x1e.

(** [new Error(prefix + error.message)]. *)
Definition rethrow {A} (prefix : string) (e : exn) : completion A :=
  Throw (Error (prefix ++ exn_message e)).

Definition publicKeyToAddress (publicKeyHex : jsstring) : completion jsstring :=
  try_catch
    (let publicKeyBytes := hexToBytes publicKeyHex in
     let sha256Hash := sha256Sync publicKeyBytes in
     let ripemd160Hash := ripemd160 sha256Hash in
     let versionedPayload := typed_store (Uint8Array_new 21) 0 ADDRESS_VERSION in
     versionedPayload <- typed_set versionedPayload ripemd160Hash 1 ;;
     let checksum1 := sha256Sync versionedPayload in
     let checksum2 := sha256Sync checksum1 in
     let checksum := slice checksum2 0 4 in
     addressBytes <- typed_set (Uint8Array_new 25) versionedPayload 0 ;;
     addressBytes <- typed_set addressBytes checksum 21 ;;
     base58Encode addressBytes)
    (rethrow "Failed to generate address: ").

(** [address.startsWith('D')]. *)
Definition startsWith_D (address : jsstring) : bool :=
  match address with
  | c :: _ => c =? 68
  | [] => false
  end.

(** [checksum[i] !== expectedChecksum[i]] compares two array elements; an
    index past the end reads [undefined] (here [None]). *)
Definition elem_eqb (x y : option Z) : bool :=
  match x, y with
  | Some a, Some b => a =? b
  | None, None => true
  | _, _ => false
  end.

(** The [for (let i = 0; i < 4; i++)] comparison loop: [false] at the
    first index that differs. *)
Fixpoint checksums_agree (i : nat) (n : nat) (checksum expected : bytes) : bool :=
  match n with
  | O => true
  | S n' =>
      if elem_eqb (nth_error checksum i) (nth_error expected i)
      then checksums_agree (S i) n' checksum expected
      else false
  end.

Definition validateAddress (address : jsstring) : completion bool :=
  try_catch
    (if negb (startsWith_D address) then Normal false else
     decoded <- base58Decode address ;;
     if negb (List.length decoded =? 25)%nat then Normal false else
     if negb (elem_eqb (nth_error decoded 0) (Some ADDRESS_VERSION)) then Normal false else
     let payload := slice decoded 0 21 in
     let checksum := slice decoded 21 25 in
     let hash1 := sha256Sync payload in
     let hash2 := sha256Sync hash1 in
     let expectedChecksum := slice hash2 0 4 in
     Normal (checksums_agree 0 4 checksum expectedChecksum))
    (fun _ => Normal false).

(* ================================================================= *)
(** ** crypto.js: wallets

    The [elliptic] library is outside the repository: the two wallet
    functions that call it ([getPublicKeyFromPrivate], [signMessage]) are
    parameters of the functions built on them. *)

Record wallet := mkWallet {
  w_privateKey : jsstring;
  w_publicKey : jsstring;
  w_address : jsstring
}.

Definition is_hex_char (c : Z) : bool :=
  ((97 <=? c) && (c <=? 102)) || ((65 <=? c) && (c <=? 70))
  || ((48 <=? c) && (c <=? 57)).

(** [/^[a-fA-F0-9]{64}$/.test(s)]. *)
Definition is_hex64 (s : jsstring) : bool :=
  (List.length s =? 64)%nat && forallb is_hex_char s.

(** [toLowerCase] on the code units of the upper-case Latin letters (all
    that can occur in a string accepted by [is_hex64]). *)
Definition toLowerCase (s : jsstring) : jsstring :=
  map (fun c => if (65 <=? c) && (c <=? 90) then c + 32 else c) s.

Section Elliptic.
Variable getPublicKeyFromPrivate : jsstring -> completion jsstring.

Definition importWallet (privateKeyHex : jsstring) : completion wallet :=
  if negb (is_hex64 privateKeyHex)
  then Throw (Error "Invalid private key format. Must be 64 hexadecimal characters.")
  else
    publicKey <- getPublicKeyFromPrivate privateKeyHex ;;
    address <- publicKeyToAddress publicKey ;;
    Normal (mkWallet (toLowerCase privateKeyHex) publicKey address).
End Elliptic.

(* ================================================================= *)
(** ** crypto.js: mnemonic *)

Definition WORDLIST : list string :=
   [
    "abandon"; "ability"; "able"; "about"; "above"; "absent"; "absorb";
    "abstract"; "absurd"; "abuse"; "access"; "accident"; "account"; "accuse";
    "achieve"; "acid"; "acoustic"; "acquire"; "across"; "act"; "action";
    "actor"; "actress"; "actual"; "adapt"; "add"; "addict"; "address";
    "adjust"; "admit"; "adult"; "advance"; "advice"; "aerobic"; "afford";
    "afraid"; "again"; "age"; "agent"; "agree"; "ahead"; "aim"; "air";
    "airport"; "aisle"; "alarm"; "album"; "alcohol"; "alert"; "alien"; "all";
    "alley"; "allow"; "almost"; "alone"; "alpha"; "already"; "also"; "alter";
    "always"; "amateur"; "amazing"; "among"; "amount"; "amused"; "analyst";
    "anchor"; "ancient"; "anger"; "angle"; "angry"; "animal"; "ankle";
    "announce"; "annual"; "another"; "answer"; "antenna"; "antique";
    "anxiety"; "any"; "apart"; "apology"; "appear"; "apple"; "approve";
    "april"; "arch"; "arctic"; "area"; "arena"; "argue"; "arm"; "armed";
    "armor"; "army"; "around"; "arrange"; "arrest"; "arrive"; "arrow"; "art";
    "artefact"; "artist"; "artwork"; "ask"; "aspect"; "assault"; "asset";
    "assist"; "assume"; "asthma"; "athlete"; "atom"; "attack"; "attend";
    "attitude"; "attract"; "auction"; "audit"; "august"; "aunt"; "author";
    "auto"; "autumn"; "average"; "avocado"; "avoid"; "awake"; "aware";
    "away"; "awesome"; "awful"; "awkward"; "axis"; "baby"; "bachelor";
    "bacon"; "badge"; "bag"; "balance"; "balcony"; "ball"; "bamboo";
    "banana"; "banner"; "bar"; "barely"; "bargain"; "barrel"; "base";
    "basic"; "basket"; "battle"; "beach"; "bean"; "beauty"; "because";
    "become"; "beef"; "before"; "begin"; "behave"; "behind"; "believe";
    "below"; "belt"; "bench"; "benefit"; "best"; "betray"; "better";
    "between"; "beyond"; "bicycle"; "bid"; "bike"; "bind"; "biology"; "bird";
    "birth"; "bitter"; "black"; "blade"; "blame"; "blanket"; "blast";
    "bleak"; "bless"; "blind"; "blood"; "blossom"; "blouse"; "blue"; "blur";
    "blush"; "board"; "boat"; "body"; "boil"; "bomb"; "bone"; "bonus";
    "book"; "boost"; "border"; "boring"; "borrow"; "boss"; "bottom";
    "bounce"; "box"; "boy"; "bracket"; "brain"; "brand"; "brass"; "brave";
    "bread"; "breeze"; "brick"; "bridge"; "brief"; "bright"; "bring";
    "brisk"; "broccoli"; "broken"; "bronze"; "broom"; "brother"; "brown";
    "brush"; "bubble"
   ]%string.

(** [crypto.getRandomValues(new Uint32Array(1))[0] % WORDLIST.length]. *)
Definition randomIndex (random32 : Z) : Z :=
  random32 mod Z.of_nat (List.length WORDLIST).

(** [words.join(' ')]. *)
Fixpoint join_space (words : list jsstring) : jsstring :=
  match words with
  | [] => []
  | [w] => w
  | w :: rest => w ++ 32 :: join_space rest
  end.

(** [generateMnemonic]: [draw i] is the 32-bit value returned by the
    [i]-th call of [crypto.getRandomValues]. *)
Definition generateMnemonic (draw : nat -> Z) : jsstring :=
  join_space
    (map (fun i => js (nth (Z.to_nat (randomIndex (draw i))) WORDLIST ""%string))
         (seq 0 12)).

(* ================================================================= *)
(** ** [TextEncoder] and [TextDecoder]

    [new TextEncoder().encode(s)] and [new TextDecoder().decode(b)], as
    the Encoding Standard defines them for UTF-8, with the default options
    of the source (errors are replaced, a leading byte order mark is
    removed by the decoder). *)

Definition is_high_surrogate (c : Z) : bool := (0xD800 <=? c) && (c <=? 0xDBFF).
Definition is_low_surrogate (c : Z) : bool := (0xDC00 <=? c) && (c <=? 0xDFFF).

Definition REPLACEMENT : Z := 0xFFFD.
Definition BOM : Z := 0xFEFF.

(** The scalar values of a string: a surrogate pair is one code point, a
    surrogate without its partner becomes U+FFFD. *)
Fixpoint to_scalars (s : jsstring) : list Z :=
  match s with
  | [] => []
  | c :: rest =>
      if is_high_surrogate c then
        match rest with
        | d :: rest' =>
            if is_low_surrogate d
            then (0x10000 + Z.shiftl (c - 0xD800) 10 + (d - 0xDC00)) :: to_scalars rest'
            else REPLACEMENT :: to_scalars rest
        | [] => [REPLACEMENT]
        end
      else if is_low_surrogate c then REPLACEMENT :: to_scalars rest
      else c :: to_scalars rest
  end.

(** The code units of a list of scalar values. *)
Definition from_scalar (cp : Z) : jsstring :=
  if cp <? 0x10000 then [cp]
  else [0xD800 + Z.shiftr (cp - 0x10000) 10; 0xDC00 + Z.land (cp - 0x10000) 0x3FF].

Definition from_scalars (cps : list Z) : jsstring := flat_map from_scalar cps.

(** The UTF-8 encoder, for one scalar value. *)
Definition utf8_continuation (cp shift : Z) : Z :=
  Z.lor 0x80 (Z.land (Z.shiftr cp shift) 0x3F).

Definition utf8_encode_scalar (cp : Z) : bytes :=
  if cp <=? 0x7F then [cp]
  else if cp <=? 0x7FF then
    [Z.shiftr cp 6 + 0xC0; utf8_continuation cp 0]
  else if cp <=? 0xFFFF then
    [Z.shiftr cp 12 + 0xE0; utf8_continuation cp 6; utf8_continuation cp 0]
  else
    [Z.shiftr cp 18 + 0xF0; utf8_continuation cp 12; utf8_continuation cp 6;
     utf8_continuation cp 0].

Definition TextEncoder_encode (s : jsstring) : bytes :=
  flat_map utf8_encode_scalar (to_scalars s).

(** The state of the UTF-8 decoder. *)
Record utf8_state := mkUtf8 {
  u_code_point : Z;
  u_bytes_seen : Z;
  u_bytes_needed : Z;
  u_lower : Z;
  u_upper : Z
}.

Definition utf8_initial : utf8_state := mkUtf8 0 0 0 0x80 0xBF.

(** A byte read when no sequence is open. *)
Definition utf8_lead (b : Z) : utf8_state * list Z :=
  if b <=? 0x7F then (utf8_initial, [b])
  else if (0xC2 <=? b) && (b <=? 0xDF) then
    (mkUtf8 (Z.land b 0x1F) 0 1 0x80 0xBF, [])
  else if (0xE0 <=? b) && (b <=? 0xEF) then
    (mkUtf8 (Z.land b 0xF) 0 2
            (if b =? 0xE0 then 0xA0 else 0x80) (if b =? 0xED then 0x9F else 0xBF), [])
  else if (0xF0 <=? b) && (b <=? 0xF4) then
    (mkUtf8 (Z.land b 0x7) 0 3
            (if b =? 0xF0 then 0x90 else 0x80) (if b =? 0xF4 then 0x8F else 0xBF), [])
  else (utf8_initial, [REPLACEMENT]).

(** One byte of input: the new state and the scalar values emitted.  A
    byte outside the expected range ends the open sequence with U+FFFD
    and is read again as a lead byte. *)
Definition utf8_step (st : utf8_state) (b : Z) : utf8_state * list Z :=
  if u_bytes_needed st =? 0 then utf8_lead b
  else if negb ((u_lower st <=? b) && (b <=? u_upper st)) then
    let '(st', out) := utf8_lead b in (st', REPLACEMENT :: out)
  else
    let cp := Z.lor (Z.shiftl (u_code_point st) 6) (Z.land b 0x3F) in
    let seen := u_bytes_seen st + 1 in
    if seen =? u_bytes_needed st then (utf8_initial, [cp])
    else (mkUtf8 cp seen (u_bytes_needed st) 0x80 0xBF, []).

(** The decoder run over the input; an open sequence at the end of the
    input gives one U+FFFD. *)
Fixpoint utf8_run (st : utf8_state) (bs : bytes) : list Z :=
  match bs with
  | [] => if u_bytes_needed st =? 0 then [] else [REPLACEMENT]
  | b :: bs' =>
      let '(st', out) := utf8_step st b in
      out ++ utf8_run st' bs'
  end.

(** [ignoreBOM] is [false]: a first scalar value U+FEFF is dropped. *)
Definition strip_BOM (cps : list Z) : list Z :=
  match cps with
  | cp :: rest => if cp =? BOM then rest else cps
  | [] => []
  end.

Definition TextDecoder_decode (bs : bytes) : jsstring :=
  from_scalars (strip_BOM (utf8_run utf8_initial bs)).

(* ================================================================= *)
(** ** [btoa] and [atob] *)

(** The [DOMException] named [InvalidCharacterError].  Its message is
    the platform's own text, given below as Chrome words it in a window
    of the extension (Node has other words).  storage.js calls [btoa]
    on bytes only, where it does not throw, and [atob] only inside
    [decrypt], whose handler puts a message of its own in its place. *)
Definition InvalidCharacterError (message : string) : exn :=
  mkExn "InvalidCharacterError" message.

Definition btoa_message : string :=
  "Failed to execute 'btoa' on 'Window': The string to be encoded contains characters outside of the Latin1 range.".

Definition atob_message : string :=
  "Failed to execute 'atob' on 'Window': The string to be decoded is not correctly encoded.".

Definition BASE64 : jsstring :=
  js "ABCDEFGHIJKLMNOPQRSTUVWXYZabcdefghijklmnopqrstuvwxyz0123456789+/".

Definition base64_char (v : Z) : Z := nth (Z.to_nat v) BASE64 0.

(** The 6-bit value of a Base64 character, [None] for any other code
    unit. *)
Definition base64_val (c : Z) : option Z :=
  if (65 <=? c) && (c <=? 90) then Some (c - 65)
  else if (97 <=? c) && (c <=? 122) then Some (c - 71)
  else if (48 <=? c) && (c <=? 57) then Some (c + 4)
  else if c =? 43 then Some 62
  else if c =? 47 then Some 63
  else None.

Fixpoint base64_encode (bs : list Z) : jsstring :=
  match bs with
  | a :: b :: c :: rest =>
      base64_char (Z.shiftr a 2)
      :: base64_char (Z.lor (Z.shiftl (Z.land a 3) 4) (Z.shiftr b 4))
      :: base64_char (Z.lor (Z.shiftl (Z.land b 15) 2) (Z.shiftr c 6))
      :: base64_char (Z.land c 63)
      :: base64_encode rest
  | [a; b] =>
      [base64_char (Z.shiftr a 2);
       base64_char (Z.lor (Z.shiftl (Z.land a 3) 4) (Z.shiftr b 4));
       base64_char (Z.shiftl (Z.land b 15) 2); 61]
  | [a] =>
      [base64_char (Z.shiftr a 2); base64_char (Z.shiftl (Z.land a 3) 4); 61; 61]
  | [] => []
  end.

(** [btoa(s)]: an [InvalidCharacterError] when a code unit is above 255. *)
Definition btoa (s : jsstring) : completion jsstring :=
  if forallb (fun c => c <=? 255) s then Normal (base64_encode s)
  else Throw (InvalidCharacterError btoa_message).

Definition is_ascii_whitespace (c : Z) : bool :=
  (c =? 9) || (c =? 10) || (c =? 12) || (c =? 13) || (c =? 32).

(** The trailing padding that forgiving-base64 decoding removes: one or
    two ['='] when the length is a multiple of four. *)
Definition strip_padding (s : jsstring) : jsstring :=
  if (List.length s mod 4 =? 0)%nat then
    match rev s with
    | 61 :: 61 :: r => rev r
    | 61 :: r => rev r
    | _ => s
    end
  else s.

Fixpoint base64_vals (s : jsstring) : option (list Z) :=
  match s with
  | [] => Some []
  | c :: s' =>
      match base64_val c, base64_vals s' with
      | Some v, Some vs => Some (v :: vs)
      | _, _ => None
      end
  end.

(** Groups of four 6-bit values give three bytes; a final group of three
    or two values gives two bytes or one, the spare bits being dropped. *)
Fixpoint base64_decode (vs : list Z) : list Z :=
  match vs with
  | a :: b :: c :: d :: rest =>
      Z.lor (Z.shiftl a 2) (Z.shiftr b 4)
      :: Z.lor (Z.shiftl (Z.land b 15) 4) (Z.shiftr c 2)
      :: Z.lor (Z.shiftl (Z.land c 3) 6) d
      :: base64_decode rest
  | [a; b; c] =>
      [Z.lor (Z.shiftl a 2) (Z.shiftr b 4);
       Z.lor (Z.shiftl (Z.land b 15) 4) (Z.shiftr c 2)]
  | [a; b] => [Z.lor (Z.shiftl a 2) (Z.shiftr b 4)]
  | _ => []
  end.

(** [atob(s)]. *)
Definition atob (s : jsstring) : completion jsstring :=
  let s1 := filter (fun c => negb (is_ascii_whitespace c)) s in
  let s2 := strip_padding s1 in
  if (List.length s2 mod 4 =? 1)%nat then Throw (InvalidCharacterError atob_message)
  else match base64_vals s2 with
       | Some vs => Normal (base64_decode vs)
       | None => Throw (InvalidCharacterError atob_message)
       end.

(* ================================================================= *)
(** ** storage.js: Base64 helpers *)

(** [arrayBufferToBase64]: [String.fromCharCode] of every byte, then
    [btoa]. *)
Definition arrayBufferToBase64 (buffer : bytes) : completion jsstring :=
  btoa buffer.

(** [base64ToArrayBuffer]: [atob], then [charCodeAt] of every unit (all
    below 256). *)
Definition base64ToArrayBuffer (base64 : jsstring) : completion bytes :=
  binary <- atob base64 ;;
  Normal (map (fun c => to_uint8 (Some c)) binary).

(* ================================================================= *)
(** ** Transaction objects and [JSON.stringify]

    The values a transaction field can hold: [undefined], [null], a
    boolean, an integer-valued number (below 2^53 in absolute value, so
    that its decimal form is the one [JSON.stringify] prints) or a
    string.  An object is the list of its properties in insertion
    order. *)

Inductive value : Type :=
| VUndefined
| VNull
| VBool (b : bool)
| VNumber (n : Z)
| VString (s : jsstring).

Definition object := list (jsstring * value).

(** [obj[key]]: [undefined] for a missing property. *)
Fixpoint get (obj : object) (key : jsstring) : value :=
  match obj with
  | [] => VUndefined
  | (k, v) :: rest => if list_eqb k key then v else get rest key
  end.

(** [obj[key] = v] on a copy: an existing property keeps its place. *)
Fixpoint set (obj : object) (key : jsstring) (v : value) : object :=
  match obj with
  | [] => [(key, v)]
  | (k, v0) :: rest =>
      if list_eqb k key then (k, v) :: rest else (k, v0) :: set rest key v
  end.

(** [ToBoolean]. *)
Definition truthy (v : value) : bool :=
  match v with
  | VUndefined | VNull => false
  | VBool b => b
  | VNumber n => negb (n =? 0)
  | VString s => negb (list_eqb s [])
  end.

(** [a || b]. *)
Definition js_or (a b : value) : value := if truthy a then a else b.

(** Decimal form of an integer. *)
Definition number_to_string (n : Z) : jsstring :=
  if n =? 0 then js "0"
  else if n <? 0 then 45 :: map (fun d => 48 + d) (to_digits 10 (- n))
  else map (fun d => 48 + d) (to_digits 10 n).

(** [\uXXXX] with four lower-case hexadecimal digits. *)
Definition unicode_escape (c : Z) : jsstring :=
  [92; 117; hex_char (Z.shiftr c 12); hex_char (Z.land (Z.shiftr c 8) 15);
   hex_char (Z.land (Z.shiftr c 4) 15); hex_char (Z.land c 15)].

(** [QuoteJSONString], without the surrounding quotes. *)
Fixpoint quote_json (s : jsstring) : jsstring :=
  match s with
  | [] => []
  | c :: rest =>
      if c =? 8 then 92 :: 98 :: quote_json rest
      else if c =? 9 then 92 :: 116 :: quote_json rest
      else if c =? 10 then 92 :: 110 :: quote_json rest
      else if c =? 12 then 92 :: 102 :: quote_json rest
      else if c =? 13 then 92 :: 114 :: quote_json rest
      else if c =? 34 then 92 :: 34 :: quote_json rest
      else if c =? 92 then 92 :: 92 :: quote_json rest
      else if c <? 32 then unicode_escape c ++ quote_json rest
      else if is_high_surrogate c then
        match rest with
        | d :: rest' =>
            if is_low_surrogate d then c :: d :: quote_json rest'
            else unicode_escape c ++ quote_json rest
        | [] => unicode_escape c
        end
      else if is_low_surrogate c then unicode_escape c ++ quote_json rest
      else c :: quote_json rest
  end.

Definition quoted (s : jsstring) : jsstring := 34 :: quote_json s ++ [34].

(** The JSON text of a property value; [None] when the property is
    left out ([undefined]). *)
Definition stringify_value (v : value) : option jsstring :=
  match v with
  | VUndefined => None
  | VNull => Some (js "null")
  | VBool true => Some (js "true")
  | VBool false => Some (js "false")
  | VNumber n => Some (number_to_string n)
  | VString s => Some (quoted s)
  end.

(** The members ["key":value] of an object, in order. *)
Fixpoint stringify_members (obj : object) : list jsstring :=
  match obj with
  | [] => []
  | (k, v) :: rest =>
      match stringify_value v with
      | Some text => (quoted k ++ 58 :: text) :: stringify_members rest
      | None => stringify_members rest
      end
  end.

Fixpoint join_comma (parts : list jsstring) : jsstring :=
  match parts with
  | [] => []
  | [p] => p
  | p :: rest => p ++ 44 :: join_comma rest
  end.

(** [JSON.stringify(obj)] for an object of such values. *)
Definition JSON_stringify (obj : object) : jsstring :=
  123 :: join_comma (stringify_members obj) ++ [125].

(* ================================================================= *)
(** ** crypto.js: hashing and signing a transaction *)

Definition hashTransaction (tx : object) : jsstring :=
  let txData :=
    JSON_stringify
      [ (js "from", get tx (js "from"));
        (js "to", get tx (js "to"));
        (js "amount", get tx (js "amount"));
        (js "tokenType", get tx (js "tokenType"));
        (js "fee", js_or (get tx (js "fee")) (get tx (js "feeDNT")));
        (js "nonce", get tx (js "nonce")) ] in
  let dataBytes := TextEncoder_encode txData in
  let hash := sha256Sync dataBytes in
  bytesToHex hash.

Section Signing.
Variable getPublicKeyFromPrivate : jsstring -> completion jsstring.
Variable signMessage : jsstring -> jsstring -> completion jsstring.

(** [{ ...tx, signature, publicKey }]. *)
Definition signTransaction (tx : object) (privateKeyHex : jsstring)
  : completion object :=
  let txHash := hashTransaction tx in
  signature <- signMessage txHash privateKeyHex ;;
  publicKey <- getPublicKeyFromPrivate privateKeyHex ;;
  Normal (set (set tx (js "signature") (VString signature))
              (js "publicKey") (VString publicKey)).
End Signing.

(* ================================================================= *)
(** ** Web Crypto: PBKDF2 with HMAC-SHA-256

    [crypto.subtle.deriveKey({name: 'PBKDF2', hash: 'SHA-256', ...})], by
    the algorithms it names (RFC 2104 and RFC 8018). *)

Definition xor_bytes (xs ys : bytes) : bytes :=
  map (fun '(x, y) => Z.lxor x y) (combine xs ys).

Module HMAC_SHA256.
Definition block_size : nat := 64.

(** The key as one block: hashed when longer than a block, then filled
    with zero bytes. *)
Definition key_block (key : bytes) : bytes :=
  let k := if (block_size <? List.length key)%nat then SHA256.digest key else key in
  k ++ repeat 0 (block_size - List.length k).

Definition mac_with_block (kb msg : bytes) : bytes :=
  let ipad := map (Z.lxor 0x36) kb in
  let opad := map (Z.lxor 0x5c) kb in
  SHA256.digest (opad ++ SHA256.digest (ipad ++ msg)).

Definition mac (key msg : bytes) : bytes := mac_with_block (key_block key) msg.
End HMAC_SHA256.

Module PBKDF2.
(** [INT(i)]: four bytes, most significant first. *)
Definition INT (i : Z) : bytes := Word32.bytes_be i.

(** One iteration: the running exclusive-or [t] and the last [u]. *)
Definition step (prf : bytes -> bytes) (tu : bytes * bytes) : bytes * bytes :=
  let u' := prf (snd tu) in (xor_bytes (fst tu) u', u').

(** The first block [T_1 = U_1 xor ... xor U_c]. *)
Definition block (prf : bytes -> bytes) (salt : bytes) (c : N) (i : Z) : bytes :=
  let u1 := prf (salt ++ INT i) in
  fst (N.iter (c - 1) (step prf) (u1, u1)).

(** A derived key of 32 bytes is the first block. *)
Definition derive32 (password salt : bytes) (iterations : N) : bytes :=
  block (HMAC_SHA256.mac password) salt iterations 1.
End PBKDF2.

(* ================================================================= *)
(** ** Web Crypto: the authenticated cipher

    [crypto.subtle.encrypt] and [crypto.subtle.decrypt] with
    [{name: 'AES-GCM', iv}] are outside the repository.  The store relies
    on their interface only: encryption maps byte arrays to byte arrays,
    and decryption under the same key and iv returns the plaintext;
    decryption may fail ([None], the rejected promise). *)

Record AEAD := mkAEAD {
  aead_encrypt : bytes -> bytes -> bytes -> bytes;
  aead_decrypt : bytes -> bytes -> bytes -> option bytes;
  aead_encrypt_ok :
    forall key iv plaintext, bytes_ok plaintext -> bytes_ok (aead_encrypt key iv plaintext);
  aead_correct :
    forall key iv plaintext, bytes_ok plaintext ->
      aead_decrypt key iv (aead_encrypt key iv plaintext) = Some plaintext
}.

Definition OperationError : exn :=
  mkExn "OperationError" "The operation failed for an operation-specific reason".

(* ================================================================= *)
(** ** storage.js: encryption *)

(** [getRandomBytes(length)]: the next [length] bytes of the entropy
    stream [rng], read from position [pos]. *)
Definition getRandomBytes (rng : nat -> Z) (pos length : nat) : bytes :=
  map (fun i => rng i mod 256) (seq pos length).

Record encrypted_secret := mkSecret {
  encrypted : jsstring;
  salt : jsstring;
  iv : jsstring
}.

Definition decryption_failed : exn :=
  Error "Decryption failed - incorrect password or corrupted data".

Section Store.
Variable cipher : AEAD.

Definition deriveKey (password : jsstring) (salt : bytes) : bytes :=
  let passwordBuffer := TextEncoder_encode password in
  PBKDF2.derive32 passwordBuffer salt 100000.

Definition encrypt (rng : nat -> Z) (plaintext password : jsstring)
  : completion encrypted_secret :=
  try_catch
    (let salt := getRandomBytes rng 0 32 in
     let iv := getRandomBytes rng 32 12 in
     let key := deriveKey password salt in
     let plaintextBuffer := TextEncoder_encode plaintext in
     let encryptedBuffer := aead_encrypt cipher key iv plaintextBuffer in
     e <- arrayBufferToBase64 encryptedBuffer ;;
     s <- arrayBufferToBase64 salt ;;
     i <- arrayBufferToBase64 iv ;;
     Normal (mkSecret e s i))
    (rethrow "Encryption failed: ").

Definition decrypt (encryptedBase64 saltBase64 ivBase64 password : jsstring)
  : completion jsstring :=
  try_catch
    (salt <- base64ToArrayBuffer saltBase64 ;;
     iv <- base64ToArrayBuffer ivBase64 ;;
     encrypted <- base64ToArrayBuffer encryptedBase64 ;;
     let key := deriveKey password salt in
     match aead_decrypt cipher key iv encrypted with
     | Some decryptedBuffer => Normal (TextDecoder_decode decryptedBuffer)
     | None => Throw OperationError
     end)
    (fun _ => Throw decryption_failed).

(* =============================================================== *)
(** ** storage.js: the wallet record *)

Record wallet_record := mkWalletRecord {
  encrypted_data : jsstring;
  wr_salt : jsstring;
  wr_iv : jsstring;
  address : jsstring;
  public_key : jsstring
}.

Record settings_record := mkSettings {
  rpc_endpoint : jsstring;
  auto_lock_minutes : Z
}.

Record session_record := mkSession {
  unlocked : bool;
  last_activity : Z
}.

(** [chrome.storage.local]: the three records of the wallet, and the
    error with which an access is rejected while the store is
    unavailable.  A function that reaches the store twice can find it
    changed in between; [saveWallet_steps] below takes that change as
    an argument. *)
Record chrome_storage := mkStorage {
  unavailable : option exn;
  dinari_wallet : option wallet_record;
  dinari_settings : option settings_record;
  dinari_session : option session_record
}.

(** [chrome.storage.local.get(key)]. *)
Definition storage_get {A} (field : chrome_storage -> option A)
           (st : chrome_storage) : completion (option A) :=
  match unavailable st with
  | Some e => Throw e
  | None => Normal (field st)
  end.

(** [chrome.storage.local.set({dinari_session: s})]. *)
Definition storage_set_session (st : chrome_storage) (s : session_record)
  : completion chrome_storage :=
  match unavailable st with
  | Some e => Throw e
  | None => Normal (mkStorage None (dinari_wallet st) (dinari_settings st) (Some s))
  end.

Definition DEFAULT_SETTINGS : settings_record :=
  mkSettings (js "https://rpctiger-testnet.dinariblockchain.network:8545") 5.

Record loaded_wallet := mkLoaded {
  privateKey : value;
  seedPhrase : value;
  lw_address : jsstring;
  lw_publicKey : jsstring
}.

(** [JSON.parse(text)] followed by the reads of [privateKey] and
    [seedPhrase]: a builtin, taken as a parameter. *)
Variable parse_sensitive : jsstring -> completion (value * value).

Definition loadWallet (st : chrome_storage) (password : jsstring)
  : completion loaded_wallet :=
  try_catch
    (result <- storage_get dinari_wallet st ;;
     match result with
     | None => Throw (Error "No wallet found")
     | Some walletData =>
         decryptedJson <- decrypt (encrypted_data walletData) (wr_salt walletData)
                                  (wr_iv walletData) password ;;
         sensitiveData <- parse_sensitive decryptedJson ;;
         Normal (mkLoaded (fst sensitiveData) (snd sensitiveData)
                          (address walletData) (public_key walletData))
     end)
    (rethrow "Failed to load wallet: ").

Definition verifyPassword (st : chrome_storage) (password : jsstring)
  : completion bool :=
  try_catch
    (result <- storage_get dinari_wallet st ;;
     match result with
     | None => Normal false
     | Some walletData =>
         _ <- decrypt (encrypted_data walletData) (wr_salt walletData)
                      (wr_iv walletData) password ;;
         Normal true
     end)
    (fun _ => Normal false).

(* =============================================================== *)
(** ** storage.js: session and settings *)

Definition getSettings (st : chrome_storage) : completion settings_record :=
  try_catch
    (result <- storage_get dinari_settings st ;;
     Normal (match result with Some s => s | None => DEFAULT_SETTINGS end))
    (fun _ => Normal DEFAULT_SETTINGS).

Definition getSession (st : chrome_storage) : completion session_record :=
  try_catch
    (result <- storage_get dinari_session st ;;
     Normal (match result with Some s => s | None => mkSession false 0 end))
    (fun _ => Normal (mkSession false 0)).

(** [setSession(unlocked)] at time [now]. *)
Definition setSession (st : chrome_storage) (now : Z) (u : bool)
  : completion chrome_storage :=
  try_catch
    (storage_set_session st (mkSession u now))
    (rethrow "Failed to set session: ").

(** [isSessionValid()] at time [now = Date.now()]. *)
Definition isSessionValid (st : chrome_storage) (now : Z) : completion bool :=
  try_catch
    (session <- getSession st ;;
     if negb (unlocked session) then Normal false else
     settings <- getSettings st ;;
     let autoLockMs := auto_lock_minutes settings * 60 * 1000 in
     let timeSinceActivity := now - last_activity session in
     Normal (timeSinceActivity <? autoLockMs))
    (fun _ => Normal false).

Definition lockWallet (st : chrome_storage) (now : Z) : completion chrome_storage :=
  setSession st now false.

(** service-worker.js, [checkAutoLock()] at time [now]: the store
    afterwards (errors are logged and dropped). *)
Definition checkAutoLock (st : chrome_storage) (now : Z) : chrome_storage :=
  match unavailable st with
  | Some _ => st
  | None =>
      let settings :=
        match dinari_settings st with
        | Some s => s
        | None => mkSettings [] 5
        end in
      match dinari_session st with
      | None => st
      | Some session =>
          if negb (unlocked session) then st else
          let autoLockMs := auto_lock_minutes settings * 60 * 1000 in
          let timeSinceActivity := now - last_activity session in
          if timeSinceActivity >=? autoLockMs
          then mkStorage None (dinari_wallet st) (dinari_settings st)
                         (Some (mkSession false 0))
          else st
      end
  end.
End Store.

(* ================================================================= *)
(** ** elliptic: the curve secp256k1

    [const EC = new elliptic.ec('secp256k1')].  The library is outside
    the repository; the part that [getPublicKeyFromPrivate] uses is
    written out from the definition of the curve [y^2 = x^3 + 7] over the
    field of [p] elements: the private key reduced modulo the group
    order, its multiple of the base point, and the compressed encoding of
    that point. *)

Module EC.
Definition p : Z := Eval vm_compute in 2 ^ 256 - 2 ^ 32 - 977.
Definition n : Z :=
  0xFFFFFFFFFFFFFFFFFFFFFFFFFFFFFFFEBAAEDCE6AF48A03BBFD25E8CD0364141.
Definition Gx : Z :=
  0x79BE667EF9DCBBAC55A06295CE870B07029BFCDB2DCE28D959F2815B16F81798.
Definition Gy : Z :=
  0x483ADA7726A3C4655DA4FBFC0E1108A8FD17B448A68554199C47D08FFB10D4B8.

(** Reduction modulo [p] as the library does it for this prime: the
    part above 256 bits is folded back, since [2^256 = 2^32 + 977]
    modulo [p].  For a number below [2^512] two folds and one
    subtraction are enough. *)
Definition fold_high (x : Z) : Z :=
  Z.land x (Z.ones 256) + Z.shiftr x 256 * (2 ^ 32 + 977).

Definition reduce (x : Z) : Z :=
  let y := fold_high (fold_high x) in
  if p <=? y then y - p else y.

Definition fmul (x y : Z) : Z := reduce (x * y).
Definition fsub (x y : Z) : Z := reduce (x + (p - y)).

(** A point in affine coordinates; [None] is the point at infinity. *)
Definition point := option (Z * Z).

(** A point in Jacobian coordinates [(X, Y, Z)], for [(X/Z^2, Y/Z^3)];
    [Z = 0] is the point at infinity. *)
Definition jpoint := (Z * Z * Z)%type.

Definition jinfinity : jpoint := (1, 1, 0).

Definition to_jacobian (P : point) : jpoint :=
  match P with
  | None => jinfinity
  | Some (x, y) => (x, y, 1)
  end.

Definition jdouble (P : jpoint) : jpoint :=
  let '(X, Y, Z) := P in
  if (Z =? 0) || (Y =? 0) then jinfinity
  else
    let A := fmul X X in
    let B := fmul Y Y in
    let C := fmul B B in
    let D := fmul 4 (fmul X B) in
    let E := fmul 3 A in
    let X3 := fsub (fmul E E) (fmul 2 D) in
    let Y3 := fsub (fmul E (fsub D X3)) (fmul 8 C) in
    let Z3 := fmul 2 (fmul Y Z) in
    (X3, Y3, Z3).

Definition jadd (P Q : jpoint) : jpoint :=
  let '(X1, Y1, Z1) := P in
  let '(X2, Y2, Z2) := Q in
  if Z1 =? 0 then Q
  else if Z2 =? 0 then P
  else
    let Z1Z1 := fmul Z1 Z1 in
    let Z2Z2 := fmul Z2 Z2 in
    let U1 := fmul X1 Z2Z2 in
    let U2 := fmul X2 Z1Z1 in
    let S1 := fmul (fmul Y1 Z2) Z2Z2 in
    let S2 := fmul (fmul Y2 Z1) Z1Z1 in
    if U1 =? U2 then
      if S1 =? S2 then jdouble P else jinfinity
    else
      let H := fsub U2 U1 in
      let R := fsub S2 S1 in
      let HH := fmul H H in
      let HHH := fmul H HH in
      let V := fmul U1 HH in
      let X3 := fsub (fsub (fmul R R) HHH) (fmul 2 V) in
      let Y3 := fsub (fmul R (fsub V X3)) (fmul S1 HHH) in
      let Z3 := fmul (fmul H Z1) Z2 in
      (X3, Y3, Z3).

(** [k P], by the binary expansion of [k]. *)
Fixpoint jmul_pos (k : positive) (P : jpoint) : jpoint :=
  match k with
  | xH => P
  | xO k' => jdouble (jmul_pos k' P)
  | xI k' => jadd (jdouble (jmul_pos k' P)) P
  end.

Definition jmul (k : Z) (P : jpoint) : jpoint :=
  match k with
  | Zpos k' => jmul_pos k' P
  | _ => jinfinity
  end.

(** [x^e] in the field. *)
Fixpoint fpow (x : Z) (e : positive) : Z :=
  match e with
  | xH => reduce x
  | xO e' => let h := fpow x e' in fmul h h
  | xI e' => let h := fpow x e' in fmul (fmul h h) x
  end.

(** The inverse in the field, by Fermat's little theorem. *)
Definition inverse (x : Z) : Z := fpow x (Z.to_pos (p - 2)).

Definition to_affine (P : jpoint) : point :=
  let '(X, Y, Z) := P in
  if Z =? 0 then None
  else
    let zi := inverse Z in
    let zi2 := fmul zi zi in
    Some (fmul X zi2, fmul (fmul Y zi2) zi).

(** The value that bn.js 4 gives a character of a hexadecimal number:
    a letter outside [a-f] and [A-F], or any other character, counts
    by the low four bits of its distance from ['0']. *)
Definition parseHex4Bits (c : Z) : Z :=
  if (65 <=? c) && (c <=? 70) then c - 55
  else if (97 <=? c) && (c <=? 102) then c - 87
  else Z.land (c - 48) 15.

(** [new BN(s, 16)] for a string [s]: white space is removed
    ([s.replace(/\s+/g, '')]), a leading ['-'] gives the sign, and
    every other character is read as a hexadecimal digit, whatever it
    is.  No character is refused. *)
Definition BN_hex (s : jsstring) : Z :=
  let number := filter (fun c => negb (is_js_whitespace c)) s in
  match number with
  | 45 :: digits => - from_digits 16 (map parseHex4Bits digits)
  | _ => from_digits 16 (map parseHex4Bits number)
  end.

(** [EC.keyFromPrivate(hex, 'hex')] of elliptic 6.5.4, the version that
    crypto.js loads: [new BN(hex, 16).umod(n)].  With the empty string
    the key pair is left without a private key ([if (options.priv)]),
    and its first use, in [getPublic], reads the words of a number that
    has none; the model raises that [TypeError] here. *)
Definition keyFromPrivate (privateKeyHex : jsstring) : completion Z :=
  match privateKeyHex with
  | [] => Throw (mkExn "TypeError" "Cannot read properties of null (reading '-1')")
  | _ => Normal (BN_hex privateKeyHex mod n)
  end.

(** [keyPair.getPublic()]. *)
Definition getPublic (priv : Z) : point :=
  to_affine (jmul priv (to_jacobian (Some (Gx, Gy)))).

(** The 32 bytes of a field element, most significant first. *)
Definition field_bytes (x : Z) : bytes :=
  map (fun i => Z.shiftr x (8 * (31 - Z.of_nat i)) mod 256) (seq 0 32).

(** [publicKey.encodeCompressed('hex')]: [02] or [03] by the parity of
    [y], then [x].  The point at infinity has no coordinates, and
    reading them throws a [TypeError]. *)
Definition encodeCompressed (P : point) : completion jsstring :=
  match P with
  | None => Throw (mkExn "TypeError" "Cannot read properties of null (reading 'fromRed')")
  | Some (x, y) =>
      Normal (bytesToHex ((if Z.even y then 0x02 else 0x03) :: field_bytes x))
  end.
End EC.

(* ================================================================= *)
(** ** crypto.js: the public key of a private key *)

Definition getPublicKeyFromPrivate (privateKeyHex : jsstring) : completion jsstring :=
  try_catch
    (keyPair <- EC.keyFromPrivate privateKeyHex ;;
     let publicKey := EC.getPublic keyPair in
     EC.encodeCompressed publicKey)
    (rethrow "Invalid private key: ").

(* ================================================================= *)
(** ** crypto.js: from a mnemonic to a private key *)

(** [s.trim()]. *)
Definition trim_end (s : jsstring) : jsstring := rev (trim_start (rev s)).
Definition trim (s : jsstring) : jsstring := trim_end (trim_start s).

(** [s.split(/\s+/)]: the pieces between the maximal runs of white
    space; [cur] is the piece being read, last character first, and
    [skipping] says that the last character was white space. *)
Fixpoint split_whitespace (s cur : jsstring) (skipping : bool) : list jsstring :=
  match s with
  | [] => [rev cur]
  | c :: rest =>
      if is_js_whitespace c then
        if skipping then split_whitespace rest [] true
        else rev cur :: split_whitespace rest [] true
      else split_whitespace rest (c :: cur) false
  end.

Definition mnemonicToPrivateKey (mnemonic : jsstring) : completion jsstring :=
  let words := split_whitespace (trim mnemonic) [] false in
  if negb (List.length words =? 12)%nat
  then Throw (Error "Mnemonic must be exactly 12 words")
  else
    let mnemonicBytes := TextEncoder_encode mnemonic in
    let seedHash := sha256Sync mnemonicBytes in
    Normal (bytesToHex seedHash).

(* ================================================================= *)
(** ** crypto.js: generated keys *)

(** [s.padStart(n, fill)] for a one-character [fill]. *)
Definition padStart (s : jsstring) (n : nat) (fill : Z) : jsstring :=
  repeat fill (n - List.length s) ++ s.

(** [keyPair.getPrivate('hex')]: the hexadecimal digits of the key,
    with a leading [0] when their number is odd. *)
Definition getPrivate_hex (priv : Z) : jsstring :=
  let hex := toString16 priv in
  if Nat.odd (List.length hex) then 48 :: hex else hex.

(** [generatePrivateKey()]; [priv] is the key that [EC.genKeyPair()]
    drew, a number between 1 and [n - 1]. *)
Definition generatePrivateKey (priv : Z) : jsstring :=
  padStart (getPrivate_hex priv) 64 48.

Definition generateWallet (priv : Z) : completion wallet :=
  let privateKey := generatePrivateKey priv in
  publicKey <- getPublicKeyFromPrivate privateKey ;;
  address <- publicKeyToAddress publicKey ;;
  Normal (mkWallet privateKey publicKey address).

(* ================================================================= *)
(** ** storage.js: the other operations on the store *)

(** [chrome.storage.local.set({dinari_wallet: w})]. *)
Definition storage_set_wallet (st : chrome_storage) (w : wallet_record)
  : completion chrome_storage :=
  match unavailable st with
  | Some e => Throw e
  | None => Normal (mkStorage None (Some w) (dinari_settings st) (dinari_session st))
  end.

(** [chrome.storage.local.set({dinari_settings: s})]. *)
Definition storage_set_settings (st : chrome_storage) (s : settings_record)
  : completion chrome_storage :=
  match unavailable st with
  | Some e => Throw e
  | None => Normal (mkStorage None (dinari_wallet st) (Some s) (dinari_session st))
  end.

(** [chrome.storage.local.remove(['dinari_wallet', 'dinari_session'])]. *)
Definition storage_remove_wallet (st : chrome_storage) : completion chrome_storage :=
  match unavailable st with
  | Some e => Throw e
  | None => Normal (mkStorage None None (dinari_settings st) None)
  end.

(** The argument of [saveWallet]. *)
Record wallet_data := mkWalletData {
  wd_privateKey : value;
  wd_seedPhrase : value;
  wd_address : jsstring;
  wd_publicKey : jsstring
}.

(** The object that [saveWallet] encrypts. *)
Definition sensitive_data (walletData : wallet_data) : object :=
  [ (js "privateKey", wd_privateKey walletData);
    (js "seedPhrase", js_or (wd_seedPhrase walletData) VNull) ].

Section Wallet.
Variable cipher : AEAD.

(** [saveWallet(walletData, password)]; [rng] is the entropy stream and
    [now] the time at which the session is written. *)
Definition saveWallet (rng : nat -> Z) (st : chrome_storage) (now : Z)
           (walletData : wallet_data) (password : jsstring)
  : completion chrome_storage :=
  try_catch
    (let sensitiveData := sensitive_data walletData in
     encryptedData <- encrypt cipher rng (JSON_stringify sensitiveData) password ;;
     let storageData :=
       mkWalletRecord (encrypted encryptedData) (salt encryptedData) (iv encryptedData)
                      (wd_address walletData) (wd_publicKey walletData) in
     st1 <- storage_set_wallet st storageData ;;
     setSession st1 now true)
    (rethrow "Failed to save wallet: ").

(** [saveWallet], await by await.  Once the wallet record is written
    the function waits for [setSession], and the store is out of its
    hands: another page of the extension can write to it, and it can
    stop answering.  [between] is what happens to the store in that
    interval.  The result is the store as [saveWallet] leaves it, and
    how it completes; the store keeps what was written before an
    error. *)
Definition saveWallet_steps (between : chrome_storage -> chrome_storage)
           (rng : nat -> Z) (st : chrome_storage) (now : Z)
           (walletData : wallet_data) (password : jsstring)
  : chrome_storage * completion unit :=
  let sensitiveData := sensitive_data walletData in
  match encrypt cipher rng (JSON_stringify sensitiveData) password with
  | Throw error => (st, rethrow "Failed to save wallet: " error)
  | Normal encryptedData =>
      let storageData :=
        mkWalletRecord (encrypted encryptedData) (salt encryptedData) (iv encryptedData)
                       (wd_address walletData) (wd_publicKey walletData) in
      match storage_set_wallet st storageData with
      | Throw error => (st, rethrow "Failed to save wallet: " error)
      | Normal st1 =>
          match setSession (between st1) now true with
          | Throw error => (between st1, rethrow "Failed to save wallet: " error)
          | Normal st2 => (st2, Normal tt)
          end
      end
  end.
End Wallet.

Definition walletExists (st : chrome_storage) : completion bool :=
  try_catch
    (result <- storage_get dinari_wallet st ;;
     Normal (match result with Some _ => true | None => false end))
    (fun _ => Normal false).

(** [getWalletAddress()]; [None] is [null]. *)
Definition getWalletAddress (st : chrome_storage) : completion (option jsstring) :=
  try_catch
    (result <- storage_get dinari_wallet st ;;
     Normal (match result with Some walletData => Some (address walletData) | None => None end))
    (fun _ => Normal None).

Definition getWalletPublicKey (st : chrome_storage) : completion (option jsstring) :=
  try_catch
    (result <- storage_get dinari_wallet st ;;
     Normal (match result with
             | Some walletData => Some (public_key walletData)
             | None => None
             end))
    (fun _ => Normal None).

Definition clearWallet (st : chrome_storage) : completion chrome_storage :=
  try_catch (storage_remove_wallet st) (rethrow "Failed to clear wallet: ").

(** The argument of [saveSettings]: the settings it names. *)
Record settings_update := mkUpdate {
  new_rpc_endpoint : option jsstring;
  new_auto_lock_minutes : option Z
}.

(** [{ ...currentSettings, ...settings }]. *)
Definition merge_settings (current : settings_record) (update : settings_update)
  : settings_record :=
  mkSettings
    (match new_rpc_endpoint update with Some e => e | None => rpc_endpoint current end)
    (match new_auto_lock_minutes update with
     | Some m => m
     | None => auto_lock_minutes current
     end).

Definition saveSettings (st : chrome_storage) (settings : settings_update)
  : completion chrome_storage :=
  try_catch
    (currentSettings <- getSettings st ;;
     let updatedSettings := merge_settings currentSettings settings in
     storage_set_settings st updatedSettings)
    (rethrow "Failed to save settings: ").

(** [settings.rpc_endpoint || DEFAULT_SETTINGS.rpc_endpoint]: the empty
    string counts as missing. *)
Definition getRPCEndpoint (st : chrome_storage) : completion jsstring :=
  settings <- getSettings st ;;
  Normal (if list_eqb (rpc_endpoint settings) []
          then rpc_endpoint DEFAULT_SETTINGS
          else rpc_endpoint settings).

(** [updateActivity()] at time [now]: the store afterwards (errors are
    dropped). *)
Definition updateActivity (st : chrome_storage) (now : Z) : chrome_storage :=
  match getSession st with
  | Normal session =>
      if unlocked session then
        match storage_set_session st (mkSession (unlocked session) now) with
        | Normal st' => st'
        | Throw _ => st
        end
      else st
  | Throw _ => st
  end.

(* ================================================================= *)
(** ** service-worker.js: the message handlers *)

(** The response that a handler sends. *)
Inductive status_response :=
| StatusOk (hasWallet isUnlocked : bool) (address : option jsstring)
| StatusError (error : string).

Definition handleGetWalletStatus (st : chrome_storage) : status_response :=
  match unavailable st with
  | Some e => StatusError (exn_message e)
  | None =>
      let hasWallet := match dinari_wallet st with Some _ => true | None => false end in
      let session :=
        match dinari_session st with
        | Some s => s
        | None => mkSession false 0
        end in
      StatusOk hasWallet (unlocked session)
               (match dinari_wallet st with
                | Some w => Some (address w)
                | None => None
                end)
  end.

(** [handleLockWallet]: the store afterwards and the response
    ([None] for [{ success: true }], the message of the error
    otherwise). *)
Definition handleLockWallet (st : chrome_storage) : chrome_storage * option string :=
  match storage_set_session st (mkSession false 0) with
  | Normal st' => (st', None)
  | Throw e => (st, Some (exn_message e))
  end.

(* ================================================================= *)
(** ** The callers: the form check and the RPC helpers *)

(** [DinariUtils.validateHex(hex, length)]: with a length that is not
    zero, [^[a-fA-F0-9]{length}$]; without a length, or with the length
    0, [^[a-fA-F0-9]+$]. *)
Definition validateHex (hex : jsstring) (length : option nat) : bool :=
  match length with
  | Some (S n) => (List.length hex =? S n)%nat && forallb is_hex_char hex
  | _ => negb (list_eqb hex []) && forallb is_hex_char hex
  end.

(** [s.slice(start)] and [s.slice(start, end)] for integers: a negative
    index counts from the end, and both are clamped to the string. *)
Definition slice_index (len i : Z) : Z :=
  if i <? 0 then Z.max (len + i) 0 else Z.min i len.

Definition string_slice (s : jsstring) (start : Z) (stop : option Z) : jsstring :=
  let len := Z.of_nat (List.length s) in
  let from := slice_index len start in
  let to := match stop with Some e => slice_index len e | None => len end in
  firstn (Z.to_nat (to - from)) (skipn (Z.to_nat from) s).

(** rpc.js, [truncateAddress(address, startChars, endChars)] for a
    string and two integers. *)
Definition truncateAddress (address : jsstring) (startChars endChars : Z) : jsstring :=
  if list_eqb address [] || (Z.of_nat (List.length address) <=? startChars + endChars)
  then address
  else string_slice address 0 (Some startChars) ++ js "..."
       ++ string_slice address (- endChars) None.

Section RPC.
Variable getBalance : value -> completion object.
Variable sendTransaction : object -> completion jsstring.
Variable getPublicKeyFromPrivate : jsstring -> completion jsstring.
Variable signMessage : jsstring -> jsstring -> completion jsstring.

(** rpc.js, [buildAndSendTransaction]; the two requests to the node
    are parameters. *)
Definition buildAndSendTransaction (from to amount tokenType feeDNT : value)
           (privateKey : jsstring) : completion jsstring :=
  try_catch
    (balance <- getBalance from ;;
     let nonce := get balance (js "nonce") in
     let tx := [ (js "from", from); (js "to", to); (js "amount", amount);
                 (js "tokenType", tokenType); (js "feeDNT", feeDNT);
                 (js "nonce", nonce) ] in
     signedTx <- signTransaction getPublicKeyFromPrivate signMessage tx privateKey ;;
     sendTransaction signedTx)
    (rethrow "Failed to send transaction: ").
End RPC.

(* ================================================================= *)
(** ** Checking a decidable property on an initial segment of [Z] *)

Definition upto (n : nat) : list Z := map Z.of_nat (seq 0 n).

Lemma upto_complete (n : nat) (d : Z) :
  0 <= d < Z.of_nat n -> In d (upto n).
Proof.
  intros Hd. unfold upto.
  replace d with (Z.of_nat (Z.to_nat d)) by lia.
  apply in_map, in_seq. lia.
Qed.

Lemma forall_upto (P : Z -> bool) (n : nat) :
  forallb P (upto n) = true ->
  forall d, 0 <= d < Z.of_nat n -> P d = true.
Proof.
  intros H d Hd. rewrite forallb_forall in H.
  apply H, upto_complete, Hd.
Qed.

Lemma Forall_take {A} (P : A -> Prop) (n : nat) (l : list A) :
  Forall P l -> Forall P (firstn n l).
Proof.
  intros H. rewrite <- (firstn_skipn n l) in H.
  apply Forall_app in H. apply H.
Qed.


Lemma list_eqb_eq (xs ys : list Z) : list_eqb xs ys = true <-> xs = ys.
Proof.
  revert ys. induction xs as [|x xs IH]; intros [|y ys]; simpl;
    try (split; congruence).
  rewrite andb_true_iff, Z.eqb_eq, IH. split.
  - intros [-> ->]. reflexivity.
  - intros [= -> ->]. auto.
Qed.

Lemma list_eqb_refl (xs : list Z) : list_eqb xs xs = true.
Proof. apply list_eqb_eq. reflexivity. Qed.

Lemma list_eqb_neq (xs ys : list Z) : xs <> ys -> list_eqb xs ys = false.
Proof.
  intros H. destruct (list_eqb xs ys) eqn:E; [|reflexivity].
  apply list_eqb_eq in E. contradiction.
Qed.

(* ================================================================= *)
(** ** Radix digits *)

Section Radix.
Variable base : Z.
Hypothesis base_ge_2 : 2 <= base.

Definition digit_ok (d : Z) : Prop := 0 <= d < base.

(** A digit list with no leading zero. *)
Definition canonical (ds : list Z) : Prop :=
  Forall digit_ok ds /\ hd 1 ds <> 0.

Lemma from_digits_snoc (ds : list Z) (d : Z) :
  from_digits base (ds ++ [d]) = from_digits base ds * base + d.
Proof. unfold from_digits. rewrite fold_left_app. reflexivity. Qed.

Lemma from_digits_nonneg (ds : list Z) :
  Forall digit_ok ds -> 0 <= from_digits base ds.
Proof.
  induction ds as [|d ds IH] using rev_ind; intros H.
  - reflexivity.
  - rewrite from_digits_snoc. apply Forall_app in H as [H1 H2].
    inversion H2; subst. unfold digit_ok in *. specialize (IH H1). nia.
Qed.

Lemma canonical_positive (ds : list Z) :
  canonical ds -> ds <> [] -> 0 < from_digits base ds.
Proof.
  induction ds as [|d ds IH] using rev_ind; intros [Hall Hhd] Hne.
  - congruence.
  - rewrite from_digits_snoc. apply Forall_app in Hall as [H1 H2].
    inversion H2 as [|? ? Hd _]; subst. unfold digit_ok in Hd.
    destruct ds as [|e ds].
    + simpl in *. unfold from_digits. simpl. lia.
    + assert (0 < from_digits base (e :: ds)).
      { apply IH; [split; assumption | discriminate]. }
      nia.
Qed.

Lemma digits_loop_zero (fuel : nat) (acc : list Z) :
  digits_loop fuel base 0 acc = acc.
Proof. destruct fuel; reflexivity. Qed.

(** The loop run on the value of a canonical digit list rebuilds the
    list, whenever the fuel covers the size of the value. *)
Lemma digits_loop_from_digits (ds : list Z) :
  canonical ds ->
  forall (fuel : nat) (acc : list Z),
    from_digits base ds < 2 ^ Z.of_nat fuel ->
    digits_loop fuel base (from_digits base ds) acc = ds ++ acc.
Proof.
  induction ds as [|d ds IH] using rev_ind; intros [Hall Hhd] fuel acc Hfuel.
  - apply digits_loop_zero.
  - apply Forall_app in Hall as [H1 H2].
    inversion H2 as [|? ? Hd _]; subst. unfold digit_ok in Hd.
    assert (Hcan : canonical ds).
    { split; [assumption|]. destruct ds; simpl in *; [lia | assumption]. }
    assert (Hnn : 0 <= from_digits base ds) by (apply from_digits_nonneg; assumption).
    rewrite from_digits_snoc in *.
    assert (Hpos : 0 < from_digits base ds * base + d).
    { destruct ds as [|e ds].
      - simpl in Hhd. unfold from_digits. simpl. lia.
      - assert (0 < from_digits base (e :: ds))
          by (apply canonical_positive; [assumption | discriminate]).
        nia. }
    destruct fuel as [|fuel].
    { simpl in Hfuel. lia. }
    simpl. destruct (Z.gtb_spec (from_digits base ds * base + d) 0); [|lia].
    replace ((from_digits base ds * base + d) / base) with (from_digits base ds)
      by (apply Z.div_unique with (r := d); lia).
    replace ((from_digits base ds * base + d) mod base) with d
      by (apply Z.mod_unique with (q := from_digits base ds); lia).
    rewrite IH; [rewrite <- app_assoc; reflexivity | assumption |].
    rewrite Nat2Z.inj_succ, Z.pow_succ_r in Hfuel by lia. nia.
Qed.

(** The loop produces the canonical digits of [num]: it ends because
    [num] reached 0, never because the fuel ran out. *)
Lemma digits_loop_spec (fuel : nat) :
  forall (num : Z) (acc : list Z),
    0 <= num < 2 ^ Z.of_nat fuel ->
    exists ds, digits_loop fuel base num acc = ds ++ acc
               /\ from_digits base ds = num
               /\ canonical ds.
Proof.
  induction fuel as [|fuel IH]; intros num acc Hnum.
  - exists []. simpl in *. assert (num = 0) by lia. subst.
    repeat split; [constructor | simpl; lia].
  - simpl. destruct (Z.gtb_spec num 0) as [Hpos|Hz].
    + assert (Hq : 0 <= num / base < 2 ^ Z.of_nat fuel).
      { rewrite Nat2Z.inj_succ, Z.pow_succ_r in Hnum by lia. split.
        - apply Z.div_pos; lia.
        - apply Z.div_lt_upper_bound; nia. }
      destruct (IH (num / base) (num mod base :: acc) Hq) as (ds & Hds & Hval & Hall & Hhd).
      exists (ds ++ [num mod base]). rewrite Hds, <- app_assoc. split; [reflexivity|].
      assert (Hm : 0 <= num mod base < base) by (apply Z.mod_pos_bound; lia).
      split; [rewrite from_digits_snoc, Hval; pose proof (Z.div_mod num base); lia|].
      split.
      * apply Forall_app. split; [assumption | repeat constructor; apply Hm].
      * destruct ds as [|e ds]; simpl in *; [|assumption].
        unfold from_digits in Hval. simpl in Hval.
        pose proof (Z.div_mod num base). lia.
    + exists []. assert (num = 0) by lia. subst.
      repeat split; [constructor | simpl; lia].
Qed.

Lemma enough_fuel_bound (num : Z) :
  0 <= num -> num < 2 ^ Z.of_nat (enough_fuel num).
Proof.
  intros H. unfold enough_fuel.
  rewrite Nat2Z.inj_succ, Z2Nat.id by apply Z.log2_nonneg.
  destruct (Z.eq_dec num 0) as [->|Hne]; [reflexivity|].
  apply Z.log2_spec. lia.
Qed.

Lemma to_digits_spec (num : Z) :
  0 <= num ->
  from_digits base (to_digits base num) = num /\ canonical (to_digits base num).
Proof.
  intros H. unfold to_digits.
  destruct (digits_loop_spec (enough_fuel num) num [])
    as (ds & Hds & Hval & Hcan).
  - split; [assumption | apply enough_fuel_bound; assumption].
  - rewrite Hds, app_nil_r. split; assumption.
Qed.

Lemma to_digits_from_digits (ds : list Z) :
  canonical ds -> to_digits base (from_digits base ds) = ds.
Proof.
  intros Hcan. unfold to_digits.
  rewrite digits_loop_from_digits; [apply app_nil_r | assumption |].
  apply enough_fuel_bound, from_digits_nonneg, Hcan.
Qed.

(** More fuel than needed changes nothing. *)
Lemma digits_loop_fuel (fuel : nat) (num : Z) (acc : list Z) :
  0 <= num < 2 ^ Z.of_nat fuel ->
  digits_loop fuel base num acc = to_digits base num ++ acc.
Proof.
  intros H.
  destruct (digits_loop_spec fuel num acc H) as (ds & Hds & Hval & Hcan).
  rewrite Hds. f_equal. subst num. symmetry.
  apply to_digits_from_digits, Hcan.
Qed.

Lemma from_digits_zeros (k : nat) (ds : list Z) :
  from_digits base (repeat 0 k ++ ds) = from_digits base ds.
Proof.
  unfold from_digits. rewrite fold_left_app.
  replace (fold_left (fun acc d => acc * base + d) (repeat 0 k) 0) with 0;
    [reflexivity|].
  induction k as [|k IH]; simpl; [reflexivity | exact IH].
Qed.

Lemma fold_digits_shift (ds : list Z) (a : Z) :
  fold_left (fun acc d => acc * base + d) ds a
  = a * base ^ Z.of_nat (List.length ds) + from_digits base ds.
Proof.
  revert a. induction ds as [|d ds IH] using rev_ind; intros a.
  - simpl. unfold from_digits. simpl. lia.
  - rewrite from_digits_snoc, fold_left_app. simpl. rewrite IH.
    rewrite length_app. simpl.
    rewrite Nat2Z.inj_add, Z.pow_add_r by lia. simpl (Z.of_nat 1).
    rewrite Z.pow_1_r. ring.
Qed.

Lemma from_digits_cons (d : Z) (ds : list Z) :
  from_digits base (d :: ds)
  = d * base ^ Z.of_nat (List.length ds) + from_digits base ds.
Proof.
  unfold from_digits at 1. simpl. apply fold_digits_shift.
Qed.

Lemma from_digits_upper (ds : list Z) :
  Forall digit_ok ds -> from_digits base ds < base ^ Z.of_nat (List.length ds).
Proof.
  induction ds as [|d ds IH] using rev_ind; intros H.
  - simpl. unfold from_digits. simpl. lia.
  - apply Forall_app in H as [H1 H2]. inversion H2 as [|? ? Hd _]; subst.
    unfold digit_ok in Hd. specialize (IH H1).
    rewrite from_digits_snoc, length_app. simpl.
    rewrite Nat2Z.inj_add, Z.pow_add_r by lia. simpl (Z.of_nat 1).
    rewrite Z.pow_1_r. nia.
Qed.
End Radix.

(* ================================================================= *)
(** ** Hex helpers *)

(** The two hexadecimal digits of a byte. *)
Definition nibbles (b : Z) : list Z := [b / 16; b mod 16].

Lemma byte_hex (b : Z) :
  0 <= b < 256 -> padStart2 (toString16 b) = map hex_char (nibbles b).
Proof.
  intros H. apply list_eqb_eq.
  apply (forall_upto
           (fun b => list_eqb (padStart2 (toString16 b)) (map hex_char (nibbles b)))
           256); [vm_compute; reflexivity | simpl; lia].
Qed.

Lemma byte_parse (b : Z) :
  0 <= b < 256 -> to_uint8 (parseInt16 (map hex_char (nibbles b))) = b.
Proof.
  intros H. apply Z.eqb_eq.
  apply (forall_upto
           (fun b => to_uint8 (parseInt16 (map hex_char (nibbles b))) =? b)
           256); [vm_compute; reflexivity | simpl; lia].
Qed.

Lemma hex_val_char (d : Z) : 0 <= d < 16 -> hex_val (hex_char d) = Some d.
Proof.
  intros H.
  assert (E : (match hex_val (hex_char d) with Some x => x =? d | None => false end) = true).
  { apply (forall_upto
             (fun d => match hex_val (hex_char d) with Some x => x =? d | None => false end)
             16); [vm_compute; reflexivity | simpl; lia]. }
  destruct (hex_val (hex_char d)); [|discriminate].
  apply Z.eqb_eq in E. congruence.
Qed.

Lemma nibbles_ok (b : Z) : 0 <= b < 256 -> Forall (digit_ok 16) (nibbles b).
Proof.
  intros H. unfold nibbles, digit_ok. repeat constructor.
  - apply Z.div_pos; lia.
  - apply Z.div_lt_upper_bound; lia.
  - apply Z.mod_pos_bound; lia.
  - apply Z.mod_pos_bound; lia.
Qed.

Lemma flat_nibbles_ok (bs : bytes) :
  bytes_ok bs -> Forall (digit_ok 16) (flat_map nibbles bs).
Proof.
  induction 1 as [|b bs Hb _ IH]; cbn [flat_map]; [constructor|].
  apply Forall_app. split; [apply (nibbles_ok b Hb) | exact IH].
Qed.

Lemma bytesToHex_nibbles (bs : bytes) :
  bytes_ok bs -> bytesToHex bs = map hex_char (flat_map nibbles bs).
Proof.
  unfold bytesToHex. induction 1 as [|b bs Hb _ IH]; [reflexivity|].
  cbn [flat_map]. rewrite map_app, IH, (byte_hex b Hb). reflexivity.
Qed.

Lemma all_hex_chars (ds : list Z) :
  Forall (digit_ok 16) ds -> all_hex (map hex_char ds) = Some ds.
Proof.
  induction 1 as [|d ds Hd _ IH]; [reflexivity|].
  simpl. rewrite (hex_val_char d Hd), IH. reflexivity.
Qed.

Lemma hexToBytes_nibbles (bs : bytes) :
  bytes_ok bs -> hexToBytes (map hex_char (flat_map nibbles bs)) = bs.
Proof.
  induction 1 as [|b bs Hb _ IH]; [reflexivity|].
  cbn [flat_map nibbles app map hexToBytes].
  rewrite IH. f_equal. apply (byte_parse b Hb).
Qed.

(** [hexToBytes] undoes [bytesToHex] on every byte array. *)
Lemma hexToBytes_bytesToHex (bs : bytes) :
  bytes_ok bs -> hexToBytes (bytesToHex bs) = bs.
Proof.
  intros H. rewrite (bytesToHex_nibbles bs H). apply hexToBytes_nibbles, H.
Qed.

Lemma hexToBytes_ok (hex : jsstring) : bytes_ok (hexToBytes hex).
Proof.
  unfold bytes_ok.
  assert (G : forall n (h : jsstring), (List.length h <= n)%nat ->
              Forall byte_ok (hexToBytes h)).
  { induction n as [|n IH]; intros h Hlen.
    - destruct h; [constructor | simpl in Hlen; lia].
    - destruct h as [|a [|b rest]]; try constructor.
      + unfold byte_ok, to_uint8. destruct (parseInt16 [a; b]);
          [apply Z.mod_pos_bound|]; lia.
      + apply IH. simpl in Hlen. lia. }
  apply (G (List.length hex)). lia.
Qed.

Lemma from_digits_nibbles (bs : bytes) :
  from_digits 16 (flat_map nibbles bs) = from_digits 256 bs.
Proof.
  induction bs as [|b bs IH] using rev_ind; [reflexivity|].
  rewrite flat_map_app. cbn [flat_map nibbles app].
  change [b / 16; b mod 16] with ([b / 16] ++ [b mod 16]).
  rewrite app_assoc, !from_digits_snoc, IH.
  pose proof (Z.div_mod b 16). lia.
Qed.

Lemma BigInt_0x_bytes (bs : bytes) :
  bytes_ok bs -> bs <> [] ->
  BigInt_0x (bytesToHex bs) = Normal (from_digits 256 bs).
Proof.
  intros Hok Hne. rewrite (bytesToHex_nibbles bs Hok).
  unfold BigInt_0x. rewrite all_hex_chars by (apply flat_nibbles_ok, Hok).
  rewrite <- from_digits_nibbles.
  destruct bs as [|b bs]; [congruence | reflexivity].
Qed.

(* ================================================================= *)
(** ** Base58 *)

Lemma alphabet_index (d : Z) : 0 <= d < 58 -> indexOf ALPHABET (alphabet_at d) = d.
Proof.
  intros H. apply Z.eqb_eq.
  apply (forall_upto (fun d => indexOf ALPHABET (alphabet_at d) =? d) 58);
    [vm_compute; reflexivity | simpl; lia].
Qed.

Lemma alphabet_not_one (d : Z) : 1 <= d < 58 -> (alphabet_at d =? 49) = false.
Proof.
  intros H.
  assert (E : ((d =? 0) || negb (alphabet_at d =? 49)) = true).
  { apply (forall_upto (fun d => (d =? 0) || negb (alphabet_at d =? 49)) 58);
      [vm_compute; reflexivity | simpl; lia]. }
  destruct (Z.eqb_spec d 0); [lia|]. simpl in E.
  destruct (alphabet_at d =? 49); [discriminate | reflexivity].
Qed.

Lemma encode_loop_digits (fuel : nat) :
  forall (num : Z) (acc : list Z) (tail : jsstring),
    encode_loop fuel num (map alphabet_at acc ++ tail)
    = map alphabet_at (digits_loop fuel 58 num acc) ++ tail.
Proof.
  induction fuel as [|fuel IH]; intros num acc tail; [reflexivity|].
  simpl. destruct (num >? 0); [|reflexivity].
  apply (IH (num / 58) (num mod 58 :: acc) tail).
Qed.

(** The encoding loop writes the canonical base-58 digits of [num]. *)
Lemma encode_loop_to_digits (num : Z) :
  encode_loop (enough_fuel num) num [] = map alphabet_at (to_digits 58 num).
Proof.
  pose proof (encode_loop_digits (enough_fuel num) num [] []) as H.
  simpl in H. rewrite app_nil_r in H. exact H.
Qed.

Lemma decode_loop_digits (ds : list Z) :
  Forall (digit_ok 58) ds ->
  forall (rest : jsstring) (num : Z),
    decode_loop (map alphabet_at ds ++ rest) num
    = decode_loop rest (fold_left (fun acc d => acc * 58 + d) ds num).
Proof.
  induction 1 as [|d ds Hd _ IH]; intros rest num; [reflexivity|].
  cbn [map app decode_loop fold_left].
  rewrite (alphabet_index d Hd). unfold digit_ok in Hd.
  destruct (Z.ltb_spec d 0); [lia|]. apply IH.
Qed.

Lemma leading_ones_digits (k : nat) (ds : list Z) :
  canonical 58 ds ->
  leading_ones (repeat 49 k ++ map alphabet_at ds) = k.
Proof.
  intros [Hall Hhd]. induction k as [|k IH]; simpl.
  - destruct ds as [|d ds]; [reflexivity|]. simpl in *.
    inversion Hall as [|? ? Hd _]; subst. unfold digit_ok in Hd.
    rewrite alphabet_not_one by lia. reflexivity.
  - rewrite IH. reflexivity.
Qed.

Lemma leading_zero_split (bs : bytes) :
  exists tail, bs = repeat 0 (leading_zero_bytes bs) ++ tail /\ hd 1 tail <> 0.
Proof.
  induction bs as [|b bs (tail & Hsplit & Hhd)].
  - exists []. simpl. split; [reflexivity | lia].
  - simpl. destruct (Z.eqb_spec b 0) as [->|Hb].
    + exists tail. simpl. rewrite <- Hsplit. split; [reflexivity | exact Hhd].
    + exists (b :: bs). split; [reflexivity | exact Hb].
Qed.

(** [num.toString(16)], padded to an even length and read back by
    [hexToBytes], gives the bytes of [num] without leading zero bytes. *)
Lemma hex_of_value (tail : bytes) :
  bytes_ok tail -> tail <> [] -> hd 1 tail <> 0 ->
  let hex := toString16 (from_digits 256 tail) in
  hexToBytes (if Nat.odd (List.length hex) then 48 :: hex else hex) = tail.
Proof.
  intros Hok Hne Hhd hex. subst hex.
  destruct tail as [|b rest]; [congruence|]. simpl in Hhd.
  assert (Hb : 0 <= b < 256) by (inversion Hok; assumption).
  assert (Hrest : bytes_ok rest) by (inversion Hok; assumption).
  assert (Hpos : 0 < from_digits 256 (b :: rest)).
  { apply canonical_positive; [lia | | discriminate].
    split; [exact Hok | exact Hhd]. }
  unfold toString16. destruct (Z.eqb_spec (from_digits 256 (b :: rest)) 0); [lia|].
  rewrite <- from_digits_nibbles.
  assert (Hev : forall l : bytes, Nat.odd (List.length (flat_map nibbles l)) = false).
  { induction l as [|x l IHl]; [reflexivity|]. exact IHl. }
  pose proof (flat_nibbles_ok _ Hok) as Hnib.
  cbn [flat_map nibbles app] in Hnib |- *.
  destruct (Z.eq_dec (b / 16) 0) as [Hz|Hnz].
  - (* one leading zero digit: [toString] drops it, the padding restores it *)
    rewrite Hz in *.
    change (0 :: b mod 16 :: flat_map nibbles rest)
      with (repeat 0 1 ++ (b mod 16 :: flat_map nibbles rest)).
    rewrite from_digits_zeros.
    rewrite to_digits_from_digits; [| lia |].
    + rewrite length_map. cbn [List.length Nat.odd].
      replace (Nat.odd (S (List.length (flat_map nibbles rest)))) with true.
      * etransitivity; [| apply (hexToBytes_nibbles (b :: rest) Hok)].
        cbn [flat_map nibbles app map]. rewrite Hz. reflexivity.
      * rewrite Nat.odd_succ, <- Nat.negb_odd, Hev. reflexivity.
    + split; [inversion Hnib; assumption|]. simpl.
      pose proof (Z.div_mod b 16). lia.
  - rewrite to_digits_from_digits; [| lia | split; [exact Hnib | exact Hnz]].
    rewrite length_map. cbn [List.length].
    replace (Nat.odd (S (S (List.length (flat_map nibbles rest))))) with false.
    + apply (hexToBytes_nibbles (b :: rest) Hok).
    + symmetry. apply (Hev (b :: rest)).
Qed.

(** [base58Encode] of a non-empty array: one ['1'] per leading zero byte,
    then the base-58 digits of the big-endian value. *)
Lemma base58Encode_value (bs : bytes) :
  bytes_ok bs -> bs <> [] ->
  base58Encode bs
  = Normal (repeat 49 (leading_zero_bytes bs)
              ++ map alphabet_at (to_digits 58 (from_digits 256 bs))).
Proof.
  intros Hok Hne. unfold base58Encode.
  rewrite (BigInt_0x_bytes bs Hok Hne). cbn [bind].
  rewrite encode_loop_to_digits. reflexivity.
Qed.

Lemma base58Decode_digits (k : nat) (ds : list Z) :
  canonical 58 ds ->
  base58Decode (repeat 49 k ++ map alphabet_at ds)
  = Normal (repeat 0 k ++
            let hex := toString16 (from_digits 58 ds) in
            hexToBytes (if Nat.odd (List.length hex) then 48 :: hex else hex)).
Proof.
  intros Hcan. unfold base58Decode.
  assert (Hstr : repeat 49 k ++ map alphabet_at ds
                 = map alphabet_at (repeat 0 k ++ ds) ++ []).
  { rewrite app_nil_r, map_app, map_repeat. reflexivity. }
  rewrite Hstr at 1.
  rewrite decode_loop_digits.
  - cbn [decode_loop bind]. fold (from_digits 58 (repeat 0 k ++ ds)).
    rewrite from_digits_zeros, (leading_ones_digits k ds Hcan). reflexivity.
  - apply Forall_app. split; [|apply Hcan].
    apply Forall_forall. intros x Hx. apply repeat_spec in Hx. subst.
    unfold digit_ok. lia.
Qed.

Lemma value_of_split (k : nat) (tail : bytes) :
  from_digits 256 (repeat 0 k ++ tail) = from_digits 256 tail.
Proof. apply from_digits_zeros. Qed.

(** Decoding the encoding of an array with a nonzero byte gives it back. *)
Lemma base58_roundtrip_nonzero (bs : bytes) :
  bytes_ok bs -> Exists (fun b => b <> 0) bs ->
  (str <- base58Encode bs ;; base58Decode str) = Normal bs.
Proof.
  intros Hok Hex.
  assert (Hne : bs <> []) by (intros ->; inversion Hex).
  destruct (leading_zero_split bs) as (tail & Hsplit & Hhd).
  assert (Htail : tail <> []).
  { intros ->. rewrite app_nil_r in Hsplit. rewrite Hsplit in Hex.
    apply Exists_exists in Hex as (x & Hin & Hx).
    apply repeat_spec in Hin. contradiction. }
  assert (Hoktail : bytes_ok tail).
  { unfold bytes_ok in *. rewrite Hsplit in Hok.
    apply Forall_app in Hok. apply Hok. }
  rewrite (base58Encode_value bs Hok Hne). cbn [bind].
  assert (Hval : 0 <= from_digits 256 bs) by (apply from_digits_nonneg; [lia | exact Hok]).
  destruct (to_digits_spec 58 ltac:(lia) _ Hval) as [Hfrom Hcan].
  rewrite (base58Decode_digits _ _ Hcan), Hfrom.
  assert (Hv : from_digits 256 bs = from_digits 256 tail).
  { rewrite Hsplit at 1. apply value_of_split. }
  rewrite Hv. cbv zeta. rewrite (hex_of_value tail Hoktail Htail Hhd).
  f_equal. symmetry. exact Hsplit.
Qed.

(** An array of [n + 1] zero bytes comes back one zero byte longer. *)
Lemma base58_roundtrip_zeros (n : nat) :
  (str <- base58Encode (repeat 0 (S n)) ;; base58Decode str)
  = Normal (repeat 0 (S n) ++ [0]).
Proof.
  assert (Hok : bytes_ok (repeat 0 (S n))).
  { apply Forall_forall. intros x Hx. apply repeat_spec in Hx. subst.
    unfold byte_ok. lia. }
  rewrite (base58Encode_value _ Hok) by discriminate. cbn [bind].
  assert (Hz : from_digits 256 (repeat 0 (S n)) = 0).
  { rewrite <- (app_nil_r (repeat 0 (S n))). rewrite from_digits_zeros. reflexivity. }
  assert (Hlz : leading_zero_bytes (repeat 0 (S n)) = S n).
  { induction n as [|n IH]; [reflexivity|].
    change (repeat 0 (S (S n))) with (0 :: repeat 0 (S n)).
    cbn [leading_zero_bytes]. simpl (0 =? 0). cbv iota. rewrite IH; [reflexivity | |].
    - apply Forall_forall. intros x Hx. apply repeat_spec in Hx. subst.
      unfold byte_ok. lia.
    - rewrite <- (app_nil_r (repeat 0 (S n))). rewrite from_digits_zeros. reflexivity. }
  rewrite Hz, Hlz.
  change (to_digits 58 0) with (@nil Z).
  rewrite (base58Decode_digits (S n) []); [reflexivity|].
  split; [constructor | simpl; lia].
Qed.

Lemma base58Encode_empty :
  base58Encode [] = Throw (SyntaxError "Cannot convert 0x to a BigInt").
Proof. reflexivity. Qed.

(* ================================================================= *)
(** ** The digests are byte arrays of the advertised length *)

Lemma land_255_ok (x : Z) : byte_ok (Z.land x 255).
Proof.
  unfold byte_ok. change 255 with (Z.ones 8).
  rewrite Z.land_ones by lia. apply Z.mod_pos_bound. lia.
Qed.

Lemma bytes_be_ok (w : Z) : bytes_ok (Word32.bytes_be w).
Proof. repeat constructor; apply land_255_ok. Qed.

Lemma bytes_le_ok (w : Z) : bytes_ok (Word32.bytes_le w).
Proof.
  unfold Word32.bytes_le, bytes_ok. apply Forall_rev. apply bytes_be_ok.
Qed.

Lemma flat_map_ok (f : Z -> bytes) (ws : list Z) :
  (forall w, bytes_ok (f w)) -> bytes_ok (flat_map f ws).
Proof.
  intros Hf. induction ws as [|w ws IH]; simpl; [constructor|].
  apply Forall_app. split; [apply Hf | exact IH].
Qed.

Lemma SHA256_digest_ok (msg : bytes) : bytes_ok (SHA256.digest msg).
Proof. apply flat_map_ok, bytes_be_ok. Qed.

Lemma SHA256_digest_length (msg : bytes) : List.length (SHA256.digest msg) = 32%nat.
Proof. reflexivity. Qed.

Lemma RIPEMD160_digest_ok (msg : bytes) : bytes_ok (RIPEMD160.digest msg).
Proof. apply flat_map_ok, bytes_le_ok. Qed.

Lemma RIPEMD160_digest_length (msg : bytes) :
  List.length (RIPEMD160.digest msg) = 20%nat.
Proof. reflexivity. Qed.

Lemma CryptoJS_enc_Hex_nibbles (bs : bytes) :
  CryptoJS_enc_Hex bs = map hex_char (flat_map nibbles bs).
Proof.
  unfold CryptoJS_enc_Hex. induction bs as [|b bs IH]; [reflexivity|].
  cbn [flat_map nibbles app map]. rewrite IH.
  change 15 with (Z.ones 4). rewrite Z.land_ones, Z.shiftr_div_pow2 by lia.
  reflexivity.
Qed.

(** Through the hexadecimal detour of the source, [sha256Sync] and
    [ripemd160] return the digest itself. *)
Lemma sha256Sync_digest (data : bytes) : sha256Sync data = SHA256.digest data.
Proof.
  unfold sha256Sync. rewrite CryptoJS_enc_Hex_nibbles.
  apply hexToBytes_nibbles, SHA256_digest_ok.
Qed.

Lemma ripemd160_digest (data : bytes) : ripemd160 data = RIPEMD160.digest data.
Proof.
  unfold ripemd160. rewrite CryptoJS_enc_Hex_nibbles.
  apply hexToBytes_nibbles, RIPEMD160_digest_ok.
Qed.

Lemma sha256Sync_length (data : bytes) : List.length (sha256Sync data) = 32%nat.
Proof. rewrite sha256Sync_digest. apply SHA256_digest_length. Qed.

Lemma sha256Sync_ok (data : bytes) : bytes_ok (sha256Sync data).
Proof. rewrite sha256Sync_digest. apply SHA256_digest_ok. Qed.

Lemma ripemd160_length (data : bytes) : List.length (ripemd160 data) = 20%nat.
Proof. rewrite ripemd160_digest. apply RIPEMD160_digest_length. Qed.

Lemma ripemd160_ok (data : bytes) : bytes_ok (ripemd160 data).
Proof. rewrite ripemd160_digest. apply RIPEMD160_digest_ok. Qed.

(** The computed constants are the published ones (first and last). *)
Example sha256_constants :
  List.length SHA256.K = 64%nat
  /\ hd 0 SHA256.K = 0x428a2f98 /\ last SHA256.K 0 = 0xc67178f2
  /\ SHA256.a SHA256.H0 = 0x6a09e667 /\ SHA256.h SHA256.H0 = 0x5be0cd19.
Proof. repeat split. Qed.

(** Published test vectors of the two hash functions. *)
Example sha256_abc :
  bytesToHex (sha256Sync (js "abc"))
  = js "ba7816bf8f01cfea414140de5dae2223b00361a396177a9cb410ff61f20015ad".
Proof. vm_compute. reflexivity. Qed.

Example sha256_two_blocks :
  bytesToHex (sha256Sync (js "abcdbcdecdefdefgefghfghighijhijkijkljklmklmnlmnomnopnopq"))
  = js "248d6a61d20638b8e5c026930c3e6039a33ce45964ff2167f6ecedd419db06c1".
Proof. vm_compute. reflexivity. Qed.

Example ripemd160_abc :
  bytesToHex (ripemd160 (js "abc")) = js "8eb208f7e05d987a9b044a8e98c6b087f15a0bfc".
Proof. vm_compute. reflexivity. Qed.

Example ripemd160_empty :
  bytesToHex (ripemd160 []) = js "9c1185a5c5e9fc54612808977ee8f548b2258d31".
Proof. vm_compute. reflexivity. Qed.

(* ================================================================= *)
(** ** Addresses *)

(** The four checksum bytes of a versioned payload. *)
Definition checksum_of (payload : bytes) : bytes :=
  slice (sha256Sync (sha256Sync payload)) 0 4.

(** The 25 bytes that [publicKeyToAddress] encodes. *)
Definition address_bytes (publicKeyHex : jsstring) : bytes :=
  let payload := ADDRESS_VERSION :: ripemd160 (sha256Sync (hexToBytes publicKeyHex)) in
  payload ++ checksum_of payload.

(** What [validateAddress] tests on the decoded bytes. *)
Definition accepts (decoded : bytes) : bool :=
  (nth 0 decoded 0 =? ADDRESS_VERSION)
  && list_eqb (slice decoded 21 25) (checksum_of (slice decoded 0 21)).

Lemma slice_app_left (xs ys : bytes) (n : nat) :
  List.length xs = n -> slice (xs ++ ys) 0 n = xs.
Proof.
  intros <-. unfold slice. rewrite Nat.sub_0_r. cbn [skipn].
  rewrite firstn_app, Nat.sub_diag, firstn_all. cbn [firstn]. apply app_nil_r.
Qed.

Lemma slice_app_right (xs ys : bytes) (n m : nat) :
  List.length xs = n -> List.length ys = (m - n)%nat -> slice (xs ++ ys) n m = ys.
Proof.
  unfold slice. intros <- <-.
  rewrite skipn_app, Nat.sub_diag, skipn_all. cbn [skipn app]. apply firstn_all.
Qed.

Lemma checksum_of_length (payload : bytes) : List.length (checksum_of payload) = 4%nat.
Proof.
  unfold checksum_of, slice. rewrite length_firstn, length_skipn, sha256Sync_length.
  reflexivity.
Qed.

Lemma checksum_of_ok (payload : bytes) : bytes_ok (checksum_of payload).
Proof.
  unfold checksum_of, slice, bytes_ok. apply Forall_take. apply sha256Sync_ok.
Qed.

Lemma address_bytes_length (pub : jsstring) : List.length (address_bytes pub) = 25%nat.
Proof.
  unfold address_bytes. cbv zeta. rewrite length_app, checksum_of_length.
  cbn [List.length]. rewrite ripemd160_length. reflexivity.
Qed.

Lemma address_bytes_ok (pub : jsstring) : bytes_ok (address_bytes pub).
Proof.
  unfold address_bytes, bytes_ok. apply Forall_app. split.
  - constructor; [unfold byte_ok, ADDRESS_VERSION; lia | apply ripemd160_ok].
  - apply checksum_of_ok.
Qed.

Lemma address_bytes_accepted (pub : jsstring) : accepts (address_bytes pub) = true.
Proof.
  unfold accepts, address_bytes.
  set (h := ripemd160 (sha256Sync (hexToBytes pub))). cbv zeta.
  set (payload := ADDRESS_VERSION :: h).
  assert (Hp : List.length payload = 21%nat).
  { subst payload. cbn [List.length]. unfold h. rewrite ripemd160_length. reflexivity. }
  replace (slice (payload ++ checksum_of payload) 0 21) with payload
    by (symmetry; apply slice_app_left; exact Hp).
  replace (slice (payload ++ checksum_of payload) 21 25) with (checksum_of payload)
    by (symmetry; apply slice_app_right; [exact Hp | apply checksum_of_length]).
  rewrite list_eqb_refl. subst payload. cbn [app nth].
  rewrite Z.eqb_refl. reflexivity.
Qed.

Lemma typed_set_at_end (pre src : bytes) (k : nat) :
  List.length src = k ->
  typed_set (pre ++ repeat 0 k) src (List.length pre) = Normal (pre ++ src).
Proof.
  intros <-. unfold typed_set.
  rewrite length_app, repeat_length, Nat.leb_refl.
  rewrite firstn_app, Nat.sub_diag, firstn_all. cbn [firstn].
  rewrite skipn_all2 by (rewrite length_app, repeat_length; lia).
  rewrite !app_nil_r. reflexivity.
Qed.

Lemma typed_set_at_start (src : bytes) (n k : nat) :
  List.length src = n ->
  typed_set (repeat 0 (n + k)) src 0 = Normal (src ++ repeat 0 k).
Proof.
  intros <-. unfold typed_set. cbn [Nat.add firstn app].
  rewrite repeat_length.
  replace (List.length src <=? List.length src + k)%nat with true
    by (symmetry; apply Nat.leb_le; lia).
  rewrite repeat_app, skipn_app, repeat_length, Nat.sub_diag.
  rewrite skipn_all2 by (rewrite repeat_length; lia). reflexivity.
Qed.

(** [publicKeyToAddress] never throws: it is the Base58 encoding of
    [address_bytes]. *)
Lemma publicKeyToAddress_encodes (pub : jsstring) :
  publicKeyToAddress pub = base58Encode (address_bytes pub)
  /\ exists address, base58Encode (address_bytes pub) = Normal address.
Proof.
  assert (Hex : exists address, base58Encode (address_bytes pub) = Normal address).
  { rewrite base58Encode_value.
    - eexists. reflexivity.
    - apply address_bytes_ok.
    - unfold address_bytes. discriminate. }
  split; [|exact Hex]. destruct Hex as (address & Haddr).
  unfold publicKeyToAddress. rewrite Haddr. unfold address_bytes in Haddr.
  set (h := ripemd160 (sha256Sync (hexToBytes pub))) in *.
  assert (Hh : List.length h = 20%nat) by apply ripemd160_length.
  cbv zeta in Haddr |- *.
  set (payload := ADDRESS_VERSION :: h) in *.
  assert (Hp : List.length payload = 21%nat) by (subst payload; simpl; lia).
  assert (S1 : typed_set (typed_store (Uint8Array_new 21) 0 ADDRESS_VERSION) h 1
               = Normal payload).
  { apply (typed_set_at_end [ADDRESS_VERSION] h 20 Hh). }
  rewrite S1. cbn [bind]. fold (checksum_of payload).
  assert (S2 : typed_set (Uint8Array_new 25) payload 0 = Normal (payload ++ repeat 0 4)).
  { apply (typed_set_at_start payload 21 4 Hp). }
  rewrite S2. cbn [bind].
  assert (S3 : typed_set (payload ++ repeat 0 4) (checksum_of payload) 21
               = Normal (payload ++ checksum_of payload)).
  { rewrite <- Hp. apply typed_set_at_end, checksum_of_length. }
  rewrite S3. cbn [bind]. rewrite Haddr. reflexivity.
Qed.

Lemma checksums_agree_eqb (c e : bytes) :
  List.length c = 4%nat -> List.length e = 4%nat ->
  checksums_agree 0 4 c e = list_eqb c e.
Proof.
  intros Hc He.
  destruct c as [|c0 [|c1 [|c2 [|c3 [|]]]]]; try discriminate.
  destruct e as [|e0 [|e1 [|e2 [|e3 [|]]]]]; try discriminate.
  cbn. destruct (c0 =? e0), (c1 =? e1), (c2 =? e2), (c3 =? e3); reflexivity.
Qed.

(** What [validateAddress] answers once the string has passed the first
    test and decoded to 25 bytes. *)
Lemma validateAddress_decoded (str : jsstring) (decoded : bytes) :
  startsWith_D str = true ->
  base58Decode str = Normal decoded ->
  List.length decoded = 25%nat ->
  validateAddress str = Normal (accepts decoded).
Proof.
  intros HD Hdec Hlen. unfold validateAddress, accepts.
  rewrite HD, Hdec. cbn [negb bind]. rewrite Hlen, Nat.eqb_refl. cbn [negb].
  destruct decoded as [|v rest]; [discriminate|]. cbn [nth_error nth elem_eqb].
  destruct (v =? ADDRESS_VERSION); cbn [negb andb try_catch]; [|reflexivity].
  rewrite checksums_agree_eqb; [reflexivity | | apply checksum_of_length].
  unfold slice. rewrite length_firstn, length_skipn, Hlen. reflexivity.
Qed.

Lemma validateAddress_not_D (str : jsstring) :
  startsWith_D str = false -> validateAddress str = Normal false.
Proof. intros H. unfold validateAddress. rewrite H. reflexivity. Qed.

(** A 25-byte array whose first byte is the version byte encodes to a
    string that starts with ['D']. *)
Lemma version_byte_gives_D (rest : bytes) :
  bytes_ok rest -> List.length rest = 24%nat ->
  hd 0 (map alphabet_at (to_digits 58 (from_digits 256 (ADDRESS_VERSION :: rest)))) = 68.
Proof.
  intros Hok Hlen.
  pose proof (from_digits_nonneg 256 ltac:(lia) rest Hok) as Hlo.
  pose proof (from_digits_upper 256 ltac:(lia) rest Hok) as Hhi.
  rewrite Hlen in Hhi.
  rewrite (from_digits_cons 256), Hlen.
  set (num := ADDRESS_VERSION * 256 ^ Z.of_nat 24 + from_digits 256 rest).
  assert (Hnum : 30 * 256 ^ 24 <= num < 31 * 256 ^ 24).
  { subst num. unfold ADDRESS_VERSION. change (Z.of_nat 24) with 24 in *. lia. }
  clearbody num. clear Hlo Hhi.
  destruct (to_digits_spec 58 ltac:(lia) num ltac:(lia)) as [Hval [Hall Hhd]].
  destruct (to_digits 58 num) as [|d ds].
  { unfold from_digits in Hval. simpl in Hval. lia. }
  simpl in Hhd. cbn [map hd].
  apply Forall_cons_iff in Hall as [Hd Hds].
  unfold digit_ok in Hd.
  rewrite (from_digits_cons 58) in Hval.
  pose proof (from_digits_nonneg 58 ltac:(lia) ds Hds) as Hlo.
  pose proof (from_digits_upper 58 ltac:(lia) ds Hds) as Hhi.
  set (n := Z.of_nat (List.length ds)) in *.
  assert (Hn0 : 0 <= n) by (subst n; lia).
  assert (Hn : n = 33).
  { destruct (Z.lt_trichotomy n 33) as [Hlt | [Heq | Hgt]]; [exfalso | exact Heq | exfalso].
    - assert (58 ^ (n + 1) <= 58 ^ 33) by (apply Z.pow_le_mono_r; lia).
      rewrite Z.pow_add_r in H by lia. change (58 ^ 1) with 58 in H.
      assert (58 ^ 33 <= 30 * 256 ^ 24) by (vm_compute; discriminate).
      nia.
    - assert (58 ^ 34 <= 58 ^ n) by (apply Z.pow_le_mono_r; lia).
      assert (31 * 256 ^ 24 <= 58 ^ 34) by (vm_compute; discriminate).
      nia. }
  rewrite Hn in *.
  assert (H1 : 12 * 58 ^ 33 <= 30 * 256 ^ 24) by (vm_compute; discriminate).
  assert (H2 : 31 * 256 ^ 24 <= 13 * 58 ^ 33) by (vm_compute; discriminate).
  assert (d = 12) by nia. subst d. reflexivity.
Qed.

(** The characterisation of [validateAddress] on encoded 25-byte arrays:
    the string passes exactly when the version byte is right and the last
    four bytes are the checksum of the first 21. *)
Lemma validateAddress_encoded (bs : bytes) :
  bytes_ok bs -> List.length bs = 25%nat ->
  exists str,
    base58Encode bs = Normal str
    /\ validateAddress str = Normal (accepts bs)
    /\ (nth 0 bs 0 = ADDRESS_VERSION ->
        hd_error str = Some 68 /\ base58Decode str = Normal bs).
Proof.
  intros Hok Hlen.
  assert (Hne : bs <> []) by (intros ->; discriminate).
  rewrite (base58Encode_value bs Hok Hne).
  eexists. split; [reflexivity|].
  set (str := repeat 49 (leading_zero_bytes bs)
                ++ map alphabet_at (to_digits 58 (from_digits 256 bs))).
  assert (Henc : base58Encode bs = Normal str) by apply (base58Encode_value bs Hok Hne).
  destruct (Exists_dec (fun b => b <> 0) bs) as [Hnz | Hz].
  { intros b. destruct (Z.eq_dec b 0); [right | left]; tauto. }
  - (* some byte is nonzero: the string decodes to [bs] *)
    pose proof (base58_roundtrip_nonzero bs Hok Hnz) as Hrt.
    rewrite Henc in Hrt. cbn [bind] in Hrt.
    assert (Hacc : startsWith_D str = true -> validateAddress str = Normal (accepts bs)).
    { intros HD. apply validateAddress_decoded; assumption. }
    split.
    + destruct (startsWith_D str) eqn:HD; [apply Hacc; reflexivity|].
      rewrite (validateAddress_not_D str HD). unfold accepts.
      destruct (Z.eqb_spec (nth 0 bs 0) ADDRESS_VERSION) as [Hv|Hv]; [|reflexivity].
      exfalso. destruct bs as [|v rest]; [discriminate|]. simpl in Hv. subst v.
      assert (Hrest : bytes_ok rest) by (inversion Hok; assumption).
      assert (Hl : List.length rest = 24%nat) by (simpl in Hlen; lia).
      pose proof (version_byte_gives_D rest Hrest Hl) as HDD.
      subst str. cbn [leading_zero_bytes] in HD. simpl (ADDRESS_VERSION =? 0) in HD.
      cbn [repeat app] in HD. unfold startsWith_D in HD.
      destruct (map alphabet_at (to_digits 58 (from_digits 256 (ADDRESS_VERSION :: rest))))
        as [|c cs]; simpl in HDD; [discriminate|]. subst c. discriminate.
    + intros Hv. split; [|exact Hrt].
      destruct bs as [|v rest]; [discriminate|]. simpl in Hv. subst v.
      assert (Hrest : bytes_ok rest) by (inversion Hok; assumption).
      assert (Hl : List.length rest = 24%nat) by (simpl in Hlen; lia).
      pose proof (version_byte_gives_D rest Hrest Hl) as HDD.
      subst str. cbn [leading_zero_bytes]. simpl (ADDRESS_VERSION =? 0).
      cbn [repeat app].
      destruct (map alphabet_at (to_digits 58 (from_digits 256 (ADDRESS_VERSION :: rest))))
        as [|c cs]; simpl in HDD; [discriminate|]. subst c. reflexivity.
  - (* all bytes are zero: the string is a run of ['1'] *)
    assert (Hall : Forall (fun b => b = 0) bs).
    { apply Forall_forall. intros b Hb. destruct (Z.eq_dec b 0); [assumption|].
      exfalso. apply Hz. apply Exists_exists. exists b. split; assumption. }
    destruct bs as [|v rest]; [discriminate|].
    inversion Hall; subst. split.
    + rewrite validateAddress_not_D; [reflexivity|].
      subst str. reflexivity.
    + simpl. unfold ADDRESS_VERSION. discriminate.
Qed.

(* ================================================================= *)
(** ** The curve arithmetic *)

Lemma EC_p_value : EC.p = 2 ^ 256 - 2 ^ 32 - 977.
Proof. reflexivity. Qed.

(** One fold takes off a multiple of [p]. *)
Lemma fold_high_eq (x : Z) :
  EC.fold_high x = x - x / 2 ^ 256 * EC.p.
Proof.
  unfold EC.fold_high.
  rewrite Z.land_ones, Z.shiftr_div_pow2 by lia.
  pose proof (Z.div_mod x (2 ^ 256) ltac:(lia)) as H.
  rewrite EC_p_value. lia.
Qed.

(** [reduce] is the remainder modulo [p], on what a product of two field
    elements can be. *)
Lemma reduce_spec (x : Z) :
  0 <= x < 2 ^ 512 -> EC.reduce x = x mod EC.p.
Proof.
  intros Hx. unfold EC.reduce. cbv zeta.
  set (y1 := EC.fold_high x).
  set (y2 := EC.fold_high y1).
  assert (H1 : y1 = x - x / 2 ^ 256 * EC.p) by apply fold_high_eq.
  assert (H2 : y2 = y1 - y1 / 2 ^ 256 * EC.p) by apply fold_high_eq.
  assert (Hq1 : 0 <= x / 2 ^ 256 < 2 ^ 256).
  { split; [apply Z.div_pos; lia|].
    apply Z.div_lt_upper_bound; [lia|].
    change (2 ^ 256 * 2 ^ 256) with (2 ^ 512). lia. }
  assert (Hy1 : 0 <= y1 < 2 ^ 256 * (2 ^ 32 + 978)).
  { pose proof (Z.div_mod x (2 ^ 256) ltac:(lia)) as E.
    pose proof (Z.mod_pos_bound x (2 ^ 256) ltac:(lia)) as B.
    rewrite EC_p_value in H1. lia. }
  assert (Hq2 : 0 <= y1 / 2 ^ 256 < 2 ^ 32 + 978).
  { split; [apply Z.div_pos; lia|].
    apply Z.div_lt_upper_bound; lia. }
  assert (Hy2 : 0 <= y2 < 2 * EC.p).
  { pose proof (Z.div_mod y1 (2 ^ 256) ltac:(lia)) as E.
    pose proof (Z.mod_pos_bound y1 (2 ^ 256) ltac:(lia)) as B.
    rewrite EC_p_value in *. lia. }
  destruct (Z.leb_spec EC.p y2) as [Hge | Hlt].
  - apply Z.mod_unique with (q := x / 2 ^ 256 + y1 / 2 ^ 256 + 1); lia.
  - apply Z.mod_unique with (q := x / 2 ^ 256 + y1 / 2 ^ 256); lia.
Qed.

Lemma reduce_range (x : Z) : 0 <= x < 2 ^ 512 -> 0 <= EC.reduce x < EC.p.
Proof.
  intros Hx. rewrite reduce_spec by exact Hx.
  apply Z.mod_pos_bound. reflexivity.
Qed.

(** The field operations on reduced arguments. *)
Lemma fmul_spec (x y : Z) :
  0 <= x < EC.p -> 0 <= y < EC.p -> EC.fmul x y = x * y mod EC.p.
Proof.
  intros Hx Hy. unfold EC.fmul. apply reduce_spec.
  rewrite EC_p_value in *.
  assert (x * y < 2 ^ 256 * 2 ^ 256) by nia.
  change (2 ^ 512) with (2 ^ 256 * 2 ^ 256). nia.
Qed.

Lemma fsub_spec (x y : Z) :
  0 <= x < EC.p -> 0 <= y < EC.p -> EC.fsub x y = (x - y) mod EC.p.
Proof.
  intros Hx Hy. unfold EC.fsub. rewrite reduce_spec.
  - replace (x + (EC.p - y)) with (x - y + 1 * EC.p) by lia.
    apply Z.mod_add. discriminate.
  - rewrite EC_p_value in *. lia.
Qed.

(** On a string of hexadecimal digits [new BN(s, 16)] is the number
    that the digits write. *)
Lemma parseHex4Bits_digit (c d : Z) :
  hex_val c = Some d ->
  EC.parseHex4Bits c = d /\ is_js_whitespace c = false /\ c <> 45.
Proof.
  intros H.
  assert (Hc : 48 <= c <= 102).
  { unfold hex_val in H.
    destruct (Z.leb_spec 48 c), (Z.leb_spec c 57), (Z.leb_spec 97 c),
      (Z.leb_spec c 102), (Z.leb_spec 65 c), (Z.leb_spec c 70);
      cbn [andb] in H; try discriminate; lia. }
  assert (G : forall x, 0 <= x < 103 ->
                match hex_val x with
                | Some v => (EC.parseHex4Bits x =? v) && negb (is_js_whitespace x)
                            && negb (x =? 45)
                | None => true
                end = true).
  { apply (forall_upto
             (fun x => match hex_val x with
                       | Some v => (EC.parseHex4Bits x =? v) && negb (is_js_whitespace x)
                                   && negb (x =? 45)
                       | None => true
                       end) 103).
    vm_compute. reflexivity. }
  specialize (G c ltac:(lia)). rewrite H in G.
  apply andb_true_iff in G as [G G3]. apply andb_true_iff in G as [G1 G2].
  apply Z.eqb_eq in G1. apply negb_true_iff in G2, G3. apply Z.eqb_neq in G3.
  repeat split; assumption.
Qed.

Lemma BN_hex_digits (s : jsstring) (ds : list Z) :
  all_hex s = Some ds -> EC.BN_hex s = from_digits 16 ds.
Proof.
  intros H.
  assert (G : filter (fun c => negb (is_js_whitespace c)) s = s
              /\ map EC.parseHex4Bits s = ds /\ hd 0 s <> 45).
  { revert ds H. induction s as [|c s IH]; intros ds H.
    - injection H as <-. repeat split. cbn. lia.
    - cbn [all_hex] in H. destruct (hex_val c) as [d|] eqn:Ec; [|discriminate].
      destruct (all_hex s) as [ds'|]; [|discriminate]. injection H as <-.
      destruct (parseHex4Bits_digit c d Ec) as (E1 & E2 & E3).
      destruct (IH ds' eq_refl) as (F1 & F2 & _).
      cbn [filter map hd]. rewrite E2, E1, F1, F2. cbn [negb].
      repeat split. exact E3. }
  destruct G as (G1 & G2 & G3). unfold EC.BN_hex. rewrite G1.
  destruct s as [|c s']; [cbn in G2; subst ds; reflexivity|].
  cbn [hd] in G3. rewrite <- G2.
  destruct c as [|q|q]; try reflexivity.
  repeat (destruct q as [q|q|]; try reflexivity). contradiction.
Qed.

Lemma keyFromPrivate_hex (s : jsstring) (ds : list Z) :
  all_hex s = Some ds -> s <> [] ->
  EC.keyFromPrivate s = Normal (from_digits 16 ds mod EC.n).
Proof.
  intros H Hne. unfold EC.keyFromPrivate.
  destruct s as [|c s']; [contradiction|].
  rewrite (BN_hex_digits _ _ H). reflexivity.
Qed.

(** The base point is on the curve, its first multiples are the
    published ones, and the multiple by the group order is the point at
    infinity, which has no encoding. *)
Example base_point_on_curve :
  EC.Gy * EC.Gy mod EC.p = (EC.Gx * EC.Gx * EC.Gx + 7) mod EC.p.
Proof. vm_compute. reflexivity. Qed.

Example secp256k1_multiples :
  getPublicKeyFromPrivate (js "1")
  = Normal (js "0279be667ef9dcbbac55a06295ce870b07029bfcdb2dce28d959f2815b16f81798")
  /\ getPublicKeyFromPrivate (js "2")
     = Normal (js "02c6047f9441ed7d6d3045406e95c07cd85c778e4b8cef3ca7abac09b95c709ee5")
  /\ getPublicKeyFromPrivate (js "3")
     = Normal (js "02f9308a019258c31049344f85f89d5229b531c845836f99b08601f113bce036f9")
  /\ getPublicKeyFromPrivate
       (js "fffffffffffffffffffffffffffffffebaaedce6af48a03bbfd25e8cd0364141")
     = Throw (Error "Invalid private key: Cannot read properties of null (reading 'fromRed')").
Proof.
  split; [vm_compute; reflexivity|]. split; [vm_compute; reflexivity|].
  split; vm_compute; reflexivity.
Qed.

(* ================================================================= *)
(** ** Claim C10: the Base58 codec *)

(** C10, as stated, fails on the empty array: [base58Encode] evaluates
    [BigInt('0x')], which throws a [SyntaxError], so nothing is decoded
    and no extra zero byte appears.  (Decoding the empty string does give
    one zero byte, but the empty string is not the encoding of the empty
    array.) *)
Lemma base58_empty_array_throws :
  (str <- base58Encode [] ;; base58Decode str)
  = Throw (SyntaxError "Cannot convert 0x to a BigInt")
  /\ base58Decode [] = Normal [0].
Proof. split; reflexivity. Qed.

(** C10 (amended): for a byte array [bs],
    - if some byte is nonzero, decoding the encoding returns [bs];
    - if [bs] is non-empty and all zero, it returns [bs] with one more
      zero byte;
    - if [bs] is empty, [base58Encode] throws;
    - a 25-byte array whose first byte is the version byte [0x1E] is in
      the first case. *)
Theorem base58_roundtrip (bs : bytes) :
  bytes_ok bs ->
  (Exists (fun b => b <> 0) bs ->
   (str <- base58Encode bs ;; base58Decode str) = Normal bs)
  /\ (bs <> [] -> Forall (fun b => b = 0) bs ->
      (str <- base58Encode bs ;; base58Decode str) = Normal (bs ++ [0]))
  /\ (bs = [] ->
      base58Encode bs = Throw (SyntaxError "Cannot convert 0x to a BigInt"))
  /\ (List.length bs = 25%nat -> nth 0 bs 0 = ADDRESS_VERSION ->
      (str <- base58Encode bs ;; base58Decode str) = Normal bs).
Proof.
  intros Hok. repeat split.
  - apply base58_roundtrip_nonzero, Hok.
  - intros Hne Hz.
    assert (Hrep : bs = repeat 0 (List.length bs)).
    { clear Hne Hok. induction Hz as [|b bs Hb _ IH]; [reflexivity|].
      simpl. rewrite <- IH, Hb. reflexivity. }
    destruct bs as [|b bs']; [congruence|].
    rewrite Hrep. cbn [List.length]. apply base58_roundtrip_zeros.
  - intros ->. reflexivity.
  - intros Hlen Hv. apply base58_roundtrip_nonzero; [exact Hok|].
    destruct bs as [|b bs']; [discriminate|]. simpl in Hv.
    apply Exists_cons_hd. rewrite Hv. unfold ADDRESS_VERSION. lia.
Qed.

Lemma base58_roundtrip_witness :
  (str <- base58Encode [0; 0; 30; 7; 255] ;; base58Decode str)
  = Normal [0; 0; 30; 7; 255]
  /\ (str <- base58Encode [0; 0] ;; base58Decode str) = Normal [0; 0; 0].
Proof.
  split.
  - refine (proj1 (base58_roundtrip [0; 0; 30; 7; 255] _) _).
    + repeat constructor; unfold byte_ok; lia.
    + apply Exists_cons_tl, Exists_cons_tl, Exists_cons_hd. lia.
  - refine (proj1 (proj2 (base58_roundtrip [0; 0] _)) _ _).
    + repeat constructor; unfold byte_ok; lia.
    + discriminate.
    + repeat constructor.
Defined.

(* ================================================================= *)
(** ** Claim C3: address validity *)

(** [validateAddress(base58Encode(bs))], as one expression. *)
Definition validate_bytes (bs : bytes) : completion bool :=
  address <- base58Encode bs ;; validateAddress address.

(** C3, as stated, fails for a mutation of the payload: the two strings
    below are both accepted by [validateAddress], and they decode to 25
    bytes that differ in exactly one byte of the 20-byte hash (index 5,
    [0x96] against [0xED]); the 32-bit checksum of the two payloads is the
    same. *)
Lemma payload_mutation_accepted :
  let valid := js "DUKAi5LLmECQwgUJ3e36EoDjome3pUJisr" in
  let mutated := js "DUKAi5MZ4aus9jXofaWYWikL9T1jKxhNor" in
  let decoded := [30; 254; 50; 136; 112; 150; 27; 39; 37; 41; 111; 34; 28; 46;
                  189; 194; 11; 155; 65; 199; 172; 188; 138; 109; 1] in
  validateAddress valid = Normal true
  /\ base58Decode valid = Normal decoded
  /\ base58Encode (typed_store decoded 5 237) = Normal mutated
  /\ base58Decode mutated = Normal (typed_store decoded 5 237)
  /\ validateAddress mutated = Normal true.
Proof. vm_compute. repeat split; reflexivity. Qed.

Lemma typed_store_length (bs : bytes) (i : nat) (v : Z) :
  List.length (typed_store bs i v) = List.length bs.
Proof.
  revert i. induction bs as [|b bs IH]; intros [|i]; simpl; try reflexivity.
  rewrite IH. reflexivity.
Qed.

Lemma typed_store_ok (bs : bytes) (i : nat) (v : Z) :
  bytes_ok bs -> bytes_ok (typed_store bs i v).
Proof.
  intros H. revert i. induction H as [|b bs Hb Hbs IH]; intros [|i]; simpl.
  - constructor.
  - constructor.
  - constructor; [|exact Hbs]. unfold byte_ok. apply Z.mod_pos_bound. lia.
  - constructor; [exact Hb | apply IH].
Qed.

Lemma typed_store_app (xs ys : bytes) (i : nat) (v : Z) :
  typed_store (xs ++ ys) i v
  = if (i <? List.length xs)%nat
    then typed_store xs i v ++ ys
    else xs ++ typed_store ys (i - List.length xs) v.
Proof.
  revert i. induction xs as [|x xs IH]; intros i.
  - simpl. rewrite Nat.sub_0_r. reflexivity.
  - destruct i as [|i]; [reflexivity|].
    cbn [app typed_store List.length]. rewrite IH.
    change (S i <? S (List.length xs))%nat with (i <? List.length xs)%nat.
    destruct (i <? List.length xs)%nat; reflexivity.
Qed.

Lemma typed_store_changes (bs : bytes) (i : nat) (v : Z) :
  (i < List.length bs)%nat -> byte_ok v -> nth i bs 0 <> v ->
  list_eqb (typed_store bs i v) bs = false.
Proof.
  revert i. induction bs as [|b bs IH]; intros i Hi Hv Hne; simpl in Hi; [lia|].
  destruct i as [|i]; simpl in *.
  - unfold byte_ok in Hv. rewrite Z.mod_small by lia.
    destruct (Z.eqb_spec v b); [congruence | reflexivity].
  - rewrite IH by (try lia; assumption). apply andb_false_r.
Qed.

Lemma list_eqb_sym (xs ys : list Z) : list_eqb xs ys = list_eqb ys xs.
Proof.
  revert ys. induction xs as [|x xs IH]; intros [|y ys]; simpl; try reflexivity.
  rewrite IH, Z.eqb_sym. reflexivity.
Qed.

(** C3 (amended): for every public key string the derived address is
    returned and validates, it starts with ['D'], and it decodes to the 25
    bytes [0x1E], RIPEMD160(SHA256(publicKey)), checksum.  Re-encoding
    these bytes after a change of one byte is rejected when the byte is
    the version byte or a checksum byte; when it is one of the 20 hash
    bytes it is rejected exactly when the checksum of the changed payload
    differs from the stored checksum. *)
Theorem address_validity (pub : jsstring) :
  let h160 := ripemd160 (sha256Sync (hexToBytes pub)) in
  let payload := ADDRESS_VERSION :: h160 in
  let decoded := payload ++ slice (sha256Sync (sha256Sync payload)) 0 4 in
  exists address,
    publicKeyToAddress pub = Normal address
    /\ validateAddress address = Normal true
    /\ hd_error address = Some 68
    /\ base58Decode address = Normal decoded
    /\ List.length decoded = 25%nat
    /\ List.length h160 = 20%nat
    /\ (forall i v, (21 <= i < 25)%nat -> byte_ok v -> nth i decoded 0 <> v ->
        validate_bytes (typed_store decoded i v) = Normal false)
    /\ (forall v, byte_ok v -> v <> ADDRESS_VERSION ->
        validate_bytes (typed_store decoded 0 v) = Normal false)
    /\ (forall i v, (1 <= i <= 20)%nat -> byte_ok v ->
        validate_bytes (typed_store decoded i v)
        = Normal (list_eqb (checksum_of payload)
                           (checksum_of (typed_store payload i v)))).
Proof.
  intros h160 payload decoded.
  assert (Hdec : decoded = address_bytes pub) by reflexivity.
  assert (Hlen : List.length decoded = 25%nat)
    by (rewrite Hdec; apply address_bytes_length).
  assert (Hok : bytes_ok decoded) by (rewrite Hdec; apply address_bytes_ok).
  assert (Hh : List.length h160 = 20%nat) by apply ripemd160_length.
  assert (Hp : List.length payload = 21%nat) by (subst payload; simpl; lia).
  assert (Hcs : List.length (checksum_of payload) = 4%nat) by apply checksum_of_length.
  destruct (publicKeyToAddress_encodes pub) as [Henc _].
  destruct (validateAddress_encoded decoded Hok Hlen) as (address & Ha & Hval & Hform).
  destruct (Hform eq_refl) as [HD Hback].
  assert (Hmut : forall i v,
             validate_bytes (typed_store decoded i v)
             = Normal (accepts (typed_store decoded i v))).
  { intros i v. unfold validate_bytes.
    destruct (validateAddress_encoded (typed_store decoded i v)) as (m & Hm & Hvm & _).
    - apply typed_store_ok, Hok.
    - rewrite typed_store_length. exact Hlen.
    - rewrite Hm. cbn [bind]. exact Hvm. }
  exists address. repeat split; try assumption.
  - rewrite Henc, <- Hdec. exact Ha.
  - rewrite Hval, Hdec. f_equal. apply address_bytes_accepted.
  - (* a checksum byte *)
    intros i v Hi Hv Hne. rewrite Hmut. f_equal. unfold accepts.
    fold (checksum_of payload) in decoded. subst decoded.
    rewrite typed_store_app, Hp.
    destruct (Nat.ltb_spec i 21) as [Hlt|_]; [lia|].
    set (cs := typed_store (checksum_of payload) (i - 21) v).
    assert (Hcs' : List.length cs = 4%nat)
      by (subst cs; rewrite typed_store_length; exact Hcs).
    replace (slice (payload ++ cs) 0 21) with payload
      by (symmetry; apply slice_app_left; exact Hp).
    replace (slice (payload ++ cs) 21 25) with cs
      by (symmetry; apply slice_app_right; [exact Hp | exact Hcs']).
    subst cs.
    rewrite typed_store_changes; [apply andb_false_r | lia | exact Hv |].
    intros E. apply Hne. rewrite app_nth2 by lia. rewrite Hp. exact E.
  - (* the version byte *)
    intros v Hv Hne. rewrite Hmut. f_equal. unfold accepts.
    subst decoded payload. cbn [app typed_store nth to_uint8].
    unfold byte_ok in Hv. rewrite Z.mod_small by lia.
    destruct (Z.eqb_spec v ADDRESS_VERSION); [contradiction | reflexivity].
  - (* a byte of the hash *)
    intros i v Hi Hv. rewrite Hmut. f_equal. unfold accepts.
    fold (checksum_of payload) in decoded. subst decoded.
    rewrite typed_store_app, Hp.
    destruct (Nat.ltb_spec i 21) as [_|Hge]; [|lia].
    assert (Hp' : List.length (typed_store payload i v) = 21%nat)
      by (rewrite typed_store_length; exact Hp).
    set (p' := typed_store payload i v) in *.
    replace (slice (p' ++ checksum_of payload) 0 21) with p'
      by (symmetry; apply slice_app_left; exact Hp').
    replace (slice (p' ++ checksum_of payload) 21 25) with (checksum_of payload)
      by (symmetry; apply slice_app_right; [exact Hp' | exact Hcs]).
    subst p'.
    destruct i as [|i]; [lia|]. subst payload. cbn [typed_store app nth].
    rewrite Z.eqb_refl. reflexivity.
Qed.

Lemma address_validity_witness :
  let pub := js "0279be667ef9dcbbac55a06295ce870b07029bfcdb2dce28d959f2815b16f81798" in
  exists address,
    publicKeyToAddress pub = Normal address
    /\ validateAddress address = Normal true
    /\ validate_bytes (typed_store (address_bytes pub) 0 0) = Normal false.
Proof.
  intros pub.
  destruct (address_validity pub) as (address & H1 & H2 & _ & _ & _ & _ & _ & H3 & _).
  exists address. split; [exact H1 | split; [exact H2 |]].
  apply (H3 0).
  - unfold byte_ok. lia.
  - unfold ADDRESS_VERSION. lia.
Defined.

(* ================================================================= *)
(** ** Claim C6: the fixed import vector *)

(** The private key string of the scenario, as the specification prints
    it. *)
Definition scenario_key : jsstring :=
  js "f1b07e32f1f1bdaf5efa886e6511c91e187138905b3f96600304d8535fbefa6".

Definition invalid_key_format : exn :=
  Error "Invalid private key format. Must be 64 hexadecimal characters.".

(** C6, as stated, fails: the string has 63 characters, the test of
    [importWallet] rejects it, and [importWallet] throws before any key or
    address is derived, whatever the curve library does. *)
Lemma scenario_key_rejected :
  List.length scenario_key = 63%nat
  /\ is_hex64 scenario_key = false
  /\ forall publicKeyOf,
       importWallet publicKeyOf scenario_key = Throw invalid_key_format.
Proof. repeat split. Qed.

(** The private key of the repository's README: the string of the
    scenario and one more character. *)
Definition readme_key : jsstring :=
  js "f1b07e32f1f1bdaf5efa886e6511c91e187138905b3f96600304d8535fbefa6d".

(** The import vector of the README, through the curve, the two hashes
    and the Base58 encoding. *)
Lemma readme_vector :
  importWallet getPublicKeyFromPrivate readme_key
  = Normal (mkWallet readme_key
              (js "02ccb34578b0edf3fa4a7cb488a969fd6e36ea3744dd5458b307f95b125cc57fe6")
              (js "DFSVTrK1N53SeFiKKXRUVKCZKRvmA2xzoU")).
Proof. vm_compute. reflexivity. Qed.

(** C6 (amended): the string of the scenario has 63 characters and
    [importWallet] throws the format error on it, as on every string that
    is not exactly 64 hexadecimal characters; on a string of 64
    hexadecimal characters it returns the lower-cased key with the public
    key of the curve library and the address derived from it; and the
    64-character key of the README, which is the scenario's string
    followed by [d], imports to the address
    [DFSVTrK1N53SeFiKKXRUVKCZKRvmA2xzoU]. *)
Theorem importWallet_format
        (publicKeyOf : jsstring -> completion jsstring) (key : jsstring) :
  importWallet publicKeyOf scenario_key = Throw invalid_key_format
  /\ (List.length key <> 64%nat \/ existsb (fun c => negb (is_hex_char c)) key = true ->
      importWallet publicKeyOf key = Throw invalid_key_format)
  /\ (List.length key = 64%nat -> forallb is_hex_char key = true ->
      importWallet publicKeyOf key
      = (publicKey <- publicKeyOf key ;;
         address <- publicKeyToAddress publicKey ;;
         Normal (mkWallet (toLowerCase key) publicKey address)))
  /\ readme_key = scenario_key ++ js "d"
  /\ importWallet getPublicKeyFromPrivate readme_key
     = Normal (mkWallet readme_key
                 (js "02ccb34578b0edf3fa4a7cb488a969fd6e36ea3744dd5458b307f95b125cc57fe6")
                 (js "DFSVTrK1N53SeFiKKXRUVKCZKRvmA2xzoU")).
Proof.
  split; [reflexivity | split; [|split; [|split]]].
  - intros H. unfold importWallet.
    replace (is_hex64 key) with false; [reflexivity|].
    symmetry. unfold is_hex64. destruct H as [H | H].
    + apply Nat.eqb_neq in H. rewrite H. reflexivity.
    + apply andb_false_iff. right.
      apply existsb_exists in H as (c & Hin & Hc).
      destruct (forallb is_hex_char key) eqn:E; [|reflexivity].
      rewrite forallb_forall in E. rewrite (E c Hin) in Hc. discriminate.
  - intros Hlen Hhex. unfold importWallet, is_hex64.
    rewrite Hlen, Hhex. reflexivity.
  - reflexivity.
  - exact readme_vector.
Qed.

Lemma importWallet_format_witness :
  importWallet (fun _ => Throw (Error "unused")) (js "xyz") = Throw invalid_key_format.
Proof.
  refine (proj1 (proj2 (importWallet_format _ (js "xyz"))) _).
  left. vm_compute. discriminate.
Defined.

(* ================================================================= *)
(** ** Claim C9: the distribution of the mnemonic word index *)

Lemma WORDLIST_length : List.length WORDLIST = 234%nat.
Proof. reflexivity. Qed.

Lemma randomIndex_mod (r : Z) : randomIndex r = r mod 234.
Proof. unfold randomIndex. rewrite WORDLIST_length. reflexivity. Qed.

(** The number of 32-bit values that [randomIndex] sends to [i]. *)
Definition preimage_count (i : Z) : Z :=
  if (0 <=? i) && (i <? 234)
  then (if i <? 2 ^ 32 mod 234 then 2 ^ 32 / 234 + 1 else 2 ^ 32 / 234)
  else 0.

(** The 32-bit values that [randomIndex] sends to [i], in increasing
    order. *)
Definition preimages (i : Z) : list Z :=
  map (fun k => i + 234 * Z.of_nat k) (seq 0 (Z.to_nat (preimage_count i))).

Lemma preimage_count_values (i : Z) :
  preimage_count i
  = if (0 <=? i) && (i <? 234)
    then (if i <? 22 then 18354562 else 18354561)
    else 0.
Proof. reflexivity. Qed.

Lemma preimages_length (i : Z) :
  Z.of_nat (List.length (preimages i)) = preimage_count i.
Proof.
  unfold preimages. rewrite length_map, length_seq.
  apply Z2Nat.id. rewrite preimage_count_values.
  destruct ((0 <=? i) && (i <? 234)); [destruct (i <? 22)|]; discriminate.
Qed.

Lemma preimages_NoDup (i : Z) : NoDup (preimages i).
Proof.
  unfold preimages. apply Finite.Injective_map_NoDup; [|apply seq_NoDup].
  intros x y H. lia.
Qed.

Lemma preimages_spec (i x : Z) :
  In x (preimages i) <-> (0 <= x < 2 ^ 32 /\ randomIndex x = i).
Proof.
  unfold preimages. rewrite in_map_iff, randomIndex_mod, preimage_count_values.
  change (2 ^ 32) with 4294967296.
  set (c := if (0 <=? i) && (i <? 234)
            then if i <? 22 then 18354562 else 18354561 else 0).
  assert (Hc : (0 <= i < 22 /\ c = 18354562) \/ (22 <= i < 234 /\ c = 18354561)
               \/ ((i < 0 \/ 234 <= i) /\ c = 0)).
  { subst c. destruct (Z.leb_spec 0 i), (Z.ltb_spec i 234), (Z.ltb_spec i 22);
      cbn [andb]; lia. }
  clearbody c.
  split.
  - intros (k & <- & Hk). apply in_seq in Hk.
    assert (Hmod : 0 <= i < 234 -> (i + 234 * Z.of_nat k) mod 234 = i).
    { intros Hi. symmetry. apply Z.mod_unique with (q := Z.of_nat k); lia. }
    lia.
  - intros [Hx Hm].
    pose proof (Z.div_mod x 234 ltac:(lia)) as Hdm.
    pose proof (Z.mod_pos_bound x 234 ltac:(lia)) as Hb.
    rewrite Hm in Hdm, Hb.
    exists (Z.to_nat (x / 234)).
    assert (0 <= x / 234) by (apply Z.div_pos; lia).
    split; [lia|]. apply in_seq. lia.
Qed.

(** C9, as stated, fails: the word list has 234 words and 234 does not
    divide 2^32, so index 0 has one more 32-bit preimage than index 233
    (18354562 against 18354561). *)
Lemma index_preimages_differ :
  exists l0 l233 : list Z,
    NoDup l0 /\ (forall x, In x l0 <-> (0 <= x < 2 ^ 32 /\ randomIndex x = 0))
    /\ NoDup l233 /\ (forall x, In x l233 <-> (0 <= x < 2 ^ 32 /\ randomIndex x = 233))
    /\ Z.of_nat (List.length l0) = 18354562
    /\ Z.of_nat (List.length l233) = 18354561.
Proof.
  exists (preimages 0), (preimages 233).
  split; [apply preimages_NoDup|].
  split; [intros x; apply preimages_spec|].
  split; [apply preimages_NoDup|].
  split; [intros x; apply preimages_spec|].
  split; rewrite preimages_length; reflexivity.
Qed.

(** C9 (amended): [generateMnemonic] maps each of its twelve 32-bit draws
    to the index [draw mod 234]; for an index [i] of the word list, any
    duplicate-free list of exactly the 32-bit values mapped to [i] has
    18354562 elements when [i < 22] and 18354561 elements otherwise, so
    the first 22 words are each one part in 18354561 more likely than the
    others. *)
Theorem word_index_distribution (i : Z) (l : list Z) :
  0 <= i < 234 ->
  NoDup l ->
  (forall x, In x l <-> (0 <= x < 2 ^ 32 /\ randomIndex x = i)) ->
  Z.of_nat (List.length l) = (if i <? 22 then 18354562 else 18354561)
  /\ (forall draw,
        generateMnemonic draw
        = join_space
            (map (fun n => js (nth (Z.to_nat (draw n mod 234)) WORDLIST ""%string))
                 (seq 0 12))).
Proof.
  intros Hi Hnd Hl. split.
  - assert (Hperm : Permutation l (preimages i)).
    { apply NoDup_Permutation; [exact Hnd | apply preimages_NoDup |].
      intros x. rewrite Hl, preimages_spec. reflexivity. }
    rewrite (Permutation_length Hperm), preimages_length, preimage_count_values.
    destruct (Z.leb_spec 0 i), (Z.ltb_spec i 234); cbn [andb]; first [lia | reflexivity].
  - intros draw. reflexivity.
Qed.

Lemma word_index_distribution_witness :
  Z.of_nat (List.length (preimages 5)) = 18354562.
Proof.
  refine (proj1 (word_index_distribution 5 (preimages 5) _ _ _)).
  - lia.
  - apply preimages_NoDup.
  - apply preimages_spec.
Defined.

(* ================================================================= *)
(** ** Claim C5: the session timeout rule *)

(** The rule in the words of the specification. *)
Definition isValid_spec (unlocked : bool) (now lastActivityMs autoLockMinutes : Z)
  : bool :=
  unlocked && (now - lastActivityMs <? autoLockMinutes * 60000).

(** The session and the settings that [getSession] and [getSettings]
    deliver: the stored record, or the default when there is none or the
    store is unavailable. *)
Definition current_session (st : chrome_storage) : session_record :=
  match unavailable st, dinari_session st with
  | None, Some s => s
  | _, _ => mkSession false 0
  end.

Definition current_settings (st : chrome_storage) : settings_record :=
  match unavailable st, dinari_settings st with
  | None, Some s => s
  | _, _ => DEFAULT_SETTINGS
  end.

Lemma getSession_current (st : chrome_storage) :
  getSession st = Normal (current_session st).
Proof.
  unfold getSession, current_session, storage_get.
  destruct (unavailable st), (dinari_session st); reflexivity.
Qed.

Lemma getSettings_current (st : chrome_storage) :
  getSettings st = Normal (current_settings st).
Proof.
  unfold getSettings, current_settings, storage_get.
  destruct (unavailable st), (dinari_settings st); reflexivity.
Qed.

(** C5: [isSessionValid] is the rule of the specification on the current
    session and settings, at every time; with the 5-minute setting a
    session last active 5 minutes and 1 ms ago is invalid and one last
    active 4 minutes ago is valid; a locked session is invalid whatever
    its last activity; and [checkAutoLock] locks an unlocked session
    exactly when the rule fails. *)
Theorem session_timeout_rule (st : chrome_storage) (now : Z) :
  isSessionValid st now
  = Normal (isValid_spec (unlocked (current_session st)) now
                         (last_activity (current_session st))
                         (auto_lock_minutes (current_settings st)))
  /\ (forall wallet endpoint,
        isSessionValid
          (mkStorage None wallet (Some (mkSettings endpoint 5))
                     (Some (mkSession true (now - 5 * 60 * 1000 - 1)))) now
        = Normal false
        /\ isSessionValid
             (mkStorage None wallet (Some (mkSettings endpoint 5))
                        (Some (mkSession true (now - 4 * 60 * 1000)))) now
           = Normal true)
  /\ (forall failure wallet settings last,
        isSessionValid
          (mkStorage failure wallet settings (Some (mkSession false last))) now
        = Normal false)
  /\ (forall wallet settings session,
        let st' := mkStorage None wallet settings (Some session) in
        dinari_session (checkAutoLock st' now)
        = Some (if unlocked session
                   && negb (isValid_spec true now (last_activity session)
                                         (auto_lock_minutes (current_settings st')))
                then mkSession false 0 else session)).
Proof.
  assert (Hrule : forall s t,
             isSessionValid s t
             = Normal (isValid_spec (unlocked (current_session s)) t
                                    (last_activity (current_session s))
                                    (auto_lock_minutes (current_settings s)))).
  { intros s t. unfold isSessionValid, isValid_spec.
    rewrite getSession_current. cbn [bind].
    destruct (unlocked (current_session s)); cbn [negb andb try_catch]; [|reflexivity].
    rewrite getSettings_current. cbn [bind try_catch].
    rewrite <- Z.mul_assoc. reflexivity. }
  split; [apply Hrule|]. split; [|split].
  - intros wallet endpoint. rewrite !Hrule. unfold isValid_spec. cbn.
    split; f_equal.
    + apply Z.ltb_ge. lia.
    + apply Z.ltb_lt. lia.
  - intros failure wallet settings last. rewrite Hrule.
    unfold current_session. cbn. destruct failure; reflexivity.
  - intros wallet settings session st'. subst st'.
    unfold checkAutoLock, current_settings, isValid_spec. cbn.
    destruct (unlocked session); cbn [negb andb]; [|reflexivity].
    destruct settings as [s|]; cbn [dinari_settings unavailable auto_lock_minutes
                                     DEFAULT_SETTINGS];
      rewrite <- Z.mul_assoc; change (60 * 1000) with 60000;
      rewrite Z.geb_leb;
      match goal with
      | |- context [?b <=? ?a] =>
          destruct (Z.leb_spec b a), (Z.ltb_spec a b); try lia; reflexivity
      end.
Qed.

(* ================================================================= *)
(** ** Claims C7 and C8: which errors are swallowed, which are wrapped *)

(** [decrypt] has one error: whatever goes wrong inside, the caller gets
    [decryption_failed]. *)
Lemma decrypt_single_error (cipher : AEAD) (e s i pw : jsstring) :
  decrypt cipher e s i pw = Throw decryption_failed
  \/ exists plaintext, decrypt cipher e s i pw = Normal plaintext.
Proof.
  unfold decrypt.
  destruct (base64ToArrayBuffer s) as [saltb|]; cbn [bind try_catch]; [|left; reflexivity].
  destruct (base64ToArrayBuffer i) as [ivb|]; cbn [bind try_catch]; [|left; reflexivity].
  destruct (base64ToArrayBuffer e) as [ct|]; cbn [bind try_catch]; [|left; reflexivity].
  destruct (aead_decrypt cipher (deriveKey pw saltb) ivb ct);
    cbn [try_catch]; [right; eexists; reflexivity | left; reflexivity].
Qed.

Lemma decrypt_throws (cipher : AEAD) (e s i pw : jsstring) (err : exn) :
  decrypt cipher e s i pw = Throw err -> err = decryption_failed.
Proof.
  intros H. destruct (decrypt_single_error cipher e s i pw) as [E | (p & E)];
    rewrite E in H; congruence.
Qed.

(** What [validateAddress] computes, as a total boolean function. *)
Definition address_is_valid (address : jsstring) : bool :=
  match base58Decode address with
  | Throw _ => false
  | Normal decoded =>
      startsWith_D address
      && (List.length decoded =? 25)%nat
      && (nth 0 decoded 0 =? ADDRESS_VERSION)
      && list_eqb (slice decoded 21 25) (checksum_of (slice decoded 0 21))
  end.

(** What [verifyPassword] computes, as a total boolean function. *)
Definition password_is_accepted (cipher : AEAD) (st : chrome_storage)
           (password : jsstring) : bool :=
  match unavailable st, dinari_wallet st with
  | None, Some walletData =>
      match decrypt cipher (encrypted_data walletData) (wr_salt walletData)
                    (wr_iv walletData) password with
      | Normal _ => true
      | Throw _ => false
      end
  | _, _ => false
  end.

(** C7: [validateAddress] and [verifyPassword] return a boolean on every
    input and never throw.  [validateAddress] answers [false] when the
    string has a character outside the Base58 alphabet (the decoder
    throws), when it does not start with ['D'], when it does not decode
    to 25 bytes, when the version byte or the checksum is wrong.
    [verifyPassword] answers [false] when the store is unavailable, when
    there is no wallet record and when [decrypt] throws. *)
Theorem predicates_never_throw
        (cipher : AEAD) (address : jsstring)
        (st : chrome_storage) (password : jsstring) :
  validateAddress address = Normal (address_is_valid address)
  /\ verifyPassword cipher st password
     = Normal (password_is_accepted cipher st password).
Proof.
  split.
  - unfold validateAddress, address_is_valid.
    destruct (startsWith_D address); cbn [negb].
    + destruct (base58Decode address) as [decoded|]; cbn [bind try_catch]; [|reflexivity].
      destruct (Nat.eqb_spec (List.length decoded) 25) as [Hlen|Hlen];
        cbn [negb andb try_catch]; [|reflexivity].
      destruct decoded as [|v rest]; [discriminate|].
      cbn [nth_error nth elem_eqb].
      destruct (v =? ADDRESS_VERSION); cbn [negb andb try_catch]; [|reflexivity].
      rewrite checksums_agree_eqb; [reflexivity | | apply checksum_of_length].
      unfold slice. rewrite length_firstn, length_skipn, Hlen. reflexivity.
    + cbn [try_catch]. destruct (base58Decode address); reflexivity.
  - unfold verifyPassword, password_is_accepted, storage_get.
    destruct (unavailable st); [reflexivity|].
    destruct (dinari_wallet st) as [w|]; cbn [bind try_catch]; [|reflexivity].
    destruct (decrypt cipher _ _ _ password); reflexivity.
Qed.

(** C8, as stated, fails: when [decrypt] throws, [loadWallet] does not
    pass that error on; it throws a new error whose message is the old
    one behind the prefix ["Failed to load wallet: "].  Here the stored
    salt is not Base64, so [decrypt] throws for every cipher. *)
Lemma loadWallet_rewraps :
  let w := mkWalletRecord (js "AAAA") (js "!") (js "AAAA") (js "D") (js "02") in
  let st := mkStorage None (Some w) None None in
  (forall cipher password,
     decrypt cipher (encrypted_data w) (wr_salt w) (wr_iv w) password
     = Throw (Error "Decryption failed - incorrect password or corrupted data"))
  /\ (forall cipher parse password,
        loadWallet cipher parse st password
        = Throw (Error "Failed to load wallet: Decryption failed - incorrect password or corrupted data")).
Proof. split; reflexivity. Qed.

(** C8 (amended): every error inside [loadWallet] reaches the caller as a
    new [Error] whose message is ["Failed to load wallet: "] followed by
    the message of the original error; for a failed decryption the caller
    gets the message ["Failed to load wallet: Decryption failed -
    incorrect password or corrupted data"]. *)
Theorem loadWallet_wraps_errors
        (cipher : AEAD) (parse : jsstring -> completion (value * value))
        (st : chrome_storage) (password : jsstring) :
  loadWallet cipher parse st password
  = match unavailable st, dinari_wallet st with
    | Some e, _ => Throw (Error ("Failed to load wallet: " ++ exn_message e))
    | None, None => Throw (Error "Failed to load wallet: No wallet found")
    | None, Some w =>
        match decrypt cipher (encrypted_data w) (wr_salt w) (wr_iv w) password with
        | Throw _ =>
            Throw (Error ("Failed to load wallet: " ++ exn_message decryption_failed))
        | Normal decryptedJson =>
            match parse decryptedJson with
            | Throw e => Throw (Error ("Failed to load wallet: " ++ exn_message e))
            | Normal sensitiveData =>
                Normal (mkLoaded (fst sensitiveData) (snd sensitiveData)
                                 (address w) (public_key w))
            end
        end
    end.
Proof.
  unfold loadWallet, storage_get.
  destruct (unavailable st); [reflexivity|].
  destruct (dinari_wallet st) as [w|]; cbn [bind try_catch]; [|reflexivity].
  destruct (decrypt cipher _ _ _ password) as [json|err] eqn:E; cbn [bind try_catch].
  - destruct (parse json); reflexivity.
  - apply decrypt_throws in E. subst err. reflexivity.
Qed.

(* ================================================================= *)
(** ** Shifts and masks as arithmetic *)

Lemma lor_shiftl_small (x y n : Z) :
  0 <= n -> 0 <= y < 2 ^ n -> Z.lor (Z.shiftl x n) y = x * 2 ^ n + y.
Proof.
  intros Hn Hy. rewrite Z.shiftl_mul_pow2 by lia.
  assert (Hdisj : Z.land (x * 2 ^ n) y = 0).
  { apply Z.bits_inj'. intros k Hk. rewrite Z.land_spec, Z.bits_0.
    destruct (Z.lt_ge_cases k n) as [Hlt|Hge].
    - rewrite Z.mul_pow2_bits_low by lia. reflexivity.
    - rewrite <- (Z.mod_small y (2 ^ n)) by lia.
      rewrite Z.mod_pow2_bits_high by lia. apply andb_false_r. }
  rewrite <- Z.lxor_lor by exact Hdisj.
  symmetry. apply Z.add_nocarry_lxor. exact Hdisj.
Qed.

Lemma lor_high_bit (y : Z) : 0 <= y < 64 -> Z.lor 128 y = 128 + y.
Proof.
  intros Hy. change 128 with (Z.shiftl 2 6).
  rewrite lor_shiftl_small by lia. reflexivity.
Qed.

Lemma land_mask (x n : Z) : 0 <= n -> Z.land x (2 ^ n - 1) = x mod 2 ^ n.
Proof.
  intros Hn. rewrite <- Z.land_ones by lia. f_equal.
  rewrite Z.ones_equiv. lia.
Qed.

Lemma land_63 (x : Z) : Z.land x 63 = x mod 64.
Proof. apply (land_mask x 6). lia. Qed.
Lemma land_31 (x : Z) : Z.land x 31 = x mod 32.
Proof. apply (land_mask x 5). lia. Qed.
Lemma land_15 (x : Z) : Z.land x 15 = x mod 16.
Proof. apply (land_mask x 4). lia. Qed.
Lemma land_7 (x : Z) : Z.land x 7 = x mod 8.
Proof. apply (land_mask x 3). lia. Qed.
Lemma land_3 (x : Z) : Z.land x 3 = x mod 4.
Proof. apply (land_mask x 2). lia. Qed.
Lemma land_1023 (x : Z) : Z.land x 1023 = x mod 1024.
Proof. apply (land_mask x 10). lia. Qed.

Lemma shiftr_2 (x : Z) : Z.shiftr x 2 = x / 4.
Proof. apply (Z.shiftr_div_pow2 x 2). lia. Qed.
Lemma shiftr_4 (x : Z) : Z.shiftr x 4 = x / 16.
Proof. apply (Z.shiftr_div_pow2 x 4). lia. Qed.
Lemma shiftr_6 (x : Z) : Z.shiftr x 6 = x / 64.
Proof. apply (Z.shiftr_div_pow2 x 6). lia. Qed.
Lemma shiftr_10 (x : Z) : Z.shiftr x 10 = x / 1024.
Proof. apply (Z.shiftr_div_pow2 x 10). lia. Qed.
Lemma shiftr_12 (x : Z) : Z.shiftr x 12 = x / 4096.
Proof. apply (Z.shiftr_div_pow2 x 12). lia. Qed.
Lemma shiftr_18 (x : Z) : Z.shiftr x 18 = x / 262144.
Proof. apply (Z.shiftr_div_pow2 x 18). lia. Qed.
Lemma shiftr_0 (x : Z) : Z.shiftr x 0 = x.
Proof. apply Z.shiftr_0_r. Qed.
Lemma shiftl_10 (x : Z) : Z.shiftl x 10 = x * 1024.
Proof. apply (Z.shiftl_mul_pow2 x 10). lia. Qed.

(** Destructs the integer comparisons of the goal, closing the branches
    that contradict the hypotheses. *)
Ltac zcompare :=
  repeat match goal with
    | |- context [?a <=? ?b] => destruct (Z.leb_spec a b); try lia
    | |- context [?a <? ?b] => destruct (Z.ltb_spec a b); try lia
    | |- context [?a =? ?b] => destruct (Z.eqb_spec a b); try lia
    end;
  cbn [andb orb negb].

(* ================================================================= *)
(** ** UTF-8: decoding what the encoder wrote *)

(** Unicode scalar values: code points that are not surrogates. *)
Definition scalar_value (cp : Z) : Prop :=
  0 <= cp < 0xD800 \/ 0xE000 <= cp < 0x110000.

Lemma utf8_continuation_value (cp shift : Z) :
  0 <= shift ->
  utf8_continuation cp shift = 128 + (cp / 2 ^ shift) mod 64.
Proof.
  intros Hs. unfold utf8_continuation.
  rewrite land_63, Z.shiftr_div_pow2 by lia.
  apply lor_high_bit. apply Z.mod_pos_bound. lia.
Qed.

(** A continuation byte inside the expected range extends the open
    sequence by six bits. *)
Lemma utf8_step_continuation (st : utf8_state) (y : Z) :
  u_bytes_needed st <> 0 ->
  0 <= y < 64 ->
  u_lower st <= 128 + y <= u_upper st ->
  utf8_step st (128 + y)
  = let cp := u_code_point st * 64 + y in
    if u_bytes_seen st + 1 =? u_bytes_needed st then (utf8_initial, [cp])
    else (mkUtf8 cp (u_bytes_seen st + 1) (u_bytes_needed st) 0x80 0xBF, []).
Proof.
  intros Hn Hy Hr. unfold utf8_step.
  destruct (Z.eqb_spec (u_bytes_needed st) 0); [contradiction|].
  destruct (Z.leb_spec (u_lower st) (128 + y)); [|lia].
  destruct (Z.leb_spec (128 + y) (u_upper st)); [|lia].
  cbn [andb negb]. rewrite land_63.
  rewrite lor_shiftl_small by (try lia; apply Z.mod_pos_bound; lia).
  replace ((128 + y) mod 64) with y
    by (apply Z.mod_unique with (q := 2); lia).
  reflexivity.
Qed.

Lemma utf8_lead_2 (q : Z) :
  2 <= q < 32 -> utf8_lead (q + 192) = (mkUtf8 q 0 1 0x80 0xBF, []).
Proof.
  intros Hq. unfold utf8_lead. rewrite land_31.
  replace ((q + 192) mod 32) with q by (apply Z.mod_unique with (q := 6); lia).
  zcompare. reflexivity.
Qed.

Lemma utf8_lead_3 (q : Z) :
  0 <= q < 16 ->
  utf8_lead (q + 224)
  = (mkUtf8 q 0 2 (if q =? 0 then 0xA0 else 0x80) (if q =? 13 then 0x9F else 0xBF), []).
Proof.
  intros Hq. unfold utf8_lead. rewrite land_15.
  replace ((q + 224) mod 16) with q by (apply Z.mod_unique with (q := 14); lia).
  zcompare; reflexivity.
Qed.

Lemma utf8_lead_4 (q : Z) :
  0 <= q < 5 ->
  utf8_lead (q + 240)
  = (mkUtf8 q 0 3 (if q =? 0 then 0x90 else 0x80) (if q =? 4 then 0x8F else 0xBF), []).
Proof.
  intros Hq. unfold utf8_lead. rewrite land_7.
  replace ((q + 240) mod 8) with q by (apply Z.mod_unique with (q := 30); lia).
  zcompare; reflexivity.
Qed.

Lemma utf8_step_more (cp seen needed lo hi y : Z) :
  needed <> 0 -> 0 <= y < 64 -> lo <= 128 + y <= hi -> seen + 1 <> needed ->
  utf8_step (mkUtf8 cp seen needed lo hi) (128 + y)
  = (mkUtf8 (cp * 64 + y) (seen + 1) needed 0x80 0xBF, []).
Proof.
  intros Hn Hy Hr Hs. rewrite utf8_step_continuation by assumption.
  cbn [u_code_point u_bytes_seen u_bytes_needed]. cbv zeta.
  destruct (Z.eqb_spec (seen + 1) needed); [contradiction | reflexivity].
Qed.

Lemma utf8_step_last (cp seen needed lo hi y : Z) :
  needed <> 0 -> 0 <= y < 64 -> lo <= 128 + y <= hi -> seen + 1 = needed ->
  utf8_step (mkUtf8 cp seen needed lo hi) (128 + y)
  = (utf8_initial, [cp * 64 + y]).
Proof.
  intros Hn Hy Hr Hs. rewrite utf8_step_continuation by assumption.
  cbn [u_code_point u_bytes_seen u_bytes_needed]. cbv zeta.
  destruct (Z.eqb_spec (seen + 1) needed); [reflexivity | contradiction].
Qed.

Lemma utf8_step_initial (b : Z) : utf8_step utf8_initial b = utf8_lead b.
Proof. reflexivity. Qed.

Lemma utf8_run_cons (st : utf8_state) (b : Z) (bs : bytes) :
  utf8_run st (b :: bs)
  = snd (utf8_step st b) ++ utf8_run (fst (utf8_step st b)) bs.
Proof. cbn [utf8_run]. destruct (utf8_step st b). reflexivity. Qed.

(** The decoder, started in its initial state on the encoding of a
    scalar value, emits that value and is back in its initial state. *)
Lemma utf8_run_encoded_scalar (cp : Z) (rest : bytes) :
  scalar_value cp ->
  utf8_run utf8_initial (utf8_encode_scalar cp ++ rest)
  = cp :: utf8_run utf8_initial rest.
Proof.
  intros Hcp. unfold scalar_value in Hcp. unfold utf8_encode_scalar.
  destruct (Z.leb_spec cp 0x7F) as [H1|H1].
  { (* one byte *)
    cbn [app]. rewrite utf8_run_cons, utf8_step_initial. unfold utf8_lead.
    destruct (Z.leb_spec cp 0x7F); [reflexivity | lia]. }
  pose proof (Z.div_mod cp 64 ltac:(lia)) as Hdm.
  pose proof (Z.mod_pos_bound cp 64 ltac:(lia)) as Hm.
  pose proof (Z.div_mod (cp / 64) 64 ltac:(lia)) as Hdm2.
  pose proof (Z.mod_pos_bound (cp / 64) 64 ltac:(lia)) as Hm2.
  pose proof (Z.div_mod (cp / 4096) 64 ltac:(lia)) as Hdm3.
  pose proof (Z.mod_pos_bound (cp / 4096) 64 ltac:(lia)) as Hm3.
  assert (Hq : cp / 4096 = cp / 64 / 64) by (rewrite Z.div_div by lia; reflexivity).
  assert (Hq' : cp / 262144 = cp / 4096 / 64) by (rewrite Z.div_div by lia; reflexivity).
  destruct (Z.leb_spec cp 0x7FF) as [H2|H2].
  { (* two bytes *)
    rewrite shiftr_6, utf8_continuation_value by lia.
    change (2 ^ 0) with 1. rewrite Z.div_1_r.
    cbn [app]. rewrite utf8_run_cons, utf8_step_initial, utf8_lead_2 by lia.
    cbn [fst snd app].
    rewrite utf8_run_cons, utf8_step_last by lia.
    cbn [fst snd app]. f_equal. lia. }
  destruct (Z.leb_spec cp 0xFFFF) as [H3|H3].
  { (* three bytes *)
    rewrite shiftr_12, !utf8_continuation_value by lia.
    change (2 ^ 0) with 1. change (2 ^ 6) with 64. rewrite Z.div_1_r.
    cbn [app]. rewrite utf8_run_cons, utf8_step_initial, utf8_lead_3 by lia.
    cbn [fst snd app].
    rewrite utf8_run_cons, utf8_step_more;
      [ | lia | lia
        | destruct (Z.eqb_spec (cp / 4096) 0), (Z.eqb_spec (cp / 4096) 13); lia
        | lia ].
    cbn [fst snd app].
    rewrite utf8_run_cons, utf8_step_last by lia.
    cbn [fst snd app]. f_equal. lia. }
  { (* four bytes *)
    rewrite shiftr_18, !utf8_continuation_value by lia.
    change (2 ^ 0) with 1. change (2 ^ 6) with 64. change (2 ^ 12) with 4096.
    rewrite Z.div_1_r.
    cbn [app]. rewrite utf8_run_cons, utf8_step_initial, utf8_lead_4 by lia.
    cbn [fst snd app].
    rewrite utf8_run_cons, utf8_step_more;
      [ | lia | lia
        | destruct (Z.eqb_spec (cp / 262144) 0), (Z.eqb_spec (cp / 262144) 4); lia
        | lia ].
    cbn [fst snd app].
    rewrite utf8_run_cons, utf8_step_more by lia.
    cbn [fst snd app].
    rewrite utf8_run_cons, utf8_step_last by lia.
    cbn [fst snd app]. f_equal. lia. }
Qed.

Lemma utf8_run_encoded (cps : list Z) :
  Forall scalar_value cps ->
  utf8_run utf8_initial (flat_map utf8_encode_scalar cps) = cps.
Proof.
  induction 1 as [|cp cps Hcp _ IH]; [reflexivity|].
  cbn [flat_map]. rewrite utf8_run_encoded_scalar by exact Hcp.
  rewrite IH. reflexivity.
Qed.

(* ================================================================= *)
(** ** Strings through [TextEncoder] and [TextDecoder] *)

(** Every code unit is a 16-bit value. *)
Definition jsstring_ok (s : jsstring) : Prop := Forall (fun c => 0 <= c < 65536) s.

(** No surrogate stands without its partner. *)
Fixpoint well_formed (s : jsstring) : bool :=
  match s with
  | [] => true
  | c :: rest =>
      if is_high_surrogate c then
        match rest with
        | d :: rest' => is_low_surrogate d && well_formed rest'
        | [] => false
        end
      else negb (is_low_surrogate c) && well_formed rest
  end.

Lemma string_induction (P : jsstring -> Prop) :
  P [] ->
  (forall c, P [c]) ->
  (forall c d rest, P rest -> P (d :: rest) -> P (c :: d :: rest)) ->
  forall s, P s.
Proof.
  intros H0 H1 H2.
  assert (G : forall s, P s /\ forall c, P (c :: s)).
  { induction s as [|d s [IH1 IH2]]; split; auto. }
  intros s. apply G.
Qed.

Lemma to_scalars_cons (c : Z) (rest : jsstring) :
  to_scalars (c :: rest)
  = if is_high_surrogate c then
      match rest with
      | d :: rest' =>
          if is_low_surrogate d
          then (0x10000 + Z.shiftl (c - 0xD800) 10 + (d - 0xDC00)) :: to_scalars rest'
          else REPLACEMENT :: to_scalars rest
      | [] => [REPLACEMENT]
      end
    else if is_low_surrogate c then REPLACEMENT :: to_scalars rest
    else c :: to_scalars rest.
Proof. reflexivity. Qed.

Lemma high_surrogate_range (c : Z) :
  is_high_surrogate c = true <-> 0xD800 <= c <= 0xDBFF.
Proof. unfold is_high_surrogate. rewrite andb_true_iff, !Z.leb_le. reflexivity. Qed.

Lemma low_surrogate_range (c : Z) :
  is_low_surrogate c = true <-> 0xDC00 <= c <= 0xDFFF.
Proof. unfold is_low_surrogate. rewrite andb_true_iff, !Z.leb_le. reflexivity. Qed.

Lemma not_surrogate_range (c : Z) :
  is_high_surrogate c = false -> is_low_surrogate c = false ->
  c < 0xD800 \/ 0xDFFF < c.
Proof.
  unfold is_high_surrogate, is_low_surrogate. rewrite !andb_false_iff, !Z.leb_gt. lia.
Qed.

Lemma to_scalars_valid (s : jsstring) :
  jsstring_ok s -> Forall scalar_value (to_scalars s).
Proof.
  unfold jsstring_ok, scalar_value.
  induction s as [|c|c d rest IH1 IH2] using string_induction; intros Hok.
  - constructor.
  - inversion Hok as [|? ? Hc _]; subst. rewrite to_scalars_cons.
    destruct (is_high_surrogate c) eqn:Ehigh;
      [constructor; [unfold REPLACEMENT; lia | constructor]|].
    destruct (is_low_surrogate c) eqn:Elow;
      [constructor; [unfold REPLACEMENT; lia | constructor]|].
    pose proof (not_surrogate_range c Ehigh Elow).
    constructor; [lia | constructor].
  - inversion Hok as [|? ? Hc Hok']; subst.
    inversion Hok' as [|? ? Hd Hok'']; subst.
    specialize (IH1 Hok''). specialize (IH2 Hok').
    rewrite to_scalars_cons.
    destruct (is_high_surrogate c) eqn:Ehigh.
    + apply high_surrogate_range in Ehigh.
      destruct (is_low_surrogate d) eqn:Elow.
      * apply low_surrogate_range in Elow.
        constructor; [|exact IH1]. rewrite shiftl_10. lia.
      * constructor; [unfold REPLACEMENT; lia | exact IH2].
    + destruct (is_low_surrogate c) eqn:Elow.
      * constructor; [unfold REPLACEMENT; lia | exact IH2].
      * pose proof (not_surrogate_range c Ehigh Elow).
        constructor; [lia | exact IH2].
Qed.

Lemma from_to_scalars (s : jsstring) :
  jsstring_ok s -> well_formed s = true -> from_scalars (to_scalars s) = s.
Proof.
  unfold jsstring_ok, from_scalars.
  induction s as [|c|c d rest IH1 IH2] using string_induction; intros Hok Hwf.
  - reflexivity.
  - inversion Hok as [|? ? Hc _]; subst. rewrite to_scalars_cons.
    cbn [well_formed] in Hwf.
    destruct (is_high_surrogate c); [discriminate|].
    destruct (is_low_surrogate c); [discriminate|].
    cbn [to_scalars flat_map app]. unfold from_scalar.
    destruct (Z.ltb_spec c 0x10000); [reflexivity | lia].
  - inversion Hok as [|? ? Hc Hok']; subst.
    inversion Hok' as [|? ? Hd Hok'']; subst.
    rewrite to_scalars_cons.
    change (well_formed (c :: d :: rest))
      with (if is_high_surrogate c
            then is_low_surrogate d && well_formed rest
            else negb (is_low_surrogate c) && well_formed (d :: rest)) in Hwf.
    destruct (is_high_surrogate c) eqn:Ehigh.
    + apply andb_true_iff in Hwf as [Hlow Hwf]. rewrite Hlow.
      cbn [flat_map]. rewrite (IH1 Hok'' Hwf).
      apply high_surrogate_range in Ehigh. apply low_surrogate_range in Hlow.
      unfold from_scalar. rewrite shiftl_10, shiftr_10, land_1023.
      destruct (Z.ltb_spec (0x10000 + (c - 0xD800) * 1024 + (d - 0xDC00)) 0x10000); [lia|].
      cbn [app]. f_equal; [|f_equal].
      * assert ((65536 + (c - 55296) * 1024 + (d - 56320) - 65536) / 1024 = c - 55296).
        { symmetry. apply Z.div_unique with (r := d - 56320); lia. }
        lia.
      * assert ((65536 + (c - 55296) * 1024 + (d - 56320) - 65536) mod 1024 = d - 56320).
        { symmetry. apply Z.mod_unique with (q := c - 55296); lia. }
        lia.
    + apply andb_true_iff in Hwf as [Hlow Hwf].
      apply negb_true_iff in Hlow. rewrite Hlow.
      cbn [flat_map]. rewrite (IH2 Hok' Hwf).
      unfold from_scalar. destruct (Z.ltb_spec c 0x10000); [reflexivity | lia].
Qed.

(** [TextDecoder.decode] of [TextEncoder.encode]: the scalar values of
    the string, without a leading byte order mark. *)
Lemma decode_encode (s : jsstring) :
  jsstring_ok s ->
  TextDecoder_decode (TextEncoder_encode s) = from_scalars (strip_BOM (to_scalars s)).
Proof.
  intros Hok. unfold TextDecoder_decode, TextEncoder_encode.
  rewrite utf8_run_encoded by (apply to_scalars_valid, Hok). reflexivity.
Qed.

Lemma to_scalars_head (s : jsstring) :
  hd 0 s <> BOM -> strip_BOM (to_scalars s) = to_scalars s.
Proof.
  destruct s as [|c rest]; [reflexivity|]. cbn [hd]. intros Hne.
  rewrite to_scalars_cons. unfold BOM, REPLACEMENT in *.
  destruct (is_high_surrogate c) eqn:Ehigh.
  - apply high_surrogate_range in Ehigh.
    destruct rest as [|d rest']; [reflexivity|].
    destruct (is_low_surrogate d) eqn:Elow; [|reflexivity].
    apply low_surrogate_range in Elow.
    cbn [strip_BOM]. unfold BOM. rewrite shiftl_10.
    destruct (Z.eqb_spec (0x10000 + (c - 0xD800) * 1024 + (d - 0xDC00)) 0xFEFF);
      [lia | reflexivity].
  - destruct (is_low_surrogate c); [reflexivity|].
    cbn [strip_BOM]. unfold BOM.
    destruct (Z.eqb_spec c 0xFEFF); [contradiction | reflexivity].
Qed.

(** The round trip through the two codecs, for a well-formed string that
    does not start with U+FEFF. *)
Lemma decode_encode_id (s : jsstring) :
  jsstring_ok s -> well_formed s = true -> hd 0 s <> BOM ->
  TextDecoder_decode (TextEncoder_encode s) = s.
Proof.
  intros Hok Hwf Hbom.
  rewrite decode_encode, to_scalars_head by assumption.
  apply from_to_scalars; assumption.
Qed.

Lemma utf8_encode_scalar_ok (cp : Z) :
  scalar_value cp -> bytes_ok (utf8_encode_scalar cp).
Proof.
  unfold scalar_value, utf8_encode_scalar, bytes_ok, byte_ok. intros Hcp.
  pose proof (Z.div_mod cp 64 ltac:(lia)) as Hdm.
  pose proof (Z.mod_pos_bound cp 64 ltac:(lia)) as Hm.
  pose proof (Z.mod_pos_bound (cp / 64) 64 ltac:(lia)) as Hm2.
  pose proof (Z.mod_pos_bound (cp / 4096) 64 ltac:(lia)) as Hm3.
  assert (0 <= cp / 64) by (apply Z.div_pos; lia).
  assert (0 <= cp / 4096) by (apply Z.div_pos; lia).
  assert (0 <= cp / 262144) by (apply Z.div_pos; lia).
  assert (cp / 64 < 32 \/ 0x7FF < cp) by (destruct (Z.le_gt_cases cp 0x7FF); [left; apply Z.div_lt_upper_bound; lia | right; lia]).
  assert (cp / 4096 < 16 \/ 0xFFFF < cp) by (destruct (Z.le_gt_cases cp 0xFFFF); [left; apply Z.div_lt_upper_bound; lia | right; lia]).
  assert (cp / 262144 < 5) by (apply Z.div_lt_upper_bound; lia).
  destruct (Z.leb_spec cp 0x7F); [repeat constructor; lia|].
  destruct (Z.leb_spec cp 0x7FF).
  { rewrite shiftr_6, utf8_continuation_value by lia.
    change (2 ^ 0) with 1. rewrite Z.div_1_r. repeat constructor; lia. }
  destruct (Z.leb_spec cp 0xFFFF).
  { rewrite shiftr_12, !utf8_continuation_value by lia.
    change (2 ^ 0) with 1. change (2 ^ 6) with 64. rewrite Z.div_1_r.
    repeat constructor; lia. }
  rewrite shiftr_18, !utf8_continuation_value by lia.
  change (2 ^ 0) with 1. change (2 ^ 6) with 64. change (2 ^ 12) with 4096.
  rewrite Z.div_1_r. repeat constructor; lia.
Qed.

Lemma TextEncoder_encode_ok (s : jsstring) :
  jsstring_ok s -> bytes_ok (TextEncoder_encode s).
Proof.
  intros Hok. unfold TextEncoder_encode.
  pose proof (to_scalars_valid s Hok) as Hv.
  induction Hv as [|cp cps Hcp _ IH]; [constructor|].
  cbn [flat_map]. apply Forall_app. split; [apply utf8_encode_scalar_ok, Hcp | exact IH].
Qed.

(* ================================================================= *)
(** ** Base64: [atob] undoes [btoa] *)

(** The 6-bit values that [base64_encode] writes, without the padding. *)
Fixpoint sextets (bs : list Z) : list Z :=
  match bs with
  | a :: b :: c :: rest =>
      a / 4 :: (a mod 4) * 16 + b / 16 :: (b mod 16) * 4 + c / 64 :: c mod 64
        :: sextets rest
  | [a; b] => [a / 4; (a mod 4) * 16 + b / 16; (b mod 16) * 4]
  | [a] => [a / 4; (a mod 4) * 16]
  | [] => []
  end.

Definition padding (bs : list Z) : jsstring :=
  match (List.length bs mod 3)%nat with
  | 1%nat => [61; 61]
  | 2%nat => [61]
  | _ => []
  end.

Lemma triple_induction (P : list Z -> Prop) :
  P [] ->
  (forall a, P [a]) ->
  (forall a b, P [a; b]) ->
  (forall a b c rest, P rest -> P (a :: b :: c :: rest)) ->
  forall l, P l.
Proof.
  intros H0 H1 H2 H3.
  assert (G : forall l, P l /\ (forall a, P (a :: l)) /\ (forall a b, P (a :: b :: l))).
  { induction l as [|c l (IHa & IHb & IHc)]; repeat split; auto. }
  intros l. apply G.
Qed.

Definition sextet_ok (v : Z) : Prop := 0 <= v < 64.

Ltac euclid := Z.to_euclidean_division_equations; lia.

Lemma sextets_ok (bs : list Z) : bytes_ok bs -> Forall sextet_ok (sextets bs).
Proof.
  unfold bytes_ok, byte_ok, sextet_ok.
  induction bs as [|a|a b|a b c rest IH] using triple_induction; intros Hok.
  - constructor.
  - inversion Hok; subst. cbn [sextets]. repeat constructor; euclid.
  - inversion Hok as [|? ? Ha Hok']; subst. inversion Hok'; subst.
    cbn [sextets]. repeat constructor; euclid.
  - inversion Hok as [|? ? Ha Hok']; subst.
    inversion Hok' as [|? ? Hb Hok'']; subst.
    inversion Hok'' as [|? ? Hc Hrest]; subst.
    cbn [sextets]. repeat (constructor; [euclid|]). apply IH, Hrest.
Qed.

Lemma padding_step (a b c : Z) (rest : list Z) :
  padding (a :: b :: c :: rest) = padding rest.
Proof.
  unfold padding. cbn [List.length].
  replace (S (S (S (List.length rest))) mod 3)%nat with (List.length rest mod 3)%nat;
    [reflexivity|].
  change (S (S (S (List.length rest)))) with (3 + List.length rest)%nat.
  rewrite Nat.Div0.add_mod, Nat.Div0.mod_same, Nat.add_0_l, Nat.Div0.mod_mod.
  reflexivity.
Qed.

(** The text that [base64_encode] writes. *)
Lemma base64_encode_sextets (bs : list Z) :
  bytes_ok bs ->
  base64_encode bs = map base64_char (sextets bs) ++ padding bs.
Proof.
  unfold bytes_ok, byte_ok.
  induction bs as [|a|a b|a b c rest IH] using triple_induction; intros Hok.
  - reflexivity.
  - inversion Hok; subst. change (padding [a]) with [61; 61].
    cbn [base64_encode sextets map app].
    rewrite shiftr_2, land_3.
    rewrite (Z.shiftl_mul_pow2 (a mod 4) 4) by lia. reflexivity.
  - inversion Hok as [|? ? Ha Hok']; subst. inversion Hok' as [|? ? Hb _]; subst.
    change (padding [a; b]) with [61]. cbn [base64_encode sextets map app].
    rewrite shiftr_2, shiftr_4, land_3, land_15.
    rewrite lor_shiftl_small by euclid.
    rewrite (Z.shiftl_mul_pow2 (b mod 16) 2) by lia. reflexivity.
  - inversion Hok as [|? ? Ha Hok']; subst.
    inversion Hok' as [|? ? Hb Hok'']; subst.
    inversion Hok'' as [|? ? Hc Hrest]; subst.
    cbn [base64_encode sextets map app]. rewrite padding_step, <- (IH Hrest).
    rewrite shiftr_2, shiftr_4, shiftr_6, land_3, land_15, land_63.
    rewrite !lor_shiftl_small by euclid. reflexivity.
Qed.

Lemma base64_decode_sextets (bs : list Z) :
  bytes_ok bs -> base64_decode (sextets bs) = bs.
Proof.
  unfold bytes_ok, byte_ok.
  induction bs as [|a|a b|a b c rest IH] using triple_induction; intros Hok.
  - reflexivity.
  - inversion Hok; subst. cbn [sextets base64_decode].
    rewrite shiftr_4. rewrite lor_shiftl_small by euclid. f_equal. euclid.
  - inversion Hok as [|? ? Ha Hok']; subst. inversion Hok' as [|? ? Hb _]; subst.
    cbn [sextets base64_decode].
    rewrite shiftr_4, shiftr_2, land_15. rewrite !lor_shiftl_small by euclid.
    f_equal; [euclid | f_equal; euclid].
  - inversion Hok as [|? ? Ha Hok']; subst.
    inversion Hok' as [|? ? Hb Hok'']; subst.
    inversion Hok'' as [|? ? Hc Hrest]; subst.
    cbn [sextets base64_decode]. rewrite (IH Hrest).
    rewrite shiftr_4, shiftr_2, land_15, land_3.
    rewrite !lor_shiftl_small by euclid.
    f_equal; [euclid | f_equal; [euclid | f_equal; euclid]].
Qed.

Lemma base64_val_char (v : Z) : 0 <= v < 64 -> base64_val (base64_char v) = Some v.
Proof.
  intros H.
  assert (E : (match base64_val (base64_char v) with
               | Some x => x =? v
               | None => false
               end) = true).
  { apply (forall_upto
             (fun v => match base64_val (base64_char v) with
                       | Some x => x =? v
                       | None => false
                       end) 64); [vm_compute; reflexivity | simpl; lia]. }
  destruct (base64_val (base64_char v)); [|discriminate].
  apply Z.eqb_eq in E. congruence.
Qed.

Lemma base64_char_plain (v : Z) :
  0 <= v < 64 ->
  is_ascii_whitespace (base64_char v) = false
  /\ (base64_char v =? 61) = false
  /\ (base64_char v <=? 255) = true.
Proof.
  intros H.
  assert (E : (negb (is_ascii_whitespace (base64_char v))
               && negb (base64_char v =? 61) && (base64_char v <=? 255)) = true).
  { apply (forall_upto
             (fun v => negb (is_ascii_whitespace (base64_char v))
                       && negb (base64_char v =? 61) && (base64_char v <=? 255)) 64);
      [vm_compute; reflexivity | simpl; lia]. }
  apply andb_true_iff in E as [E E3]. apply andb_true_iff in E as [E1 E2].
  apply negb_true_iff in E1, E2. auto.
Qed.

Lemma base64_vals_chars (vs : list Z) :
  Forall sextet_ok vs -> base64_vals (map base64_char vs) = Some vs.
Proof.
  induction 1 as [|v vs Hv _ IH]; [reflexivity|].
  cbn [map base64_vals]. rewrite (base64_val_char v Hv), IH. reflexivity.
Qed.

Lemma padding_cases (bs : list Z) :
  padding bs = [] \/ padding bs = [61] \/ padding bs = [61; 61].
Proof.
  unfold padding. destruct (List.length bs mod 3)%nat as [|[|[|n]]]; auto.
Qed.

Lemma filter_plain (vs : list Z) (pad : jsstring) :
  Forall sextet_ok vs -> Forall (fun c => c = 61) pad ->
  filter (fun c => negb (is_ascii_whitespace c)) (map base64_char vs ++ pad)
  = map base64_char vs ++ pad.
Proof.
  intros Hvs Hpad. apply forallb_filter_id.
  rewrite forallb_app. apply andb_true_iff. split; apply forallb_forall.
  - intros c Hc. apply in_map_iff in Hc as (v & <- & Hv).
    rewrite Forall_forall in Hvs.
    destruct (base64_char_plain v (Hvs v Hv)) as [E _]. rewrite E. reflexivity.
  - intros c Hc. rewrite Forall_forall in Hpad. rewrite (Hpad c Hc). reflexivity.
Qed.

(** The length of the encoded text is a multiple of four, and the number
    of characters before the padding is never one more than such a
    multiple. *)
Lemma encoded_lengths (bs : list Z) :
  (List.length (sextets bs ++ padding bs) mod 4 = 0)%nat
  /\ (List.length (sextets bs) mod 4 <> 1)%nat.
Proof.
  induction bs as [|a|a b|a b c rest [IH1 IH2]] using triple_induction.
  - split; [reflexivity | discriminate].
  - split; [reflexivity | discriminate].
  - split; [reflexivity | discriminate].
  - rewrite padding_step. cbn [sextets app List.length].
    rewrite length_app in IH1.
    assert (E : forall n, (S (S (S (S n))) mod 4 = n mod 4)%nat).
    { intros n. change (S (S (S (S n)))) with (4 + n)%nat.
      rewrite Nat.Div0.add_mod, Nat.Div0.mod_same, Nat.add_0_l, Nat.Div0.mod_mod.
      reflexivity. }
    rewrite length_app, !E. split; assumption.
Qed.

Lemma strip_padding_encoded (vs : list Z) (pad : jsstring) :
  Forall sextet_ok vs ->
  pad = [] \/ pad = [61] \/ pad = [61; 61] ->
  (List.length (map base64_char vs ++ pad) mod 4 = 0)%nat ->
  strip_padding (map base64_char vs ++ pad) = map base64_char vs.
Proof.
  intros Hvs Hpad Hlen. unfold strip_padding. rewrite Hlen. cbn [Nat.eqb].
  rewrite rev_app_distr.
  assert (Hlast : forall l, match rev (map base64_char vs) with
                            | 61 :: 61 :: r => rev r
                            | 61 :: r => rev r
                            | _ => l
                            end = l).
  { intros l. rewrite <- map_rev.
    assert (Hr : Forall sextet_ok (rev vs)) by (apply Forall_rev, Hvs).
    destruct (rev vs) as [|v r]; [reflexivity|]. cbn [map].
    inversion Hr as [|? ? Hv _]; subst.
    destruct (base64_char_plain v Hv) as (_ & E & _).
    destruct (base64_char v) as [|p|p]; try reflexivity.
    repeat (destruct p as [p|p|]; try reflexivity; try discriminate). }
  destruct Hpad as [-> | [-> | ->]]; cbn [rev app].
  - rewrite app_nil_r. apply Hlast.
  - assert (Hr : Forall sextet_ok (rev vs)) by (apply Forall_rev, Hvs).
    rewrite <- map_rev. destruct (rev vs) as [|v r] eqn:Erev.
    + cbn [map rev]. apply (f_equal (@rev Z)) in Erev. rewrite rev_involutive in Erev.
      subst vs. reflexivity.
    + cbn [map]. inversion Hr as [|? ? Hv _]; subst.
      destruct (base64_char_plain v Hv) as (_ & E & _).
      replace (map base64_char vs) with (rev (base64_char v :: map base64_char r)).
      * destruct (base64_char v) as [|p|p]; try reflexivity.
        repeat (destruct p as [p|p|]; try reflexivity; try discriminate).
      * change (base64_char v :: map base64_char r) with (map base64_char (v :: r)).
        rewrite <- Erev, map_rev, rev_involutive. reflexivity.
  - rewrite <- map_rev, map_rev, rev_involutive. reflexivity.
Qed.

(** [atob(btoa(s))] is [s] for every string of bytes. *)
Lemma atob_btoa (bs : list Z) :
  bytes_ok bs -> (text <- btoa bs ;; atob text) = Normal bs.
Proof.
  intros Hok. unfold btoa.
  replace (forallb (fun c => c <=? 255) bs) with true.
  2:{ symmetry. apply forallb_forall. intros c Hc.
      unfold bytes_ok, byte_ok in Hok. rewrite Forall_forall in Hok.
      apply Z.leb_le. specialize (Hok c Hc). lia. }
  cbn [bind]. rewrite (base64_encode_sextets bs Hok).
  pose proof (sextets_ok bs Hok) as Hvs.
  pose proof (padding_cases bs) as Hpad.
  destruct (encoded_lengths bs) as [Hlen Hcore].
  unfold atob. rewrite filter_plain; [|exact Hvs|].
  2:{ destruct Hpad as [-> | [-> | ->]]; repeat constructor. }
  rewrite strip_padding_encoded; [|exact Hvs|exact Hpad|].
  2:{ rewrite length_app, length_map, <- length_app. exact Hlen. }
  rewrite length_map.
  destruct (Nat.eqb_spec (List.length (sextets bs) mod 4) 1); [contradiction|].
  rewrite (base64_vals_chars _ Hvs), (base64_decode_sextets bs Hok). reflexivity.
Qed.

Lemma map_to_uint8_bytes (bs : bytes) :
  bytes_ok bs -> map (fun c => to_uint8 (Some c)) bs = bs.
Proof.
  unfold bytes_ok, byte_ok.
  induction 1 as [|b bs Hb _ IH]; [reflexivity|].
  cbn [map]. rewrite IH. unfold to_uint8. rewrite Z.mod_small by lia. reflexivity.
Qed.

(** [base64ToArrayBuffer] undoes [arrayBufferToBase64]. *)
Lemma base64_roundtrip (buffer : bytes) :
  bytes_ok buffer ->
  exists text,
    arrayBufferToBase64 buffer = Normal text
    /\ base64ToArrayBuffer text = Normal buffer.
Proof.
  intros Hok. pose proof (atob_btoa buffer Hok) as H.
  unfold arrayBufferToBase64, base64ToArrayBuffer.
  destruct (btoa buffer) as [text|e]; [|discriminate].
  exists text. split; [reflexivity|]. cbn [bind] in H. rewrite H. cbn [bind].
  rewrite (map_to_uint8_bytes buffer Hok). reflexivity.
Qed.

(* ================================================================= *)
(** ** An instance of the cipher interface

    The theorems on the store hold for every [AEAD]; this instance shows
    that the interface has one, and serves in the examples.  It appends a
    16-byte tag, the head of HMAC-SHA-256 of the iv and the text under
    the key, and rejects a text whose tag does not match.  It is not
    AES-GCM and hides nothing. *)

Module TagOnly.
Definition tag (key iv text : bytes) : bytes :=
  firstn 16 (HMAC_SHA256.mac key (iv ++ text)).

Definition seal (key iv plaintext : bytes) : bytes :=
  plaintext ++ tag key iv plaintext.

Definition open (key iv sealed : bytes) : option bytes :=
  let n := (List.length sealed - 16)%nat in
  let text := firstn n sealed in
  if (16 <=? List.length sealed)%nat && list_eqb (skipn n sealed) (tag key iv text)
  then Some text else None.

Lemma tag_length (key iv text : bytes) : List.length (tag key iv text) = 16%nat.
Proof.
  unfold tag, HMAC_SHA256.mac, HMAC_SHA256.mac_with_block.
  rewrite length_firstn, SHA256_digest_length. reflexivity.
Qed.

Lemma seal_ok (key iv plaintext : bytes) :
  bytes_ok plaintext -> bytes_ok (seal key iv plaintext).
Proof.
  intros H. unfold seal, bytes_ok. apply Forall_app. split; [exact H|].
  unfold tag, HMAC_SHA256.mac, HMAC_SHA256.mac_with_block.
  apply Forall_take, SHA256_digest_ok.
Qed.

Lemma open_seal (key iv plaintext : bytes) :
  bytes_ok plaintext -> open key iv (seal key iv plaintext) = Some plaintext.
Proof.
  intros _. unfold open, seal.
  rewrite length_app, tag_length, Nat.add_sub.
  rewrite firstn_app, Nat.sub_diag, firstn_all. cbn [firstn]. rewrite app_nil_r.
  rewrite skipn_app, Nat.sub_diag, skipn_all. cbn [skipn app].
  rewrite list_eqb_refl, andb_true_r.
  replace (16 <=? List.length plaintext + 16)%nat with true; [reflexivity|].
  symmetry. apply Nat.leb_le. lia.
Qed.

Definition cipher : AEAD := mkAEAD seal open seal_ok open_seal.
End TagOnly.

(* ================================================================= *)
(** ** Claim C1: decrypting what [encrypt] produced *)

Lemma getRandomBytes_ok (rng : nat -> Z) (pos n : nat) :
  bytes_ok (getRandomBytes rng pos n).
Proof.
  unfold getRandomBytes, bytes_ok. apply Forall_forall.
  intros b Hb. apply in_map_iff in Hb as (i & <- & _).
  unfold byte_ok. apply Z.mod_pos_bound. lia.
Qed.

Lemma getRandomBytes_length (rng : nat -> Z) (pos n : nat) :
  List.length (getRandomBytes rng pos n) = n.
Proof. unfold getRandomBytes. rewrite length_map, length_seq. reflexivity. Qed.

(** What [decrypt] returns on the secret that [encrypt] produced, under
    the same password: the plaintext as [TextDecoder] reads back what
    [TextEncoder] wrote. *)
Lemma encrypt_then_decrypt (cipher : AEAD) (rng : nat -> Z) (plaintext password : jsstring) :
  jsstring_ok plaintext ->
  exists secret,
    encrypt cipher rng plaintext password = Normal secret
    /\ base64ToArrayBuffer (salt secret) = Normal (getRandomBytes rng 0 32)
    /\ base64ToArrayBuffer (iv secret) = Normal (getRandomBytes rng 32 12)
    /\ base64ToArrayBuffer (encrypted secret)
       = Normal (aead_encrypt cipher (deriveKey password (getRandomBytes rng 0 32))
                              (getRandomBytes rng 32 12) (TextEncoder_encode plaintext))
    /\ decrypt cipher (encrypted secret) (salt secret) (iv secret) password
       = Normal (from_scalars (strip_BOM (to_scalars plaintext))).
Proof.
  intros Hok.
  pose proof (TextEncoder_encode_ok plaintext Hok) as Hbuf.
  set (saltb := getRandomBytes rng 0 32).
  set (ivb := getRandomBytes rng 32 12).
  set (key := deriveKey password saltb).
  set (ct := aead_encrypt cipher key ivb (TextEncoder_encode plaintext)).
  destruct (base64_roundtrip ct) as (e & He1 & He2).
  { apply aead_encrypt_ok, Hbuf. }
  destruct (base64_roundtrip saltb) as (s & Hs1 & Hs2).
  { apply getRandomBytes_ok. }
  destruct (base64_roundtrip ivb) as (i & Hi1 & Hi2).
  { apply getRandomBytes_ok. }
  exists (mkSecret e s i).
  assert (Henc : encrypt cipher rng plaintext password = Normal (mkSecret e s i)).
  { unfold encrypt. fold saltb ivb. cbv zeta. fold key. fold ct.
    rewrite He1, Hs1, Hi1. reflexivity. }
  split; [exact Henc|]. cbn [salt iv encrypted].
  split; [exact Hs2|]. split; [exact Hi2|]. split; [exact He2|].
  unfold decrypt. rewrite Hs2, Hi2, He2. cbn [bind]. fold key.
  subst ct. rewrite aead_correct by exact Hbuf. cbn [try_catch].
  f_equal. apply decode_encode, Hok.
Qed.

(** C1, as stated, fails on two kinds of plaintext.  A plaintext that
    starts with U+FEFF comes back without it ([new TextDecoder()] removes
    a leading byte order mark), and a surrogate without its partner comes
    back as U+FFFD ([TextEncoder] replaces it); this for every cipher,
    entropy stream and password. *)
Lemma roundtrip_loses_BOM_and_lone_surrogates :
  (forall cipher rng password,
     exists secret,
       encrypt cipher rng [0xFEFF; 0x7B; 0x7D] password = Normal secret
       /\ decrypt cipher (encrypted secret) (salt secret) (iv secret) password
          = Normal [0x7B; 0x7D])
  /\ (forall cipher rng password,
        exists secret,
          encrypt cipher rng [0x61; 0xD800] password = Normal secret
          /\ decrypt cipher (encrypted secret) (salt secret) (iv secret) password
             = Normal [0x61; 0xFFFD]).
Proof.
  split; intros cipher rng password.
  - destruct (encrypt_then_decrypt cipher rng [0xFEFF; 0x7B; 0x7D] password)
      as (secret & H1 & _ & _ & _ & H2).
    { repeat constructor; lia. }
    exists secret. split; [exact H1 | exact H2].
  - destruct (encrypt_then_decrypt cipher rng [0x61; 0xD800] password)
      as (secret & H1 & _ & _ & _ & H2).
    { repeat constructor; lia. }
    exists secret. split; [exact H1 | exact H2].
Qed.

(** C1 (amended): for every cipher that meets the interface, every
    entropy stream, every password and every plaintext [p] of 16-bit
    code units, [encrypt] returns a secret whose salt and iv are the
    Base64 of 32 and 12 random bytes, and [decrypt] of that secret under
    the same password returns [p] with every unpaired surrogate replaced
    by U+FFFD and without a leading U+FEFF; so it returns exactly [p]
    when [p] is well formed and does not start with U+FEFF. *)
Theorem encrypt_decrypt_roundtrip
        (cipher : AEAD) (rng : nat -> Z) (p pw : jsstring) :
  jsstring_ok p ->
  exists secret salt_bytes iv_bytes,
    encrypt cipher rng p pw = Normal secret
    /\ base64ToArrayBuffer (salt secret) = Normal salt_bytes
    /\ List.length salt_bytes = 32%nat
    /\ base64ToArrayBuffer (iv secret) = Normal iv_bytes
    /\ List.length iv_bytes = 12%nat
    /\ decrypt cipher (encrypted secret) (salt secret) (iv secret) pw
       = Normal (from_scalars (strip_BOM (to_scalars p)))
    /\ (well_formed p = true -> hd 0 p <> BOM ->
        decrypt cipher (encrypted secret) (salt secret) (iv secret) pw = Normal p).
Proof.
  intros Hok.
  destruct (encrypt_then_decrypt cipher rng p pw Hok) as (secret & H1 & H2 & H3 & _ & H4).
  exists secret, (getRandomBytes rng 0 32), (getRandomBytes rng 32 12).
  split; [exact H1|]. split; [exact H2|].
  split; [apply getRandomBytes_length|]. split; [exact H3|].
  split; [apply getRandomBytes_length|]. split; [exact H4|].
  intros Hwf Hbom. rewrite H4. f_equal.
  rewrite to_scalars_head by exact Hbom. apply from_to_scalars; assumption.
Qed.

Lemma encrypt_decrypt_roundtrip_witness :
  exists secret,
    encrypt TagOnly.cipher (fun i => Z.of_nat (7 * i)) (js "secret-payload")
            (js "correct-horse") = Normal secret
    /\ decrypt TagOnly.cipher (encrypted secret) (salt secret) (iv secret)
               (js "correct-horse") = Normal (js "secret-payload").
Proof.
  destruct (encrypt_decrypt_roundtrip TagOnly.cipher (fun i => Z.of_nat (7 * i))
              (js "secret-payload") (js "correct-horse"))
    as (secret & s & i & H1 & _ & _ & _ & _ & _ & H2).
  - unfold jsstring_ok. apply Forall_forall. intros c Hc.
    apply in_map_iff in Hc as (a & <- & _).
    pose proof (N_ascii_bounded a). lia.
  - exists secret. split; [exact H1|]. apply H2.
    + reflexivity.
    + unfold BOM. cbn. lia.
Defined.

(* ================================================================= *)
(** ** Claim C2: when [decrypt] fails *)









(* ================================================================= *)
(** ** An instance of the cipher interface that detects a flipped bit

    The tag is the sum of the bytes of the key, the iv and the text,
    modulo 256, followed by fifteen zero bytes.  One flipped bit changes
    one byte by a power of two below 256, and with it the sum.  As
    [TagOnly], it hides nothing. *)

Module SumTag.
Definition total (bs : bytes) : Z := fold_right Z.add 0 bs.

Definition tag (key iv text : bytes) : bytes :=
  (total key + total iv + total text) mod 256 :: repeat 0 15.

Definition seal (key iv plaintext : bytes) : bytes :=
  plaintext ++ tag key iv plaintext.

Definition open (key iv sealed : bytes) : option bytes :=
  let n := (List.length sealed - 16)%nat in
  let text := firstn n sealed in
  if (16 <=? List.length sealed)%nat && list_eqb (skipn n sealed) (tag key iv text)
  then Some text else None.

Lemma sum_seal_ok (key iv plaintext : bytes) :
  bytes_ok plaintext -> bytes_ok (seal key iv plaintext).
Proof.
  intros H. unfold seal, bytes_ok. apply Forall_app. split; [exact H|].
  unfold tag. constructor.
  - unfold byte_ok. apply Z.mod_pos_bound. lia.
  - repeat constructor; unfold byte_ok; lia.
Qed.

(** What [open] does with a text and sixteen bytes after it. *)
Lemma sum_open_parts (key iv text last : bytes) :
  List.length last = 16%nat ->
  open key iv (text ++ last)
  = if list_eqb last (tag key iv text) then Some text else None.
Proof.
  intros Hlen. unfold open.
  rewrite length_app, Hlen, Nat.add_sub.
  rewrite firstn_app, Nat.sub_diag, firstn_all. cbn [firstn]. rewrite app_nil_r.
  rewrite skipn_app, Nat.sub_diag, skipn_all. cbn [skipn app].
  replace (16 <=? List.length text + 16)%nat with true; [reflexivity|].
  symmetry. apply Nat.leb_le. lia.
Qed.

Lemma sum_open_seal (key iv plaintext : bytes) :
  bytes_ok plaintext -> open key iv (seal key iv plaintext) = Some plaintext.
Proof.
  intros _. unfold seal. rewrite sum_open_parts by reflexivity.
  rewrite list_eqb_refl. reflexivity.
Qed.

Definition cipher : AEAD := mkAEAD seal open sum_seal_ok sum_open_seal.





End SumTag.










(* ================================================================= *)
(** ** Claim C4: what the hash of a transaction depends on *)

(** Two transactions with the same signable values: the five fields read
    by name, and the fee as [hashTransaction] reads it. *)
Definition same_signable (a b : object) : Prop :=
  get a (js "from") = get b (js "from")
  /\ get a (js "to") = get b (js "to")
  /\ get a (js "amount") = get b (js "amount")
  /\ get a (js "tokenType") = get b (js "tokenType")
  /\ js_or (get a (js "fee")) (get a (js "feeDNT"))
     = js_or (get b (js "fee")) (get b (js "feeDNT"))
  /\ get a (js "nonce") = get b (js "nonce").

(** The property names that [hashTransaction] reads. *)
Definition read_names : list jsstring :=
  [js "from"; js "to"; js "amount"; js "tokenType"; js "fee"; js "feeDNT"; js "nonce"].

Lemma hashTransaction_same_signable (a b : object) :
  same_signable a b -> hashTransaction a = hashTransaction b.
Proof.
  intros (H1 & H2 & H3 & H4 & H5 & H6). unfold hashTransaction.
  rewrite H1, H2, H3, H4, H5, H6. reflexivity.
Qed.

Lemma get_set_same (obj : object) (k : jsstring) (v : value) :
  get (set obj k v) k = v.
Proof.
  induction obj as [|[k0 v0] rest IH]; cbn [set get].
  - rewrite list_eqb_refl. reflexivity.
  - destruct (list_eqb k0 k) eqn:E; cbn [get]; rewrite E; [reflexivity | exact IH].
Qed.

Lemma get_set_other (obj : object) (k k' : jsstring) (v : value) :
  k <> k' -> get (set obj k v) k' = get obj k'.
Proof.
  intros Hne. induction obj as [|[k0 v0] rest IH]; cbn [set get].
  - rewrite list_eqb_neq by exact Hne. reflexivity.
  - destruct (list_eqb k0 k) eqn:E; cbn [get].
    + apply list_eqb_eq in E. subst k0.
      rewrite list_eqb_neq by exact Hne. reflexivity.
    + rewrite IH. reflexivity.
Qed.

(** Reading a property does not depend on the order of the properties,
    when no name occurs twice (as in every JavaScript object). *)
Lemma get_Permutation (a b : object) (k : jsstring) :
  Permutation a b -> NoDup (map fst a) -> get a k = get b k.
Proof.
  induction 1 as [| [k0 v0] l l' Hp IH | [k1 v1] [k0 v0] l | l l' l'' H1 IH1 H2 IH2];
    intros Hnd.
  - reflexivity.
  - cbn [get]. cbn [map fst] in Hnd. apply NoDup_cons_iff in Hnd as [_ Hnd].
    rewrite IH by exact Hnd. reflexivity.
  - cbn [get]. cbn [map fst] in Hnd.
    apply NoDup_cons_iff in Hnd as [Hin _].
    destruct (list_eqb k0 k) eqn:E0, (list_eqb k1 k) eqn:E1; try reflexivity.
    apply list_eqb_eq in E0, E1. subst. exfalso. apply Hin. left. reflexivity.
  - rewrite IH1 by exact Hnd. apply IH2.
    apply (Permutation_NoDup (Permutation_map fst H1) Hnd).
Qed.

Lemma same_signable_set (tx : object) (k : jsstring) (v : value) :
  ~ In k read_names -> same_signable (set tx k v) tx.
Proof.
  intros Hk. unfold same_signable.
  assert (G : forall name, In name read_names -> get (set tx k v) name = get tx name).
  { intros name Hin. apply get_set_other. intros ->. contradiction. }
  unfold read_names in G.
  rewrite !G by (cbn [In]; tauto).
  repeat split; reflexivity.
Qed.


(** What the digest does depend on: the values of [tx.from], [tx.to],
    [tx.amount], [tx.tokenType], [tx.nonce] and of [tx.fee || tx.feeDNT]:
    - two transactions that agree on these hash to the same digest;
    - so do two transactions with the same properties in another order;
    - a property under another name (such as [signature], [publicKey] or
      sender metadata) does not change the digest;
    - a fee that JavaScript reads as true (a number other than 0, a
      non-empty string) gives the same digest in [fee] as in [feeDNT] of
      a transaction that has neither;
    - when [signMessage] and [getPublicKeyFromPrivate] return,
      [signTransaction] returns a transaction that holds the signature
      and the public key and has the digest of the unsigned one. *)
Theorem hashTransaction_stable :
  (forall a b, same_signable a b -> hashTransaction a = hashTransaction b)
  /\ (forall a b,
        NoDup (map fst a) -> Permutation a b -> hashTransaction a = hashTransaction b)
  /\ (forall tx name v,
        ~ In name read_names -> hashTransaction (set tx name v) = hashTransaction tx)
  /\ (forall tx fee,
        truthy fee = true ->
        get tx (js "fee") = VUndefined -> get tx (js "feeDNT") = VUndefined ->
        hashTransaction (set tx (js "fee") fee)
        = hashTransaction (set tx (js "feeDNT") fee))
  /\ (forall getPublicKeyFromPrivate signMessage tx privateKeyHex signature publicKey,
        signMessage (hashTransaction tx) privateKeyHex = Normal signature ->
        getPublicKeyFromPrivate privateKeyHex = Normal publicKey ->
        exists signed,
          signTransaction getPublicKeyFromPrivate signMessage tx privateKeyHex
          = Normal signed
          /\ get signed (js "signature") = VString signature
          /\ get signed (js "publicKey") = VString publicKey
          /\ hashTransaction signed = hashTransaction tx).
Proof.
  split; [exact hashTransaction_same_signable|].
  split; [|split; [|split]].
  - intros a b Hnd Hp. apply hashTransaction_same_signable.
    unfold same_signable.
    rewrite !(get_Permutation a b _ Hp Hnd). repeat split; reflexivity.
  - intros tx name v Hname.
    apply hashTransaction_same_signable, same_signable_set, Hname.
  - intros tx fee Hfee H1 H2. apply hashTransaction_same_signable.
    unfold same_signable.
    rewrite !get_set_same.
    rewrite !(get_set_other tx (js "fee")) by (intros E; vm_compute in E; discriminate E).
    rewrite !(get_set_other tx (js "feeDNT")) by (intros E; vm_compute in E; discriminate E).
    rewrite H1, H2. unfold js_or. rewrite Hfee. cbn [truthy].
    repeat split; reflexivity.
  - intros getPub sign tx key signature publicKey Hs Hp.
    unfold signTransaction. rewrite Hs, Hp. cbn [bind].
    eexists. split; [reflexivity|]. split; [|split].
    + rewrite get_set_other by (intros E; vm_compute in E; discriminate E).
      apply get_set_same.
    + apply get_set_same.
    + apply hashTransaction_same_signable.
      unfold same_signable.
      rewrite !(get_set_other _ (js "publicKey"))
        by (intros E; vm_compute in E; discriminate E).
      rewrite !(get_set_other _ (js "signature"))
        by (intros E; vm_compute in E; discriminate E).
      repeat split; reflexivity.
Qed.

Lemma hashTransaction_stable_witness :
  let base := [ (js "from", VString (js "DUKAi5LLmECQwgUJ3e36EoDjome3pUJisr"));
                (js "to", VString (js "DFSVTrK1N53SeFiKKXRUVKCZKRvmA2xzoU"));
                (js "amount", VNumber 250000000);
                (js "tokenType", VString (js "DNT"));
                (js "nonce", VNumber 7) ] in
  hashTransaction (set base (js "fee") (VString (js "1000")))
  = hashTransaction (set base (js "feeDNT") (VString (js "1000")))
  /\ hashTransaction (set base (js "memo") (VString (js "rent"))) = hashTransaction base.
Proof.
  cbv zeta. split.
  - apply (proj1 (proj2 (proj2 (proj2 hashTransaction_stable)))); reflexivity.
  - apply (proj1 (proj2 (proj2 hashTransaction_stable))).
    unfold read_names. cbn [In]. intros H.
    repeat (destruct H as [H | H]; [vm_compute in H; discriminate H|]). exact H.
Defined.

(* ================================================================= *)
(** ** crypto.js: more on the hex helpers *)

(** A lower-case hexadecimal digit. *)
Definition is_lower_hex (c : Z) : bool :=
  ((48 <=? c) && (c <=? 57)) || ((97 <=? c) && (c <=? 102)).

Lemma hex_char_lower (d : Z) : 0 <= d < 16 -> is_lower_hex (hex_char d) = true.
Proof.
  intros H. apply (forall_upto (fun d => is_lower_hex (hex_char d)) 16); [reflexivity | lia].
Qed.

Lemma flat_nibbles_length (bs : bytes) :
  List.length (flat_map nibbles bs) = (2 * List.length bs)%nat.
Proof.
  induction bs as [|b bs IH]; [reflexivity|].
  cbn [flat_map nibbles app List.length]. rewrite IH. lia.
Qed.

Lemma bytesToHex_length (bs : bytes) :
  bytes_ok bs -> List.length (bytesToHex bs) = (2 * List.length bs)%nat.
Proof.
  intros H. rewrite (bytesToHex_nibbles bs H), length_map. apply flat_nibbles_length.
Qed.

Lemma bytesToHex_lower (bs : bytes) :
  bytes_ok bs -> forallb is_lower_hex (bytesToHex bs) = true.
Proof.
  intros H. rewrite (bytesToHex_nibbles bs H).
  apply forallb_forall. intros c Hc.
  apply in_map_iff in Hc as (d & <- & Hd).
  pose proof (flat_nibbles_ok bs H) as Hall.
  rewrite Forall_forall in Hall. apply hex_char_lower, Hall, Hd.
Qed.

Lemma is_lower_hex_char (c : Z) : is_lower_hex c = true -> is_hex_char c = true.
Proof.
  unfold is_lower_hex, is_hex_char. intros H.
  apply orb_true_iff in H as [H | H]; rewrite H; [apply orb_true_r | reflexivity].
Qed.

(** X1: [hexToBytes] undoes [bytesToHex] on every byte array, and
    [bytesToHex] writes two lower-case hexadecimal digits per byte. *)
Theorem hex_roundtrip (bs : bytes) :
  bytes_ok bs ->
  hexToBytes (bytesToHex bs) = bs
  /\ List.length (bytesToHex bs) = (2 * List.length bs)%nat
  /\ forallb is_lower_hex (bytesToHex bs) = true.
Proof.
  intros H. split; [apply hexToBytes_bytesToHex, H|].
  split; [apply bytesToHex_length, H | apply bytesToHex_lower, H].
Qed.

Lemma hex_roundtrip_witness :
  hexToBytes (bytesToHex [0; 7; 30; 255]) = [0; 7; 30; 255]
  /\ List.length (bytesToHex [0; 7; 30; 255]) = 8%nat
  /\ forallb is_lower_hex (bytesToHex [0; 7; 30; 255]) = true.
Proof.
  apply (hex_roundtrip [0; 7; 30; 255]).
  repeat constructor; unfold byte_ok; lia.
Defined.

(** Induction two elements at a time. *)
Lemma pair_induction {A} (P : list A -> Prop) :
  P [] -> (forall a, P [a]) -> (forall a b rest, P rest -> P (a :: b :: rest)) ->
  forall l, P l.
Proof.
  intros H0 H1 H2.
  assert (G : forall l, P l /\ forall a, P (a :: l)).
  { induction l as [|b l [IH1 IH2]]; split; auto. }
  intros l. apply G.
Qed.

Lemma hexToBytes_length (hex : jsstring) :
  List.length (hexToBytes hex) = Nat.div2 (List.length hex).
Proof.
  induction hex as [| a | a b rest IH] using pair_induction; [reflexivity | reflexivity |].
  cbn [hexToBytes List.length Nat.div2]. rewrite IH. reflexivity.
Qed.

Lemma hexToBytes_odd_tail (hex : jsstring) (c : Z) :
  Nat.even (List.length hex) = true -> hexToBytes (hex ++ [c]) = hexToBytes hex.
Proof.
  induction hex as [| a | a b rest IH] using pair_induction; intros Hev.
  - reflexivity.
  - discriminate.
  - cbn [app hexToBytes]. rewrite IH; [reflexivity | exact Hev].
Qed.

(** X2: [hexToBytes] never throws: on every string it returns
    [floor(length / 2)] bytes, each below 256 (a pair that is no
    hexadecimal number gives 0), and the last character of a string of
    odd length is ignored. *)
Theorem hexToBytes_total (hex : jsstring) :
  List.length (hexToBytes hex) = Nat.div2 (List.length hex)
  /\ bytes_ok (hexToBytes hex)
  /\ (forall c, Nat.even (List.length hex) = true ->
                hexToBytes (hex ++ [c]) = hexToBytes hex)
  /\ hexToBytes (js "zz") = [0]
  /\ hexToBytes (js "0x") = [0]
  /\ hexToBytes (js "-1") = [255]
  /\ hexToBytes (js "fg") = [15].
Proof.
  split; [apply hexToBytes_length|]. split; [apply hexToBytes_ok|].
  split; [intros c; apply hexToBytes_odd_tail|].
  repeat split.
Qed.

(** Two hexadecimal digits are read and written back in lower case. *)
Lemma hex_pair_normalised (a b : Z) :
  is_hex_char a = true -> is_hex_char b = true ->
  padStart2 (toString16 (to_uint8 (parseInt16 [a; b]))) = toLowerCase [a; b].
Proof.
  intros Ha Hb.
  assert (Hrange : forall c, is_hex_char c = true -> 0 <= c < 103).
  { intros c Hc. unfold is_hex_char in Hc.
    repeat (apply orb_true_iff in Hc as [Hc | Hc]);
      apply andb_true_iff in Hc as [H1 H2];
      apply Z.leb_le in H1; apply Z.leb_le in H2; lia. }
  assert (G : forall x, 0 <= x < 103 ->
              forallb (fun y => negb (is_hex_char x && is_hex_char y)
                                || list_eqb (padStart2 (toString16 (to_uint8 (parseInt16 [x; y]))))
                                            (toLowerCase [x; y]))
                      (upto 103) = true).
  { apply (forall_upto
             (fun x => forallb (fun y => negb (is_hex_char x && is_hex_char y)
                                || list_eqb (padStart2 (toString16 (to_uint8 (parseInt16 [x; y]))))
                                            (toLowerCase [x; y]))
                               (upto 103)) 103).
    vm_compute. reflexivity. }
  specialize (G a (Hrange a Ha)). rewrite forallb_forall in G.
  specialize (G b (upto_complete 103 b (Hrange b Hb))).
  rewrite Ha, Hb in G. cbn [andb negb orb] in G.
  apply list_eqb_eq, G.
Qed.

Lemma bytesToHex_hexToBytes (hex : jsstring) :
  Nat.even (List.length hex) = true -> forallb is_hex_char hex = true ->
  bytesToHex (hexToBytes hex) = toLowerCase hex.
Proof.
  induction hex as [| a | a b rest IH] using pair_induction; intros Hev Hhex.
  - reflexivity.
  - discriminate.
  - cbn [forallb] in Hhex.
    apply andb_true_iff in Hhex as [Ha Hhex].
    apply andb_true_iff in Hhex as [Hb Hhex].
    cbn [hexToBytes]. unfold bytesToHex in *. cbn [flat_map].
    rewrite (hex_pair_normalised a b Ha Hb), (IH Hev Hhex). reflexivity.
Qed.

(** X3: on a string of hexadecimal digits of even length, [bytesToHex]
    after [hexToBytes] returns the string in lower case; on a string
    already in lower case, the string itself. *)
Theorem hex_normalises (hex : jsstring) :
  Nat.even (List.length hex) = true -> forallb is_hex_char hex = true ->
  bytesToHex (hexToBytes hex) = toLowerCase hex
  /\ (forallb is_lower_hex hex = true -> bytesToHex (hexToBytes hex) = hex).
Proof.
  intros Hev Hhex. split; [apply bytesToHex_hexToBytes; assumption|].
  intros Hlow. rewrite bytesToHex_hexToBytes by assumption.
  unfold toLowerCase. rewrite <- (map_id hex) at 2. apply map_ext_in.
  intros c Hc. rewrite forallb_forall in Hlow. specialize (Hlow c Hc).
  unfold is_lower_hex in Hlow.
  destruct (Z.leb_spec 65 c), (Z.leb_spec c 90); cbn [andb]; try reflexivity.
  exfalso.
  apply orb_true_iff in Hlow as [H1 | H1]; apply andb_true_iff in H1 as [H2 H3];
    apply Z.leb_le in H2; apply Z.leb_le in H3; lia.
Qed.

Lemma hex_normalises_witness :
  bytesToHex (hexToBytes (js "00Ff1E")) = js "00ff1e".
Proof.
  apply (proj1 (hex_normalises (js "00Ff1E") eq_refl eq_refl)).
Defined.

(* ================================================================= *)
(** ** crypto.js: more on Base58 *)

(** A character of the Base58 alphabet. *)
Definition in_alphabet (c : Z) : bool := 0 <=? indexOf ALPHABET c.

Lemma index_from_spec (s : jsstring) (c : Z) :
  forall i, 0 <= i ->
    index_from i s c = -1
    \/ (i <= index_from i s c < i + Z.of_nat (List.length s)
        /\ nth (Z.to_nat (index_from i s c - i)) s 0 = c).
Proof.
  induction s as [|x s IH]; intros i Hi; [left; reflexivity|].
  cbn [index_from]. destruct (Z.eqb_spec x c) as [->|Hne].
  - right. rewrite Z.sub_diag. cbn [List.length nth Z.to_nat]. split; [lia | reflexivity].
  - destruct (IH (i + 1) ltac:(lia)) as [H | [H1 H2]]; [left; exact H | right].
    cbn [List.length]. split; [lia|].
    replace (Z.to_nat (index_from (i + 1) s c - i))
      with (S (Z.to_nat (index_from (i + 1) s c - (i + 1)))) by lia.
    exact H2.
Qed.

Lemma in_alphabet_digit (c : Z) :
  in_alphabet c = true ->
  exists d, 0 <= d < 58 /\ c = alphabet_at d /\ indexOf ALPHABET c = d.
Proof.
  unfold in_alphabet, indexOf. intros H. apply Z.leb_le in H.
  destruct (index_from_spec ALPHABET c 0 ltac:(lia)) as [E | [H1 H2]]; [lia|].
  exists (index_from 0 ALPHABET c). change (Z.of_nat (List.length ALPHABET)) with 58 in H1.
  split; [lia|]. split; [|reflexivity].
  unfold alphabet_at. rewrite Z.sub_0_r in H2. symmetry. exact H2.
Qed.

Lemma alphabet_digits (s : jsstring) :
  forallb in_alphabet s = true ->
  exists ds, s = map alphabet_at ds /\ Forall (digit_ok 58) ds.
Proof.
  induction s as [|c s IH]; intros H.
  - exists []. split; [reflexivity | constructor].
  - cbn [forallb] in H. apply andb_true_iff in H as [Hc Hs].
    destruct (IH Hs) as (ds & -> & Hds).
    destruct (in_alphabet_digit c Hc) as (d & Hd & -> & _).
    exists (d :: ds). split; [reflexivity | constructor; assumption].
Qed.

(** A string over the alphabet: its leading ['1']s, then the digits of a
    number without leading zero. *)
Lemma alphabet_split (s : jsstring) :
  forallb in_alphabet s = true ->
  exists k ds, s = repeat 49 k ++ map alphabet_at ds /\ canonical 58 ds.
Proof.
  intros H. destruct (alphabet_digits s H) as (ds & -> & Hds).
  destruct (leading_zero_split ds) as (tail & Hsplit & Hhd).
  exists (leading_zero_bytes ds), tail.
  rewrite Hsplit in Hds. apply Forall_app in Hds as [_ Htail].
  split; [|split; assumption].
  rewrite Hsplit at 1. rewrite map_app, map_repeat. reflexivity.
Qed.

Lemma decode_loop_rejects (s : jsstring) :
  forallb in_alphabet s = false ->
  forall num, decode_loop s num = Throw (Error "Invalid Base58 character").
Proof.
  induction s as [|c s IH]; intros H num; [discriminate|].
  cbn [forallb] in H. cbn [decode_loop]. unfold in_alphabet in H.
  destruct (Z.leb_spec 0 (indexOf ALPHABET c)) as [Hge | Hlt].
  - cbn [andb] in H.
    destruct (Z.ltb_spec (indexOf ALPHABET c) 0); [lia|]. apply IH, H.
  - destruct (Z.ltb_spec (indexOf ALPHABET c) 0); [reflexivity | lia].
Qed.

(** The bytes that [base58Decode] reads from the digits of a number. *)
Lemma decoded_value_ok (num : Z) :
  bytes_ok (let hex := toString16 num in
            hexToBytes (if Nat.odd (List.length hex) then 48 :: hex else hex)).
Proof. apply hexToBytes_ok. Qed.

(** X4: [base58Decode] throws exactly on the strings with a character
    outside the alphabet, always [Error('Invalid Base58 character')]; on
    every other string (the empty one included) it returns a byte
    array. *)
Theorem base58Decode_rejects (str : jsstring) :
  (forallb in_alphabet str = false ->
   base58Decode str = Throw (Error "Invalid Base58 character"))
  /\ (forallb in_alphabet str = true ->
      exists decoded, base58Decode str = Normal decoded /\ bytes_ok decoded)
  /\ in_alphabet 48 = false /\ in_alphabet 79 = false
  /\ in_alphabet 73 = false /\ in_alphabet 108 = false.
Proof.
  split; [|split; [|repeat split]].
  - intros H. unfold base58Decode. rewrite (decode_loop_rejects str H). reflexivity.
  - intros H. destruct (alphabet_split str H) as (k & ds & -> & Hcan).
    rewrite (base58Decode_digits k ds Hcan). eexists. split; [reflexivity|].
    apply Forall_app. split; [|apply decoded_value_ok].
    apply Forall_forall. intros x Hx. apply repeat_spec in Hx. subst.
    unfold byte_ok. lia.
Qed.

Lemma repeat_snoc {A} (x : A) (k : nat) : repeat x k ++ [x] = repeat x (S k).
Proof. induction k as [|k IH]; [reflexivity|]. cbn [repeat app]. rewrite IH. reflexivity. Qed.

Lemma leading_zero_bytes_repeat (k : nat) (tail : bytes) :
  hd 1 tail <> 0 -> leading_zero_bytes (repeat 0 k ++ tail) = k.
Proof.
  intros Hhd. induction k as [|k IH].
  - destruct tail as [|b tail]; [reflexivity|]. cbn [repeat app leading_zero_bytes].
    cbn [hd] in Hhd. destruct (Z.eqb_spec b 0); [contradiction | reflexivity].
  - cbn [repeat app leading_zero_bytes]. rewrite IH. reflexivity.
Qed.

(** Encoding what was decoded: the string itself when it has a character
    other than ['1'], and the string with one more ['1'] otherwise. *)
Lemma base58_decode_encode (k : nat) (ds : list Z) :
  canonical 58 ds ->
  (decoded <- base58Decode (repeat 49 k ++ map alphabet_at ds) ;; base58Encode decoded)
  = Normal (match ds with
            | [] => repeat 49 (S k)
            | _ => repeat 49 k ++ map alphabet_at ds
            end).
Proof.
  intros Hcan. rewrite (base58Decode_digits k ds Hcan). cbn [bind].
  destruct ds as [|d ds].
  - change (from_digits 58 []) with 0. cbv zeta.
    change (hexToBytes _) with [0].
    rewrite repeat_snoc.
    rewrite base58Encode_value.
    + assert (Hz : from_digits 256 (repeat 0 (S k)) = 0).
      { rewrite <- (app_nil_r (repeat 0 (S k))), from_digits_zeros. reflexivity. }
      assert (Hlz : leading_zero_bytes (repeat 0 (S k)) = S k).
      { rewrite <- (app_nil_r (repeat 0 (S k))).
        apply leading_zero_bytes_repeat. cbn. lia. }
      rewrite Hz, Hlz. change (to_digits 58 0) with (@nil Z).
      cbn [map]. rewrite app_nil_r. reflexivity.
    + apply Forall_forall. intros x Hx. apply repeat_spec in Hx. subst.
      unfold byte_ok. lia.
    + discriminate.
  - set (num := from_digits 58 (d :: ds)).
    assert (Hpos : 0 < num).
    { apply canonical_positive; [lia | exact Hcan | discriminate]. }
    (* the bytes of [num], without leading zero byte *)
    destruct (to_digits_spec 256 ltac:(lia) num ltac:(lia)) as [Hval [Hall Hhd]].
    set (tail := to_digits 256 num) in *.
    assert (Hne : tail <> []).
    { intros E. rewrite E in Hval. unfold from_digits in Hval. simpl in Hval. lia. }
    assert (Hhd1 : hd 1 tail <> 0).
    { destruct tail; [congruence | exact Hhd]. }
    assert (Hok : bytes_ok tail) by exact Hall.
    pose proof (hex_of_value tail Hok Hne Hhd1) as Hhex.
    cbv zeta in Hhex. rewrite Hval in Hhex. cbv zeta. rewrite Hhex.
    rewrite base58Encode_value.
    + rewrite (leading_zero_bytes_repeat k tail Hhd1), value_of_split, Hval.
      subst num. rewrite to_digits_from_digits by (lia || exact Hcan). reflexivity.
    + apply Forall_app. split; [|exact Hok].
      apply Forall_forall. intros x Hx. apply repeat_spec in Hx. subst.
      unfold byte_ok. lia.
    + intros E. apply app_eq_nil in E as [_ E]. contradiction.
Qed.

(** X5: [base58Encode] undoes [base58Decode] on every string over the
    alphabet that has a character other than ['1']; a string of ['1']s
    only (the empty string included) comes back one ['1'] longer. *)
Theorem base58_decode_then_encode (str : jsstring) :
  forallb in_alphabet str = true ->
  (decoded <- base58Decode str ;; base58Encode decoded)
  = Normal (if forallb (Z.eqb 49) str then str ++ [49] else str).
Proof.
  intros H. destruct (alphabet_split str H) as (k & ds & -> & Hcan).
  rewrite (base58_decode_encode k ds Hcan).
  assert (Hones : forallb (Z.eqb 49) (repeat 49 k) = true).
  { apply forallb_forall. intros x Hx. apply repeat_spec in Hx. subst. reflexivity. }
  destruct ds as [|d ds].
  - cbn [map]. rewrite app_nil_r, Hones, repeat_snoc. reflexivity.
  - rewrite forallb_app, Hones. cbn [andb map forallb].
    destruct Hcan as [Hall Hhd]. cbn [hd] in Hhd.
    apply Forall_cons_iff in Hall as [Hd _]. unfold digit_ok in Hd.
    rewrite Z.eqb_sym, (alphabet_not_one d) by lia. reflexivity.
Qed.

Lemma base58_decode_then_encode_witness :
  (decoded <- base58Decode (js "11DUKAi5") ;; base58Encode decoded) = Normal (js "11DUKAi5")
  /\ (decoded <- base58Decode (js "11") ;; base58Encode decoded) = Normal (js "111").
Proof.
  split.
  - apply (base58_decode_then_encode (js "11DUKAi5")). reflexivity.
  - apply (base58_decode_then_encode (js "11")). reflexivity.
Defined.

(* ================================================================= *)
(** ** crypto.js: the shape of an address *)

(** What [base58Decode] returns on the digits of a positive number: the
    bytes of the number after one zero byte per leading ['1']. *)
Lemma base58Decode_value (k : nat) (ds : list Z) :
  canonical 58 ds -> ds <> [] ->
  base58Decode (repeat 49 k ++ map alphabet_at ds)
  = Normal (repeat 0 k ++ to_digits 256 (from_digits 58 ds)).
Proof.
  intros Hcan Hne. rewrite (base58Decode_digits k ds Hcan).
  set (num := from_digits 58 ds).
  assert (Hpos : 0 < num) by (apply canonical_positive; [lia | exact Hcan | exact Hne]).
  destruct (to_digits_spec 256 ltac:(lia) num ltac:(lia)) as [Hval [Hall Hhd]].
  set (tail := to_digits 256 num) in *.
  assert (Htail : tail <> []).
  { intros E. rewrite E in Hval. unfold from_digits in Hval. simpl in Hval. lia. }
  assert (Hhd1 : hd 1 tail <> 0) by (destruct tail; [congruence | exact Hhd]).
  pose proof (hex_of_value tail Hall Htail Hhd1) as Hhex.
  cbv zeta in Hhex. rewrite Hval in Hhex. cbv zeta. rewrite Hhex. reflexivity.
Qed.

(** A number with 25 bytes of which the first is the version byte has 34
    digits in base 58. *)
Lemma address_digits_length (ds : list Z) :
  canonical 58 ds ->
  30 * 256 ^ 24 <= from_digits 58 ds < 31 * 256 ^ 24 ->
  List.length ds = 34%nat.
Proof.
  intros [Hall Hhd] Hnum.
  destruct ds as [|d ds].
  { unfold from_digits in Hnum. simpl in Hnum. lia. }
  cbn [hd] in Hhd. apply Forall_cons_iff in Hall as [Hd Hds]. unfold digit_ok in Hd.
  rewrite (from_digits_cons 58) in Hnum.
  pose proof (from_digits_nonneg 58 ltac:(lia) ds Hds) as Hlo.
  pose proof (from_digits_upper 58 ltac:(lia) ds Hds) as Hhi.
  set (n := Z.of_nat (List.length ds)) in *.
  assert (Hn : n = 33).
  { destruct (Z.lt_trichotomy n 33) as [Hlt | [Heq | Hgt]]; [exfalso | exact Heq | exfalso].
    - assert (H : 58 ^ (n + 1) <= 58 ^ 33) by (apply Z.pow_le_mono_r; lia).
      rewrite Z.pow_add_r in H by lia. change (58 ^ 1) with 58 in H.
      assert (58 ^ 33 <= 30 * 256 ^ 24) by (vm_compute; discriminate).
      nia.
    - assert (58 ^ 34 <= 58 ^ n) by (apply Z.pow_le_mono_r; lia).
      assert (31 * 256 ^ 24 <= 58 ^ 34) by (vm_compute; discriminate).
      nia. }
  cbn [List.length]. lia.
Qed.

Lemma versioned_value (bs : bytes) :
  bytes_ok bs -> List.length bs = 25%nat -> nth 0 bs 0 = ADDRESS_VERSION ->
  30 * 256 ^ 24 <= from_digits 256 bs < 31 * 256 ^ 24.
Proof.
  intros Hok Hlen Hv. destruct bs as [|v rest]; [discriminate|].
  cbn [nth] in Hv. subst v. apply Forall_cons_iff in Hok as [_ Hrest].
  assert (Hl : List.length rest = 24%nat) by (cbn [List.length] in Hlen; lia).
  pose proof (from_digits_nonneg 256 ltac:(lia) rest Hrest) as Hlo.
  pose proof (from_digits_upper 256 ltac:(lia) rest Hrest) as Hhi.
  rewrite (from_digits_cons 256), Hl in *. unfold ADDRESS_VERSION.
  change (Z.of_nat 24) with 24 in *. lia.
Qed.

Lemma address_bytes_head (pub : jsstring) :
  exists rest, address_bytes pub = ADDRESS_VERSION :: rest.
Proof. unfold address_bytes. cbv zeta. cbn [app]. eexists. reflexivity. Qed.

(** The encoding of 25 bytes that start with the version byte. *)
Lemma encoded_address_shape (bs : bytes) :
  bytes_ok bs -> List.length bs = 25%nat -> nth 0 bs 0 = ADDRESS_VERSION ->
  exists str,
    base58Encode bs = Normal str
    /\ List.length str = 34%nat
    /\ forallb in_alphabet str = true
    /\ base58Decode str = Normal bs.
Proof.
  intros Hok Hlen Hv.
  pose proof (versioned_value bs Hok Hlen Hv) as Hnum.
  destruct bs as [|v rest]; [discriminate|]. cbn [nth] in Hv. subst v.
  set (bs := ADDRESS_VERSION :: rest) in *.
  assert (Hne : bs <> []) by discriminate.
  assert (Hlz : leading_zero_bytes bs = 0%nat) by reflexivity.
  pose proof (base58Encode_value bs Hok Hne) as Henc. rewrite Hlz in Henc.
  cbn [repeat app] in Henc.
  destruct (to_digits_spec 58 ltac:(lia) (from_digits 256 bs) ltac:(lia)) as [Hval Hcan].
  set (ds := to_digits 58 (from_digits 256 bs)) in *.
  assert (Hds : List.length ds = 34%nat).
  { apply address_digits_length; [exact Hcan | rewrite Hval; exact Hnum]. }
  exists (map alphabet_at ds). split; [exact Henc|].
  split; [rewrite length_map; exact Hds|]. split.
  - apply forallb_forall. intros c Hc. apply in_map_iff in Hc as (d & <- & Hd).
    destruct Hcan as [Hall _]. rewrite Forall_forall in Hall.
    specialize (Hall d Hd). unfold digit_ok in Hall.
    unfold in_alphabet. rewrite alphabet_index by exact Hall. apply Z.leb_le. lia.
  - pose proof (base58_roundtrip_nonzero bs Hok) as Hrt.
    rewrite Henc in Hrt. cbn [bind] in Hrt.
    apply Hrt. apply Exists_cons_hd. unfold ADDRESS_VERSION. lia.
Qed.

(** X6: on every string, hexadecimal or not, [publicKeyToAddress]
    returns; the address has exactly 34 characters, all of the Base58
    alphabet, and decodes to the 25 address bytes. *)
Theorem publicKeyToAddress_shape (publicKeyHex : jsstring) :
  exists address,
    publicKeyToAddress publicKeyHex = Normal address
    /\ List.length address = 34%nat
    /\ forallb in_alphabet address = true
    /\ base58Decode address = Normal (address_bytes publicKeyHex).
Proof.
  destruct (publicKeyToAddress_encodes publicKeyHex) as [Henc _].
  destruct (address_bytes_head publicKeyHex) as (rest & Hhead).
  destruct (encoded_address_shape (address_bytes publicKeyHex))
    as (str & H1 & H2 & H3 & H4).
  - apply address_bytes_ok.
  - apply address_bytes_length.
  - rewrite Hhead. reflexivity.
  - exists str. rewrite Henc. split; [exact H1|]. split; [exact H2|].
    split; [exact H3 | exact H4].
Qed.

(** What an accepted string looks like. *)
Lemma validateAddress_true (address : jsstring) :
  validateAddress address = Normal true ->
  startsWith_D address = true
  /\ forallb in_alphabet address = true
  /\ exists decoded,
       base58Decode address = Normal decoded
       /\ List.length decoded = 25%nat
       /\ accepts decoded = true.
Proof.
  intros H.
  destruct (startsWith_D address) eqn:HD;
    [| rewrite (validateAddress_not_D address HD) in H; discriminate].
  split; [reflexivity|].
  destruct (forallb in_alphabet address) eqn:Hal.
  - split; [reflexivity|].
    destruct (alphabet_split address Hal) as (k & ds & E & Hcan).
    pose proof (base58Decode_digits k ds Hcan) as Hdec. rewrite <- E in Hdec.
    eexists. split; [exact Hdec|].
    match type of Hdec with _ = Normal ?d => set (decoded := d) in * end.
    destruct (Nat.eqb_spec (List.length decoded) 25) as [Hlen | Hlen].
    + split; [exact Hlen|].
      rewrite (validateAddress_decoded address decoded HD Hdec Hlen) in H.
      congruence.
    + exfalso. unfold validateAddress in H. rewrite HD, Hdec in H. cbn [negb bind] in H.
      apply Nat.eqb_neq in Hlen. rewrite Hlen in H. discriminate.
  - exfalso. unfold validateAddress, base58Decode in H.
    rewrite HD, (decode_loop_rejects address Hal) in H. discriminate.
Qed.

(** X7: a string that [validateAddress] accepts has exactly 34
    characters of the Base58 alphabet, the first of them ['D']; it
    decodes to 25 bytes that start with the version byte and end with the
    checksum of the first 21, and it is the encoding of these bytes, so
    no two accepted strings decode to the same bytes. *)
Theorem valid_address_shape (address : jsstring) :
  validateAddress address = Normal true ->
  List.length address = 34%nat
  /\ hd_error address = Some 68
  /\ forallb in_alphabet address = true
  /\ exists decoded,
       base58Decode address = Normal decoded
       /\ List.length decoded = 25%nat
       /\ nth 0 decoded 0 = ADDRESS_VERSION
       /\ slice decoded 21 25 = checksum_of (slice decoded 0 21)
       /\ base58Encode decoded = Normal address.
Proof.
  intros H.
  destruct (validateAddress_true address H) as (HD & Hal & decoded & Hdec & Hlen & Hacc).
  unfold accepts in Hacc. apply andb_true_iff in Hacc as [Hv Hsum].
  apply Z.eqb_eq in Hv. apply list_eqb_eq in Hsum.
  destruct (alphabet_split address Hal) as (k & ds & E & Hcan).
  assert (Hk : k = 0%nat).
  { destruct k as [|k]; [reflexivity|]. rewrite E in HD. discriminate. }
  subst k. cbn [repeat app] in E.
  assert (Hne : ds <> []) by (intros ->; rewrite E in HD; discriminate).
  pose proof (base58Decode_value 0 ds Hcan Hne) as Hval.
  cbn [repeat app] in Hval. rewrite <- E, Hdec in Hval.
  injection Hval as Hval.
  assert (Hpos : 0 < from_digits 58 ds)
    by (apply canonical_positive; [lia | exact Hcan | exact Hne]).
  destruct (to_digits_spec 256 ltac:(lia) (from_digits 58 ds) ltac:(lia)) as [Hfrom [Hok _]].
  rewrite <- Hval in Hfrom, Hok.
  pose proof (versioned_value decoded Hok Hlen Hv) as Hnum. rewrite Hfrom in Hnum.
  pose proof (address_digits_length ds Hcan Hnum) as Hds.
  split; [rewrite E, length_map; exact Hds|].
  split; [destruct address as [|c rest]; [discriminate|];
          cbn [startsWith_D] in HD; apply Z.eqb_eq in HD; subst c; reflexivity|].
  split; [exact Hal|].
  exists decoded. split; [exact Hdec|]. split; [exact Hlen|]. split; [exact Hv|].
  split; [exact Hsum|].
  pose proof (base58_decode_encode 0 ds Hcan) as Hrt.
  cbn [repeat app] in Hrt. rewrite <- E, Hdec in Hrt. cbn [bind] in Hrt.
  rewrite Hrt. destruct ds; [congruence | reflexivity].
Qed.

Lemma valid_address_shape_witness :
  List.length (js "DUKAi5LLmECQwgUJ3e36EoDjome3pUJisr") = 34%nat
  /\ hd_error (js "DUKAi5LLmECQwgUJ3e36EoDjome3pUJisr") = Some 68.
Proof.
  destruct (valid_address_shape (js "DUKAi5LLmECQwgUJ3e36EoDjome3pUJisr")) as (H1 & H2 & _).
  - vm_compute. reflexivity.
  - split; [exact H1 | exact H2].
Defined.

(* ================================================================= *)
(** ** crypto.js: mnemonics *)

Lemma digest_hex64 (data : bytes) :
  is_hex64 (bytesToHex (sha256Sync data)) = true
  /\ forallb is_lower_hex (bytesToHex (sha256Sync data)) = true.
Proof.
  pose proof (sha256Sync_ok data) as Hok.
  pose proof (bytesToHex_lower _ Hok) as Hlow.
  split; [|exact Hlow]. unfold is_hex64.
  rewrite (bytesToHex_length _ Hok), sha256Sync_length. cbn [Nat.mul Nat.add Nat.eqb andb].
  apply forallb_forall. intros c Hc. rewrite forallb_forall in Hlow.
  apply is_lower_hex_char, Hlow, Hc.
Qed.

Lemma toLowerCase_lower (s : jsstring) :
  forallb is_lower_hex s = true -> toLowerCase s = s.
Proof.
  intros Hlow. unfold toLowerCase. rewrite <- (map_id s) at 2. apply map_ext_in.
  intros c Hc. rewrite forallb_forall in Hlow. specialize (Hlow c Hc).
  unfold is_lower_hex in Hlow.
  destruct (Z.leb_spec 65 c), (Z.leb_spec c 90); cbn [andb]; try reflexivity.
  exfalso.
  apply orb_true_iff in Hlow as [H1 | H1]; apply andb_true_iff in H1 as [H2 H3];
    apply Z.leb_le in H2; apply Z.leb_le in H3; lia.
Qed.

(** What [importWallet] does with a key of 64 lower-case digits. *)
Lemma importWallet_lower (publicKeyOf : jsstring -> completion jsstring) (key : jsstring) :
  is_hex64 key = true -> forallb is_lower_hex key = true ->
  importWallet publicKeyOf key
  = (publicKey <- publicKeyOf key ;;
     address <- publicKeyToAddress publicKey ;;
     Normal (mkWallet key publicKey address)).
Proof.
  intros H64 Hlow. unfold importWallet. rewrite H64. cbn [negb].
  rewrite (toLowerCase_lower key Hlow). reflexivity.
Qed.

(** X8: [mnemonicToPrivateKey] throws [Error('Mnemonic must be exactly
    12 words')] unless the trimmed mnemonic splits at white space into
    12 pieces; otherwise it returns the SHA-256 of the mnemonic as it was
    given (not trimmed, words not looked up in the word list) in 64
    lower-case hexadecimal digits, a key that passes the format test of
    [importWallet].  So the same twelve words with a space after them
    give another key. *)
Theorem mnemonicToPrivateKey_result (mnemonic : jsstring) :
  let key := bytesToHex (sha256Sync (TextEncoder_encode mnemonic)) in
  mnemonicToPrivateKey mnemonic
  = (if (List.length (split_whitespace (trim mnemonic) [] false) =? 12)%nat
     then Normal key
     else Throw (Error "Mnemonic must be exactly 12 words"))
  /\ is_hex64 key = true
  /\ forallb is_lower_hex key = true
  /\ hexToBytes key = SHA256.digest (TextEncoder_encode mnemonic)
  /\ (forall publicKeyOf,
        importWallet publicKeyOf key
        = (publicKey <- publicKeyOf key ;;
           address <- publicKeyToAddress publicKey ;;
           Normal (mkWallet key publicKey address)))
  /\ mnemonicToPrivateKey
       (js "abandon ability able about above absent absorb abstract absurd abuse access accident")
     = Normal (js "68c6ab3eba220da70c0fc012ba5f1b6107a8b5a24a4a7b7354984d6e7aa2137b")
  /\ mnemonicToPrivateKey
       (js "abandon ability able about above absent absorb abstract absurd abuse access accident ")
     = Normal (js "50d5d601418c5ba5df5bd60e0f8370ee50ea0919b107721a1b2c9de5a6e4195a").
Proof.
  intros key. destruct (digest_hex64 (TextEncoder_encode mnemonic)) as [H64 Hlow].
  split; [|split; [exact H64 | split; [exact Hlow | split; [|split; [|split]]]]].
  - unfold mnemonicToPrivateKey. cbv zeta.
    destruct (List.length (split_whitespace (trim mnemonic) [] false) =? 12)%nat;
      reflexivity.
  - unfold key. rewrite hexToBytes_bytesToHex by apply sha256Sync_ok.
    apply sha256Sync_digest.
  - intros publicKeyOf. apply importWallet_lower; assumption.
  - vm_compute. reflexivity.
  - vm_compute. reflexivity.
Qed.

(** A word: not empty, no white space. *)
Definition is_word (w : jsstring) : bool :=
  negb (list_eqb w []) && forallb (fun c => negb (is_js_whitespace c)) w.

Lemma split_letters (w rest cur : jsstring) :
  forallb (fun c => negb (is_js_whitespace c)) w = true ->
  split_whitespace (w ++ rest) cur false = split_whitespace rest (rev w ++ cur) false.
Proof.
  revert cur. induction w as [|c w IH]; intros cur H; [reflexivity|].
  cbn [forallb] in H. apply andb_true_iff in H as [Hc Hw].
  apply negb_true_iff in Hc.
  cbn [app split_whitespace]. rewrite Hc, (IH (c :: cur) Hw).
  cbn [rev]. rewrite <- app_assoc. reflexivity.
Qed.

Lemma split_first_letter (c : Z) (rest : jsstring) (skipping : bool) :
  is_js_whitespace c = false ->
  split_whitespace (c :: rest) [] skipping = split_whitespace (c :: rest) [] false.
Proof. intros Hc. cbn [split_whitespace]. rewrite Hc. reflexivity. Qed.

Lemma is_word_inv (w : jsstring) :
  is_word w = true ->
  exists c w', w = c :: w' /\ is_js_whitespace c = false
               /\ forallb (fun c => negb (is_js_whitespace c)) w = true.
Proof.
  unfold is_word. intros H. apply andb_true_iff in H as [Hne Hall].
  destruct w as [|c w']; [discriminate|].
  exists c, w'. split; [reflexivity|]. split; [|exact Hall].
  cbn [forallb] in Hall. apply andb_true_iff in Hall as [Hc _].
  apply negb_true_iff in Hc. exact Hc.
Qed.

(** Splitting what [join(' ')] joined gives the words back. *)
Lemma split_join (words : list jsstring) :
  Forall (fun w => is_word w = true) words -> words <> [] ->
  forall skipping,
    split_whitespace (join_space words) [] skipping = words.
Proof.
  induction 1 as [|w words Hw Hall IH]; intros Hne skipping; [congruence|].
  destruct (is_word_inv w Hw) as (c & w' & E & Hc & Hletters).
  destruct words as [|w2 words].
  - cbn [join_space]. rewrite <- (app_nil_r w) at 1.
    rewrite E at 1. cbn [app]. rewrite (split_first_letter c _ skipping Hc).
    change (c :: w' ++ []) with ((c :: w') ++ []). rewrite <- E.
    rewrite (split_letters w [] [] Hletters). cbn [split_whitespace].
    rewrite app_nil_r, rev_involutive. reflexivity.
  - change (join_space (w :: w2 :: words)) with (w ++ 32 :: join_space (w2 :: words)).
    rewrite E at 1. cbn [app]. rewrite (split_first_letter c _ skipping Hc).
    change (c :: w' ++ 32 :: join_space (w2 :: words))
      with ((c :: w') ++ 32 :: join_space (w2 :: words)). rewrite <- E.
    rewrite (split_letters w _ [] Hletters). cbn [split_whitespace].
    change (is_js_whitespace 32) with true. cbv iota.
    rewrite app_nil_r, rev_involutive, (IH ltac:(discriminate) true). reflexivity.
Qed.

Lemma trim_start_letter (c : Z) (s : jsstring) :
  is_js_whitespace c = false -> trim_start (c :: s) = c :: s.
Proof. intros H. cbn [trim_start]. rewrite H. reflexivity. Qed.

Lemma join_space_first (words : list jsstring) :
  Forall (fun w => is_word w = true) words -> words <> [] ->
  exists c s, join_space words = c :: s /\ is_js_whitespace c = false.
Proof.
  intros Hall Hne. destruct words as [|w words]; [congruence|].
  apply Forall_cons_iff in Hall as [Hw _].
  destruct (is_word_inv w Hw) as (c & w' & -> & Hc & _).
  destruct words; cbn [join_space app]; eauto.
Qed.

Lemma join_space_last (words : list jsstring) :
  Forall (fun w => is_word w = true) words -> words <> [] ->
  exists c s, rev (join_space words) = c :: s /\ is_js_whitespace c = false.
Proof.
  induction 1 as [|w words Hw Hall IH]; intros Hne; [congruence|].
  destruct words as [|w2 words].
  - cbn [join_space]. destruct (is_word_inv w Hw) as (c & w' & E & _ & Hletters).
    destruct (rev w) as [|d r] eqn:Er.
    + apply (f_equal (@rev Z)) in Er. rewrite rev_involutive in Er. subst w. discriminate.
    + exists d, r. split; [reflexivity|].
      assert (Hin : In d w) by (apply in_rev; rewrite Er; left; reflexivity).
      rewrite forallb_forall in Hletters. apply negb_true_iff, Hletters, Hin.
  - destruct (IH ltac:(discriminate)) as (c & s & E & Hc).
    change (join_space (w :: w2 :: words)) with (w ++ 32 :: join_space (w2 :: words)).
    rewrite rev_app_distr. cbn [rev]. rewrite E. cbn [app].
    exists c. eexists. split; [reflexivity | exact Hc].
Qed.

Lemma trim_join (words : list jsstring) :
  Forall (fun w => is_word w = true) words -> words <> [] ->
  trim (join_space words) = join_space words.
Proof.
  intros Hall Hne. unfold trim, trim_end.
  destruct (join_space_first words Hall Hne) as (c & s & E & Hc).
  rewrite E, (trim_start_letter c s Hc), <- E.
  destruct (join_space_last words Hall Hne) as (d & r & Er & Hd).
  rewrite Er, (trim_start_letter d r Hd), <- Er. apply rev_involutive.
Qed.

Lemma WORDLIST_words : forallb (fun w => is_word (js w)) WORDLIST = true.
Proof. vm_compute. reflexivity. Qed.

(** The words that [generateMnemonic] joins. *)
Definition drawn_words (draw : nat -> Z) : list jsstring :=
  map (fun i => js (nth (Z.to_nat (randomIndex (draw i))) WORDLIST ""%string)) (seq 0 12).

Lemma drawn_word_listed (r : Z) :
  In (nth (Z.to_nat (randomIndex r)) WORDLIST ""%string) WORDLIST.
Proof.
  apply nth_In. unfold randomIndex.
  pose proof (Z.mod_pos_bound r (Z.of_nat (List.length WORDLIST)) ltac:(reflexivity)). lia.
Qed.

Lemma drawn_words_ok (draw : nat -> Z) :
  Forall (fun w => is_word w = true) (drawn_words draw)
  /\ Forall (fun w => In w (map js WORDLIST)) (drawn_words draw)
  /\ List.length (drawn_words draw) = 12%nat.
Proof.
  split; [|split].
  - apply Forall_forall. intros w Hw. apply in_map_iff in Hw as (i & <- & _).
    pose proof WORDLIST_words as H. rewrite forallb_forall in H.
    apply H, drawn_word_listed.
  - apply Forall_forall. intros w Hw. apply in_map_iff in Hw as (i & <- & _).
    apply in_map, drawn_word_listed.
  - unfold drawn_words. rewrite length_map, length_seq. reflexivity.
Qed.

(** X9: for every outcome of the twelve draws, [generateMnemonic]
    returns twelve words of the word list joined by single spaces, and
    [mnemonicToPrivateKey] accepts it and returns a key of 64 hexadecimal
    digits. *)
Theorem generated_mnemonic_accepted (draw : nat -> Z) :
  exists words key,
    generateMnemonic draw = join_space words
    /\ split_whitespace (trim (generateMnemonic draw)) [] false = words
    /\ List.length words = 12%nat
    /\ Forall (fun w => In w (map js WORDLIST)) words
    /\ mnemonicToPrivateKey (generateMnemonic draw) = Normal key
    /\ is_hex64 key = true.
Proof.
  destruct (drawn_words_ok draw) as (Hwords & Hlisted & Hlen).
  assert (Hne : drawn_words draw <> []).
  { intros E. rewrite E in Hlen. discriminate. }
  assert (Hsplit : split_whitespace (trim (generateMnemonic draw)) [] false
                   = drawn_words draw).
  { change (generateMnemonic draw) with (join_space (drawn_words draw)).
    rewrite (trim_join _ Hwords Hne). apply split_join; assumption. }
  exists (drawn_words draw), (bytesToHex (sha256Sync (TextEncoder_encode (generateMnemonic draw)))).
  split; [reflexivity|]. split; [exact Hsplit|]. split; [exact Hlen|].
  split; [exact Hlisted|]. split.
  - unfold mnemonicToPrivateKey. cbv zeta. rewrite Hsplit, Hlen. reflexivity.
  - apply digest_hex64.
Qed.

(* ================================================================= *)
(** ** crypto.js: generated keys *)

(** A number below [base^k] has at most [k] digits. *)
Lemma digits_length_le (base : Z) (ds : list Z) (k : nat) :
  2 <= base -> canonical base ds -> from_digits base ds < base ^ Z.of_nat k ->
  (List.length ds <= k)%nat.
Proof.
  intros Hbase [Hall Hhd] Hlt.
  destruct ds as [|d ds]; [cbn; lia|].
  cbn [hd] in Hhd. apply Forall_cons_iff in Hall as [Hd Hds]. unfold digit_ok in Hd.
  rewrite (from_digits_cons base) in Hlt.
  pose proof (from_digits_nonneg base Hbase ds Hds) as Hlo.
  destruct (Nat.le_gt_cases (List.length (d :: ds)) k) as [Hle | Hgt]; [exact Hle|].
  exfalso. cbn [List.length] in Hgt.
  assert (H : base ^ Z.of_nat k <= base ^ Z.of_nat (List.length ds))
    by (apply Z.pow_le_mono_r; lia).
  assert (0 < base ^ Z.of_nat (List.length ds)) by (apply Z.pow_pos_nonneg; lia).
  nia.
Qed.

Lemma hex_char_zero : hex_char 0 = 48.
Proof. reflexivity. Qed.

(** The generated key string: the hexadecimal digits of the key after
    as many zeros as 64 characters need. *)
Lemma generatePrivateKey_digits (priv : Z) :
  0 < priv < 2 ^ 256 ->
  exists ds,
    generatePrivateKey priv = map hex_char ds
    /\ List.length ds = 64%nat
    /\ Forall (digit_ok 16) ds
    /\ from_digits 16 ds = priv.
Proof.
  intros Hpriv.
  destruct (to_digits_spec 16 ltac:(lia) priv ltac:(lia)) as [Hval Hcan].
  set (ds := to_digits 16 priv) in *.
  assert (Hlen : (List.length ds <= 64)%nat).
  { apply (digits_length_le 16); [lia | exact Hcan |].
    rewrite Hval. change (16 ^ Z.of_nat 64) with (2 ^ 256). lia. }
  assert (Hhex : toString16 priv = map hex_char ds).
  { unfold toString16. destruct (Z.eqb_spec priv 0); [lia | reflexivity]. }
  unfold generatePrivateKey, getPrivate_hex, padStart. cbv zeta. rewrite Hhex, length_map.
  destruct Hcan as [Hall _]. clearbody ds.
  destruct (Nat.odd (List.length ds)) eqn:Hodd.
  - assert (Hne : List.length ds <> 64%nat).
    { intros E. rewrite E in Hodd. discriminate. }
    exists (repeat 0 (64 - S (List.length ds)) ++ 0 :: ds).
    cbn [List.length]. rewrite length_map, map_app, map_repeat. cbn [map].
    split; [reflexivity|]. split.
    + rewrite length_app, repeat_length. cbn [List.length]. lia.
    + split.
      * apply Forall_app. split.
        -- apply Forall_forall. intros x Hx. apply repeat_spec in Hx. subst.
           unfold digit_ok. lia.
        -- constructor; [unfold digit_ok; lia | exact Hall].
      * rewrite from_digits_zeros.
        change (0 :: ds) with (repeat 0 1 ++ ds). rewrite from_digits_zeros. exact Hval.
  - exists (repeat 0 (64 - List.length ds) ++ ds).
    rewrite length_map, map_app, map_repeat.
    split; [reflexivity|]. split.
    + rewrite length_app, repeat_length. lia.
    + split.
      * apply Forall_app. split; [|exact Hall].
        apply Forall_forall. intros x Hx. apply repeat_spec in Hx. subst.
        unfold digit_ok. lia.
      * rewrite from_digits_zeros. exact Hval.
Qed.

Lemma hex_digits_lower (ds : list Z) :
  Forall (digit_ok 16) ds -> forallb is_lower_hex (map hex_char ds) = true.
Proof.
  intros H. apply forallb_forall. intros c Hc. apply in_map_iff in Hc as (d & <- & Hd).
  rewrite Forall_forall in H. apply hex_char_lower, H, Hd.
Qed.

Lemma lower_hex64 (s : jsstring) :
  List.length s = 64%nat -> forallb is_lower_hex s = true -> is_hex64 s = true.
Proof.
  intros Hlen Hlow. unfold is_hex64. rewrite Hlen. cbn [Nat.eqb andb].
  apply forallb_forall. intros c Hc. rewrite forallb_forall in Hlow.
  apply is_lower_hex_char, Hlow, Hc.
Qed.

(** X10: for every key [priv] that the curve library can draw
    ([0 < priv < n]), [generatePrivateKey] returns 64 lower-case
    hexadecimal digits that read back as [priv], and importing that
    string gives the wallet that [generateWallet] returns. *)
Theorem generated_key_reimports (priv : Z) :
  0 < priv < EC.n ->
  List.length (generatePrivateKey priv) = 64%nat
  /\ forallb is_lower_hex (generatePrivateKey priv) = true
  /\ is_hex64 (generatePrivateKey priv) = true
  /\ EC.keyFromPrivate (generatePrivateKey priv) = Normal priv
  /\ importWallet getPublicKeyFromPrivate (generatePrivateKey priv) = generateWallet priv.
Proof.
  intros Hpriv.
  assert (Hn : EC.n < 2 ^ 256) by reflexivity.
  destruct (generatePrivateKey_digits priv ltac:(lia)) as (ds & E & Hlen & Hall & Hval).
  assert (Hl : List.length (generatePrivateKey priv) = 64%nat)
    by (rewrite E, length_map; exact Hlen).
  assert (Hlow : forallb is_lower_hex (generatePrivateKey priv) = true)
    by (rewrite E; apply hex_digits_lower, Hall).
  pose proof (lower_hex64 _ Hl Hlow) as H64.
  split; [exact Hl|]. split; [exact Hlow|]. split; [exact H64|]. split.
  - rewrite (keyFromPrivate_hex (generatePrivateKey priv) ds).
    + rewrite Hval, Z.mod_small by lia. reflexivity.
    + rewrite E. apply all_hex_chars, Hall.
    + intros Hnil. rewrite Hnil in Hl. discriminate.
  - rewrite (importWallet_lower _ _ H64 Hlow). reflexivity.
Qed.

Lemma generated_key_reimports_witness :
  List.length (generatePrivateKey 1) = 64%nat
  /\ importWallet getPublicKeyFromPrivate (generatePrivateKey 1) = generateWallet 1.
Proof.
  destruct (generated_key_reimports 1) as (H1 & _ & _ & _ & H2).
  - unfold EC.n. lia.
  - split; [exact H1 | exact H2].
Defined.

(* ================================================================= *)
(** ** crypto.js: the public key of a private key *)

Lemma field_bytes_ok (x : Z) : bytes_ok (EC.field_bytes x).
Proof.
  unfold EC.field_bytes, bytes_ok. apply Forall_forall. intros b Hb.
  apply in_map_iff in Hb as (i & <- & _). unfold byte_ok.
  apply Z.mod_pos_bound. lia.
Qed.

Lemma field_bytes_length (x : Z) : List.length (EC.field_bytes x) = 32%nat.
Proof. unfold EC.field_bytes. rewrite length_map, length_seq. reflexivity. Qed.

Lemma compressed_format (x y : Z) :
  let pub := bytesToHex ((if Z.even y then 0x02 else 0x03) :: EC.field_bytes x) in
  List.length pub = 66%nat
  /\ forallb is_lower_hex pub = true
  /\ (firstn 2 pub = js "02" \/ firstn 2 pub = js "03").
Proof.
  intros pub. subst pub.
  set (prefix := if Z.even y then 2 else 3).
  assert (Hok : bytes_ok (prefix :: EC.field_bytes x)).
  { constructor; [|apply field_bytes_ok].
    unfold byte_ok, prefix. destruct (Z.even y); lia. }
  split; [|split].
  - rewrite (bytesToHex_length _ Hok). cbn [List.length]. rewrite field_bytes_length.
    reflexivity.
  - apply bytesToHex_lower, Hok.
  - unfold bytesToHex, prefix. cbn [flat_map].
    destruct (Z.even y); [left | right]; reflexivity.
Qed.

(** X11: on every string, [getPublicKeyFromPrivate] either returns a
    public key of 66 lower-case hexadecimal digits that starts with [02]
    or [03], or throws an [Error] whose message starts with
    ['Invalid private key: '].  It does not refuse a string that is no
    hexadecimal number: the curve library reads every character as a
    digit, so ['zz'] has the public key of ['aa']. *)
Theorem public_key_format (privateKeyHex : jsstring) :
  match getPublicKeyFromPrivate privateKeyHex with
  | Normal pub =>
      List.length pub = 66%nat
      /\ forallb is_lower_hex pub = true
      /\ (firstn 2 pub = js "02" \/ firstn 2 pub = js "03")
  | Throw e =>
      exists message, e = Error ("Invalid private key: " ++ message)
  end
  /\ getPublicKeyFromPrivate (js "zz")
     = Normal (js "02f9502d540ca7d5ab09ea89e83889fa4bcd0b27f7eec5752f4fa07b1b19160f3b")
  /\ getPublicKeyFromPrivate (js "zz") = getPublicKeyFromPrivate (js "aa").
Proof.
  split; [|split; vm_compute; reflexivity].
  unfold getPublicKeyFromPrivate.
  destruct (EC.keyFromPrivate privateKeyHex) as [priv | e]; cbn [bind try_catch].
  - destruct (EC.getPublic priv) as [[x y]|]; cbn [EC.encodeCompressed try_catch].
    + apply compressed_format.
    + eexists. reflexivity.
  - eexists. reflexivity.
Qed.

(** The number that a string of hexadecimal digits writes. *)
Definition hex_value (s : jsstring) : Z :=
  match all_hex s with
  | Some ds => from_digits 16 ds
  | None => 0
  end.

Lemma hex_val_lower (c : Z) :
  is_hex_char c = true ->
  hex_val (if (65 <=? c) && (c <=? 90) then c + 32 else c) = hex_val c
  /\ is_hex_char (if (65 <=? c) && (c <=? 90) then c + 32 else c) = true
  /\ hex_val c <> None.
Proof.
  intros Hc.
  assert (Hrange : 0 <= c < 103).
  { unfold is_hex_char in Hc.
    repeat (apply orb_true_iff in Hc as [Hc | Hc]);
      apply andb_true_iff in Hc as [H1 H2];
      apply Z.leb_le in H1; apply Z.leb_le in H2; lia. }
  pose (lower := fun c : Z => if (65 <=? c) && (c <=? 90) then c + 32 else c).
  assert (G : (negb (is_hex_char c)
               || (match hex_val (lower c), hex_val c with
                   | Some a, Some b => a =? b
                   | _, _ => false
                   end && is_hex_char (lower c))) = true).
  { apply (forall_upto
             (fun c => negb (is_hex_char c)
                       || (match hex_val (lower c), hex_val c with
                           | Some a, Some b => a =? b
                           | _, _ => false
                           end && is_hex_char (lower c))) 103);
      [vm_compute; reflexivity | exact Hrange]. }
  rewrite Hc in G. cbn [negb orb] in G. apply andb_true_iff in G as [G1 G2].
  fold (lower c).
  destruct (hex_val (lower c)) as [a|], (hex_val c) as [b|]; try discriminate.
  apply Z.eqb_eq in G1. subst. split; [reflexivity | split; [exact G2 | discriminate]].
Qed.

Lemma all_hex_lower (s : jsstring) :
  forallb is_hex_char s = true ->
  all_hex (toLowerCase s) = all_hex s
  /\ forallb is_hex_char (toLowerCase s) = true
  /\ all_hex s <> None.
Proof.
  induction s as [|c s IH]; intros H; [repeat split; discriminate|].
  cbn [forallb] in H. apply andb_true_iff in H as [Hc Hs].
  destruct (IH Hs) as (IH1 & IH2 & IH3).
  destruct (hex_val_lower c Hc) as (H1 & H2 & H3).
  unfold toLowerCase in *. cbn [map all_hex forallb].
  rewrite H1, IH1, H2, IH2.
  split; [reflexivity | split; [reflexivity|]].
  destruct (hex_val c); [|congruence]. destruct (all_hex s); [discriminate | congruence].
Qed.

(** X12: [importWallet] depends on a key of 64 hexadecimal digits only
    through its value modulo the order [n] of the curve: two keys with
    the same value modulo [n] give the same public key and address, or
    fail alike.  So upper and lower case give the same wallet, a key not
    below [n] is not rejected but reduced, and the key of 64 zeros passes
    the format test and fails in the curve library. *)
Theorem importWallet_modulo_order (key1 key2 : jsstring) :
  is_hex64 key1 = true -> is_hex64 key2 = true ->
  hex_value key1 mod EC.n = hex_value key2 mod EC.n ->
  ((exists publicKey address,
       importWallet getPublicKeyFromPrivate key1
       = Normal (mkWallet (toLowerCase key1) publicKey address)
       /\ importWallet getPublicKeyFromPrivate key2
          = Normal (mkWallet (toLowerCase key2) publicKey address))
   \/ (exists e,
         importWallet getPublicKeyFromPrivate key1 = Throw e
         /\ importWallet getPublicKeyFromPrivate key2 = Throw e))
  /\ hex_value (toLowerCase key1) = hex_value key1
  /\ importWallet getPublicKeyFromPrivate (repeat 48 64)
     = Throw (Error "Invalid private key: Cannot read properties of null (reading 'fromRed')").
Proof.
  intros H1 H2 Hmod.
  assert (Hx1 : forallb is_hex_char key1 = true)
    by (unfold is_hex64 in H1; apply andb_true_iff in H1; apply H1).
  assert (Hx2 : forallb is_hex_char key2 = true)
    by (unfold is_hex64 in H2; apply andb_true_iff in H2; apply H2).
  split; [|split].
  - assert (Hpub : getPublicKeyFromPrivate key1 = getPublicKeyFromPrivate key2).
    { unfold getPublicKeyFromPrivate. unfold hex_value in Hmod.
      destruct (all_hex_lower key1 Hx1) as (_ & _ & Hn1).
      destruct (all_hex_lower key2 Hx2) as (_ & _ & Hn2).
      destruct (all_hex key1) as [ds1|] eqn:E1; [|congruence].
      destruct (all_hex key2) as [ds2|] eqn:E2; [|congruence].
      rewrite (keyFromPrivate_hex key1 ds1 E1), (keyFromPrivate_hex key2 ds2 E2).
      - rewrite Hmod. reflexivity.
      - intros Hnil. rewrite Hnil in H2. discriminate.
      - intros Hnil. rewrite Hnil in H1. discriminate. }
    unfold importWallet. rewrite H1, H2, Hpub. cbn [negb].
    destruct (getPublicKeyFromPrivate key2) as [pub | e]; cbn [bind].
    + destruct (publicKeyToAddress pub) as [addr | e]; cbn [bind].
      * left. exists pub, addr. split; reflexivity.
      * right. exists e. split; reflexivity.
    + right. exists e. split; reflexivity.
  - unfold hex_value. destruct (all_hex_lower key1 Hx1) as (E & _ & _).
    rewrite E. reflexivity.
  - vm_compute. reflexivity.
Qed.

Lemma importWallet_modulo_order_witness :
  (exists publicKey address,
      importWallet getPublicKeyFromPrivate (repeat 102 64)
      = Normal (mkWallet (repeat 102 64) publicKey address)
      /\ importWallet getPublicKeyFromPrivate
           (js "000000000000000000000000000000014551231950b75fc4402da1732fc9bebe")
         = Normal (mkWallet
                     (js "000000000000000000000000000000014551231950b75fc4402da1732fc9bebe")
                     publicKey address))
  \/ (exists e,
        importWallet getPublicKeyFromPrivate (repeat 102 64) = Throw e
        /\ importWallet getPublicKeyFromPrivate
             (js "000000000000000000000000000000014551231950b75fc4402da1732fc9bebe")
           = Throw e).
Proof.
  apply (proj1 (importWallet_modulo_order
                  (repeat 102 64)
                  (js "000000000000000000000000000000014551231950b75fc4402da1732fc9bebe")
                  eq_refl eq_refl eq_refl)).
Defined.

(* ================================================================= *)
(** ** crypto.js: more on hashing and signing a transaction *)

(** X13: the hash of every transaction object, whatever its fields, has
    64 lower-case hexadecimal digits; an object with none of the
    signable fields hashes as the text [{}]. *)
Theorem hashTransaction_format (tx : object) :
  is_hex64 (hashTransaction tx) = true
  /\ forallb is_lower_hex (hashTransaction tx) = true
  /\ hashTransaction []
     = js "44136fa355b3678a1146ad16f7e8649e94fb4fc21fe77e8310c060f61caaff8a".
Proof.
  split; [|split].
  - apply digest_hex64.
  - apply digest_hex64.
  - vm_compute. reflexivity.
Qed.

(** X14: [signTransaction] signs the hash of the transaction as it was
    given; an error of the signer or of the key derivation reaches the
    caller unchanged; the signed transaction holds the signature and the
    public key, whatever [signature] and [publicKey] it had before, and
    every other field as it was. *)
Theorem signTransaction_fields
        (publicKeyOf : jsstring -> completion jsstring)
        (signMessage : jsstring -> jsstring -> completion jsstring)
        (tx : object) (privateKeyHex : jsstring) :
  match signMessage (hashTransaction tx) privateKeyHex with
  | Throw e => signTransaction publicKeyOf signMessage tx privateKeyHex = Throw e
  | Normal signature =>
      match publicKeyOf privateKeyHex with
      | Throw e => signTransaction publicKeyOf signMessage tx privateKeyHex = Throw e
      | Normal publicKey =>
          exists signed,
            signTransaction publicKeyOf signMessage tx privateKeyHex = Normal signed
            /\ get signed (js "signature") = VString signature
            /\ get signed (js "publicKey") = VString publicKey
            /\ forall name,
                 name <> js "signature" -> name <> js "publicKey" ->
                 get signed name = get tx name
      end
  end.
Proof.
  unfold signTransaction.
  destruct (signMessage (hashTransaction tx) privateKeyHex) as [signature | e];
    cbn [bind]; [|reflexivity].
  destruct (publicKeyOf privateKeyHex) as [publicKey | e]; cbn [bind]; [|reflexivity].
  eexists. split; [reflexivity|]. split; [|split].
  - rewrite get_set_other by (intros E; vm_compute in E; discriminate E).
    apply get_set_same.
  - apply get_set_same.
  - intros name H1 H2.
    rewrite get_set_other by (intros E; apply H2; symmetry; exact E).
    rewrite get_set_other by (intros E; apply H1; symmetry; exact E).
    reflexivity.
Qed.

(* ================================================================= *)
(** ** The text that [JSON.stringify] writes *)

(** A code unit that is no surrogate. *)
Definition plain (c : Z) : Prop := 0 <= c < 0xD800 \/ 0xDFFF < c < 65536.

(** A string that [TextEncoder] and [TextDecoder] give back unchanged,
    a leading U+FEFF apart. *)
Definition text_ok (s : jsstring) : Prop := jsstring_ok s /\ well_formed s = true.

Lemma plain_not_surrogate (c : Z) :
  plain c -> is_high_surrogate c = false /\ is_low_surrogate c = false.
Proof.
  unfold plain, is_high_surrogate, is_low_surrogate. intros H.
  split; apply andb_false_iff; rewrite !Z.leb_gt; lia.
Qed.

Lemma well_formed_plain (c : Z) (t : jsstring) :
  plain c -> well_formed (c :: t) = well_formed t.
Proof.
  intros H. destruct (plain_not_surrogate c H) as [H1 H2].
  cbn [well_formed]. rewrite H1, H2. reflexivity.
Qed.

Lemma text_ok_nil : text_ok [].
Proof. split; [constructor | reflexivity]. Qed.

Lemma text_ok_cons (c : Z) (t : jsstring) : plain c -> text_ok t -> text_ok (c :: t).
Proof.
  intros Hc [H1 H2]. split.
  - constructor; [unfold plain in Hc; lia | exact H1].
  - rewrite well_formed_plain by exact Hc. exact H2.
Qed.

Lemma text_ok_plain_app (p t : jsstring) : Forall plain p -> text_ok t -> text_ok (p ++ t).
Proof.
  induction 1 as [|c p Hc _ IH]; intros Ht; [exact Ht|].
  cbn [app]. apply text_ok_cons; [exact Hc | apply IH, Ht].
Qed.

Lemma well_formed_cons (c : Z) (rest : jsstring) :
  well_formed (c :: rest)
  = if is_high_surrogate c then
      match rest with
      | d :: rest' => is_low_surrogate d && well_formed rest'
      | [] => false
      end
    else negb (is_low_surrogate c) && well_formed rest.
Proof. reflexivity. Qed.

Lemma well_formed_app (a b : jsstring) :
  well_formed a = true -> well_formed (a ++ b) = well_formed b.
Proof.
  induction a as [| c | c d rest IH1 IH2] using string_induction; intros H.
  - reflexivity.
  - rewrite well_formed_cons in H. cbn [app]. rewrite well_formed_cons.
    destruct (is_high_surrogate c); [discriminate|].
    cbn [well_formed] in H. rewrite andb_true_r in H. rewrite H. reflexivity.
  - change ((c :: d :: rest) ++ b) with (c :: d :: (rest ++ b)).
    rewrite well_formed_cons in H. rewrite (well_formed_cons c (d :: rest ++ b)).
    destruct (is_high_surrogate c).
    + apply andb_true_iff in H as [Hd Hr]. rewrite Hd, (IH1 Hr). reflexivity.
    + apply andb_true_iff in H as [Hc Hr]. rewrite Hc.
      change (d :: rest ++ b) with ((d :: rest) ++ b).
      rewrite (IH2 Hr). reflexivity.
Qed.

Lemma text_ok_app (a b : jsstring) : text_ok a -> text_ok b -> text_ok (a ++ b).
Proof.
  intros [A1 A2] [B1 B2]. split.
  - apply Forall_app. split; assumption.
  - rewrite well_formed_app by exact A2. exact B2.
Qed.

Lemma js_plain (s : string) : Forall plain (js s).
Proof.
  unfold js. apply Forall_forall. intros c Hc. apply in_map_iff in Hc as (a & <- & _).
  pose proof (N_ascii_bounded a). unfold plain. lia.
Qed.

Lemma hex_char_plain (d : Z) : 0 <= d < 16 -> plain (hex_char d).
Proof. unfold plain, hex_char. intros H. destruct (d <? 10); lia. Qed.

Lemma unicode_escape_plain (c : Z) : 0 <= c < 65536 -> Forall plain (unicode_escape c).
Proof.
  intros Hc. unfold unicode_escape.
  rewrite !land_15, shiftr_12, shiftr_4, (Z.shiftr_div_pow2 c 8) by lia.
  assert (Hmod : forall x, 0 <= x mod 16 < 16) by (intros x; apply Z.mod_pos_bound; lia).
  constructor; [unfold plain; lia|]. constructor; [unfold plain; lia|].
  constructor.
  { apply hex_char_plain. split; [apply Z.div_pos; lia | apply Z.div_lt_upper_bound; lia]. }
  constructor; [apply hex_char_plain, Hmod|].
  constructor; [apply hex_char_plain, Hmod|].
  constructor; [apply hex_char_plain, Hmod | constructor].
Qed.

(** One step of [QuoteJSONString]: either some characters below the
    surrogates are written for the first code unit, or a surrogate pair
    is copied. *)
Lemma quote_json_step (c : Z) (rest : jsstring) :
  0 <= c < 65536 ->
  (exists p, Forall plain p /\ quote_json (c :: rest) = p ++ quote_json rest)
  \/ (exists d rest', rest = d :: rest'
                      /\ is_high_surrogate c = true /\ is_low_surrogate d = true
                      /\ quote_json (c :: rest) = c :: d :: quote_json rest').
Proof.
  intros Hc. cbn [quote_json].
  assert (Hesc : forall x y, x = 92 -> 0 <= y < 128 -> Forall plain [x; y]).
  { intros x y -> Hy. repeat constructor; unfold plain; lia. }
  destruct (c =? 8); [left; exists [92; 98]; split; [apply Hesc; lia | reflexivity]|].
  destruct (c =? 9); [left; exists [92; 116]; split; [apply Hesc; lia | reflexivity]|].
  destruct (c =? 10); [left; exists [92; 110]; split; [apply Hesc; lia | reflexivity]|].
  destruct (c =? 12); [left; exists [92; 102]; split; [apply Hesc; lia | reflexivity]|].
  destruct (c =? 13); [left; exists [92; 114]; split; [apply Hesc; lia | reflexivity]|].
  destruct (c =? 34); [left; exists [92; 34]; split; [apply Hesc; lia | reflexivity]|].
  destruct (c =? 92); [left; exists [92; 92]; split; [apply Hesc; lia | reflexivity]|].
  destruct (c <? 32);
    [left; exists (unicode_escape c); split; [apply unicode_escape_plain, Hc | reflexivity]|].
  destruct (is_high_surrogate c) eqn:Ehigh.
  - destruct rest as [|d rest'].
    + left. exists (unicode_escape c).
      split; [apply unicode_escape_plain, Hc | rewrite app_nil_r; reflexivity].
    + destruct (is_low_surrogate d) eqn:Elow.
      * right. exists d, rest'. split; [reflexivity|]. split; [reflexivity|].
        split; [exact Elow | reflexivity].
      * left. exists (unicode_escape c).
        split; [apply unicode_escape_plain, Hc | reflexivity].
  - destruct (is_low_surrogate c) eqn:Elow.
    + left. exists (unicode_escape c).
      split; [apply unicode_escape_plain, Hc | reflexivity].
    + left. exists [c]. split; [|reflexivity].
      constructor; [|constructor].
      pose proof (not_surrogate_range c Ehigh Elow). unfold plain. lia.
Qed.

Lemma quote_json_ok (s : jsstring) : jsstring_ok s -> text_ok (quote_json s).
Proof.
  induction s as [| c | c d rest IH1 IH2] using string_induction; intros Hok.
  - apply text_ok_nil.
  - apply Forall_cons_iff in Hok as [Hc _].
    destruct (quote_json_step c [] Hc) as [(p & Hp & E) | (d & rest' & E & _)];
      [|discriminate].
    rewrite E. apply text_ok_plain_app; [exact Hp | apply text_ok_nil].
  - pose proof Hok as Hok0.
    apply Forall_cons_iff in Hok as [Hc Hok]. pose proof Hok as Hok1.
    apply Forall_cons_iff in Hok as [Hd Hok].
    destruct (quote_json_step c (d :: rest) Hc)
      as [(p & Hp & E) | (d' & rest' & Er & Hhigh & Hlow & E)].
    + rewrite E. apply text_ok_plain_app; [exact Hp | apply IH2, Hok1].
    + injection Er as <- <-. rewrite E.
      destruct (IH1 Hok) as [H1 H2]. split.
      * constructor; [exact Hc | constructor; [exact Hd | exact H1]].
      * rewrite well_formed_cons, Hhigh, Hlow. exact H2.
Qed.

Lemma quoted_ok (s : jsstring) : jsstring_ok s -> text_ok (quoted s).
Proof.
  intros H. unfold quoted. apply text_ok_cons; [unfold plain; lia|].
  apply text_ok_app; [apply quote_json_ok, H|].
  apply text_ok_cons; [unfold plain; lia | apply text_ok_nil].
Qed.

Lemma plain_text_ok (p : jsstring) : Forall plain p -> text_ok p.
Proof.
  intros H. rewrite <- (app_nil_r p). apply text_ok_plain_app; [exact H | apply text_ok_nil].
Qed.

Lemma decimal_digits_plain (n : Z) :
  0 <= n -> Forall plain (map (fun d => 48 + d) (to_digits 10 n)).
Proof.
  intros Hn. destruct (to_digits_spec 10 ltac:(lia) n Hn) as [_ [Hall _]].
  apply Forall_forall. intros c Hc. apply in_map_iff in Hc as (d & <- & Hd).
  rewrite Forall_forall in Hall. specialize (Hall d Hd).
  unfold digit_ok in Hall. unfold plain. lia.
Qed.

Lemma number_to_string_ok (n : Z) : text_ok (number_to_string n).
Proof.
  unfold number_to_string.
  destruct (n =? 0); [apply plain_text_ok, js_plain|].
  destruct (Z.ltb_spec n 0).
  - apply text_ok_cons; [unfold plain; lia|].
    apply plain_text_ok, decimal_digits_plain. lia.
  - apply plain_text_ok, decimal_digits_plain. lia.
Qed.

(** A value whose strings are strings of 16-bit code units. *)
Definition value_ok (v : value) : Prop :=
  match v with
  | VString s => jsstring_ok s
  | _ => True
  end.

Lemma stringify_value_ok (v : value) (text : jsstring) :
  value_ok v -> stringify_value v = Some text -> text_ok text.
Proof.
  destruct v as [| | [|] | n | s]; cbn [stringify_value value_ok]; intros Hv [= <-].
  - apply plain_text_ok, js_plain.
  - apply plain_text_ok, js_plain.
  - apply plain_text_ok, js_plain.
  - apply number_to_string_ok.
  - apply quoted_ok, Hv.
Qed.

Definition object_ok (obj : object) : Prop :=
  Forall (fun kv => jsstring_ok (fst kv) /\ value_ok (snd kv)) obj.

Lemma stringify_members_ok (obj : object) :
  object_ok obj -> Forall text_ok (stringify_members obj).
Proof.
  induction 1 as [|[k v] obj [Hk Hv] _ IH]; cbn [stringify_members]; [constructor|].
  cbn [fst snd] in Hk, Hv.
  destruct (stringify_value v) as [text|] eqn:E; [|exact IH].
  constructor; [|exact IH].
  apply text_ok_app; [apply quoted_ok, Hk|].
  apply text_ok_cons; [unfold plain; lia|].
  apply (stringify_value_ok v text Hv E).
Qed.

Lemma join_comma_ok (parts : list jsstring) :
  Forall text_ok parts -> text_ok (join_comma parts).
Proof.
  induction 1 as [|p parts Hp Hparts IH]; [apply text_ok_nil|].
  destruct parts as [|q parts]; [exact Hp|].
  change (join_comma (p :: q :: parts)) with (p ++ 44 :: join_comma (q :: parts)).
  apply text_ok_app; [exact Hp|].
  apply text_ok_cons; [unfold plain; lia | exact IH].
Qed.

(** The text of an object: well formed, and it starts with a brace, so
    that [TextDecoder] gives back what [TextEncoder] wrote. *)
Lemma JSON_stringify_ok (obj : object) :
  object_ok obj ->
  text_ok (JSON_stringify obj) /\ hd 0 (JSON_stringify obj) = 123.
Proof.
  intros H. split; [|reflexivity]. unfold JSON_stringify.
  apply text_ok_cons; [unfold plain; lia|].
  apply text_ok_app; [apply join_comma_ok, stringify_members_ok, H|].
  apply text_ok_cons; [unfold plain; lia | apply text_ok_nil].
Qed.

(** Encrypting a well-formed text that does not start with U+FEFF, and
    decrypting the result with the same password. *)
Lemma encrypt_text (cipher : AEAD) (rng : nat -> Z) (text password : jsstring) :
  text_ok text -> hd 0 text <> BOM ->
  exists secret,
    encrypt cipher rng text password = Normal secret
    /\ decrypt cipher (encrypted secret) (salt secret) (iv secret) password = Normal text.
Proof.
  intros [Hok Hwf] Hbom.
  destruct (encrypt_then_decrypt cipher rng text password Hok)
    as (secret & H1 & _ & _ & _ & H2).
  exists secret. split; [exact H1|]. rewrite H2. f_equal.
  rewrite to_scalars_head by exact Hbom. apply from_to_scalars; assumption.
Qed.

Lemma sensitive_data_ok (walletData : wallet_data) :
  value_ok (wd_privateKey walletData) -> value_ok (wd_seedPhrase walletData) ->
  object_ok (sensitive_data walletData).
Proof.
  intros H1 H2. unfold sensitive_data, object_ok.
  assert (Hkey : forall s, jsstring_ok (js s)).
  { intros s. apply Forall_forall. intros c Hc.
    pose proof (js_plain s) as Hp. rewrite Forall_forall in Hp.
    specialize (Hp c Hc). unfold plain in Hp. lia. }
  constructor; [split; [apply Hkey | exact H1]|].
  constructor; [split; [apply Hkey|] | constructor].
  cbn [snd]. unfold js_or. destruct (truthy (wd_seedPhrase walletData)); [exact H2 | exact I].
Qed.

(* ================================================================= *)
(** ** storage.js: saving and loading the wallet *)

Lemma isSessionValid_rule (st : chrome_storage) (t : Z) :
  isSessionValid st t
  = Normal (isValid_spec (unlocked (current_session st)) t
                         (last_activity (current_session st))
                         (auto_lock_minutes (current_settings st))).
Proof.
  unfold isSessionValid, isValid_spec.
  rewrite getSession_current. cbn [bind].
  destruct (unlocked (current_session st)); cbn [negb andb try_catch]; [|reflexivity].
  rewrite getSettings_current. cbn [bind try_catch].
  rewrite <- Z.mul_assoc. reflexivity.
Qed.

(** What [saveWallet] leaves in an available store. *)
Lemma saveWallet_stored (cipher : AEAD) (rng : nat -> Z) (st : chrome_storage) (now : Z)
      (walletData : wallet_data) (password : jsstring) :
  unavailable st = None ->
  value_ok (wd_privateKey walletData) -> value_ok (wd_seedPhrase walletData) ->
  exists secret,
    decrypt cipher (encrypted secret) (salt secret) (iv secret) password
    = Normal (JSON_stringify (sensitive_data walletData))
    /\ saveWallet cipher rng st now walletData password
       = Normal (mkStorage None
                   (Some (mkWalletRecord (encrypted secret) (salt secret) (iv secret)
                                         (wd_address walletData) (wd_publicKey walletData)))
                   (dinari_settings st)
                   (Some (mkSession true now))).
Proof.
  intros Hst H1 H2.
  destruct (JSON_stringify_ok _ (sensitive_data_ok walletData H1 H2)) as [Htext Hhd].
  destruct (encrypt_text cipher rng (JSON_stringify (sensitive_data walletData)) password Htext)
    as (secret & Henc & Hdec).
  { rewrite Hhd. unfold BOM. lia. }
  exists secret. split; [exact Hdec|].
  unfold saveWallet. cbv zeta. rewrite Henc. cbn [bind].
  unfold storage_set_wallet. rewrite Hst. cbn [bind].
  unfold setSession, storage_set_session. reflexivity.
Qed.

(** X15: on an available store, with a private key and a seed phrase
    that are strings (or no seed phrase), [saveWallet] succeeds, whatever
    wallet was stored before; afterwards [verifyPassword] accepts the
    password, [walletExists] is true, the address and the public key are
    read back without the password, the session is unlocked at the time
    of saving, and the settings are untouched. *)
Theorem saveWallet_then_verify (cipher : AEAD) (rng : nat -> Z) (st : chrome_storage)
        (now : Z) (walletData : wallet_data) (password : jsstring) :
  unavailable st = None ->
  value_ok (wd_privateKey walletData) -> value_ok (wd_seedPhrase walletData) ->
  exists st',
    saveWallet cipher rng st now walletData password = Normal st'
    /\ verifyPassword cipher st' password = Normal true
    /\ walletExists st' = Normal true
    /\ getWalletAddress st' = Normal (Some (wd_address walletData))
    /\ getWalletPublicKey st' = Normal (Some (wd_publicKey walletData))
    /\ getSession st' = Normal (mkSession true now)
    /\ isSessionValid st' now
       = Normal (0 <? auto_lock_minutes (current_settings st) * 60000)
    /\ dinari_settings st' = dinari_settings st.
Proof.
  intros Hst H1 H2.
  destruct (saveWallet_stored cipher rng st now walletData password Hst H1 H2)
    as (secret & Hdec & Hsave).
  eexists. split; [exact Hsave|].
  split.
  { unfold verifyPassword, storage_get. cbn [unavailable dinari_wallet bind].
    cbn [encrypted_data wr_salt wr_iv]. rewrite Hdec. reflexivity. }
  split; [reflexivity|]. split; [reflexivity|]. split; [reflexivity|].
  split; [reflexivity|]. split; [|reflexivity].
  rewrite isSessionValid_rule. unfold isValid_spec, current_session, current_settings.
  cbn [unavailable dinari_session dinari_settings unlocked last_activity andb].
  rewrite Hst, Z.sub_diag. reflexivity.
Qed.

Lemma saveWallet_then_verify_witness :
  exists st',
    saveWallet TagOnly.cipher (fun i => Z.of_nat i) (mkStorage None None None None) 1000
               (mkWalletData (VString (js "00ff")) VNull (js "D1") (js "02aa"))
               (js "pass phrase")
    = Normal st'
    /\ verifyPassword TagOnly.cipher st' (js "pass phrase") = Normal true
    /\ walletExists st' = Normal true.
Proof.
  destruct (saveWallet_then_verify TagOnly.cipher (fun i => Z.of_nat i)
              (mkStorage None None None None) 1000
              (mkWalletData (VString (js "00ff")) VNull (js "D1") (js "02aa"))
              (js "pass phrase"))
    as (st' & H1 & H2 & H3 & _).
  - reflexivity.
  - cbn [value_ok wd_privateKey]. unfold jsstring_ok. repeat constructor; lia.
  - exact I.
  - exists st'. split; [exact H1 | split; [exact H2 | exact H3]].
Defined.

(** X16: after [saveWallet], [loadWallet] with the same password hands
    [JSON.parse] exactly the text that [saveWallet] encrypted (the JSON
    of the private key and of the seed phrase, [null] when there is
    none) and returns what it parses with the stored address and public
    key; an error of [JSON.parse] comes back wrapped. *)
Theorem saveWallet_then_load (cipher : AEAD) (rng : nat -> Z) (st : chrome_storage)
        (now : Z) (walletData : wallet_data) (password : jsstring)
        (parse : jsstring -> completion (value * value)) :
  unavailable st = None ->
  value_ok (wd_privateKey walletData) -> value_ok (wd_seedPhrase walletData) ->
  exists st',
    saveWallet cipher rng st now walletData password = Normal st'
    /\ loadWallet cipher parse st' password
       = match parse (JSON_stringify
                        [ (js "privateKey", wd_privateKey walletData);
                          (js "seedPhrase", js_or (wd_seedPhrase walletData) VNull) ]) with
         | Normal sensitiveData =>
             Normal (mkLoaded (fst sensitiveData) (snd sensitiveData)
                              (wd_address walletData) (wd_publicKey walletData))
         | Throw e => Throw (Error ("Failed to load wallet: " ++ exn_message e))
         end.
Proof.
  intros Hst H1 H2.
  destruct (saveWallet_stored cipher rng st now walletData password Hst H1 H2)
    as (secret & Hdec & Hsave).
  eexists. split; [exact Hsave|].
  unfold loadWallet, storage_get. cbn [unavailable dinari_wallet bind].
  cbn [encrypted_data wr_salt wr_iv address public_key]. rewrite Hdec. cbn [bind].
  change (sensitive_data walletData)
    with [ (js "privateKey", wd_privateKey walletData);
           (js "seedPhrase", js_or (wd_seedPhrase walletData) VNull) ].
  destruct (parse _) as [sens | e]; reflexivity.
Qed.

Lemma saveWallet_then_load_witness :
  exists st',
    saveWallet TagOnly.cipher (fun i => Z.of_nat i) (mkStorage None None None None) 1000
               (mkWalletData (VString (js "00ff")) VNull (js "D1") (js "02aa"))
               (js "pass phrase")
    = Normal st'
    /\ loadWallet TagOnly.cipher (fun _ => Normal (VString (js "00ff"), VNull)) st'
                  (js "pass phrase")
       = Normal (mkLoaded (VString (js "00ff")) VNull (js "D1") (js "02aa")).
Proof.
  destruct (saveWallet_then_load TagOnly.cipher (fun i => Z.of_nat i)
              (mkStorage None None None None) 1000
              (mkWalletData (VString (js "00ff")) VNull (js "D1") (js "02aa"))
              (js "pass phrase") (fun _ => Normal (VString (js "00ff"), VNull)))
    as (st' & H1 & H2).
  - reflexivity.
  - cbn [value_ok wd_privateKey]. unfold jsstring_ok. repeat constructor; lia.
  - exact I.
  - exists st'. split; [exact H1 | exact H2].
Defined.

(** X17: [saveWallet] writes to the store twice, and either write can
    be rejected.  When the write of the wallet record is rejected, it
    throws ['Failed to save wallet: '] and the message of the store, and
    the store is as it was.  When that write is accepted and the write of
    the session is rejected, it throws ['Failed to save wallet: Failed to
    set session: '] and the message, and the new wallet record stays in
    the store: [saveWallet] is not atomic.  When nothing happens to the
    store between the two writes, this is [saveWallet] as given above. *)
Theorem saveWallet_unavailable (cipher : AEAD) (rng : nat -> Z) (st : chrome_storage)
        (now : Z) (walletData : wallet_data) (password : jsstring)
        (between : chrome_storage -> chrome_storage) (e : exn) :
  value_ok (wd_privateKey walletData) -> value_ok (wd_seedPhrase walletData) ->
  exists secret,
    let record :=
      mkWalletRecord (encrypted secret) (salt secret) (iv secret)
                     (wd_address walletData) (wd_publicKey walletData) in
    let written :=
      mkStorage None (Some record) (dinari_settings st) (dinari_session st) in
    encrypt cipher rng (JSON_stringify (sensitive_data walletData)) password = Normal secret
    /\ (unavailable st = Some e ->
        saveWallet_steps cipher between rng st now walletData password
        = (st, Throw (Error ("Failed to save wallet: " ++ exn_message e)))
        /\ saveWallet cipher rng st now walletData password
           = Throw (Error ("Failed to save wallet: " ++ exn_message e)))
    /\ (unavailable st = None -> unavailable (between written) = Some e ->
        saveWallet_steps cipher between rng st now walletData password
        = (between written,
           Throw (Error ("Failed to save wallet: Failed to set session: "
                         ++ exn_message e))))
    /\ (unavailable st = None -> unavailable (between written) = None ->
        saveWallet_steps cipher between rng st now walletData password
        = (mkStorage None (dinari_wallet (between written))
                     (dinari_settings (between written)) (Some (mkSession true now)),
           Normal tt))
    /\ saveWallet cipher rng st now walletData password
       = match saveWallet_steps cipher (fun s => s) rng st now walletData password with
         | (st', Normal _) => Normal st'
         | (_, Throw error) => Throw error
         end.
Proof.
  intros H1 H2.
  destruct (JSON_stringify_ok _ (sensitive_data_ok walletData H1 H2)) as [Htext Hhd].
  destruct (encrypt_text cipher rng (JSON_stringify (sensitive_data walletData)) password Htext)
    as (secret & Henc & _).
  { rewrite Hhd. unfold BOM. lia. }
  exists secret. cbv zeta. split; [exact Henc|].
  unfold saveWallet_steps, saveWallet. cbv zeta. rewrite Henc. cbn [bind].
  unfold storage_set_wallet.
  split; [|split; [|split]].
  - intros Hst. rewrite Hst. split; reflexivity.
  - intros Hst Hdown. rewrite Hst.
    unfold setSession, storage_set_session. rewrite Hdown. reflexivity.
  - intros Hst Hup. rewrite Hst.
    unfold setSession, storage_set_session. rewrite Hup. reflexivity.
  - destruct (unavailable st) as [e0|]; [reflexivity|].
    unfold setSession, storage_set_session. reflexivity.
Qed.

(** The store stops answering after the first write: the wallet record
    is stored, the session is not, and [saveWallet] reports a failure. *)
Lemma saveWallet_unavailable_witness :
  exists record,
    saveWallet_steps TagOnly.cipher
      (fun s => mkStorage (Some (Error "QUOTA_BYTES quota exceeded"))
                          (dinari_wallet s) (dinari_settings s) (dinari_session s))
      (fun i => Z.of_nat i) (mkStorage None None None None) 1000
      (mkWalletData (VString (js "00ff")) VNull (js "D1") (js "02aa"))
      (js "pass phrase")
    = (mkStorage (Some (Error "QUOTA_BYTES quota exceeded")) (Some record) None None,
       Throw (Error
                "Failed to save wallet: Failed to set session: QUOTA_BYTES quota exceeded"))
    /\ address record = js "D1".
Proof.
  destruct (saveWallet_unavailable TagOnly.cipher (fun i => Z.of_nat i)
              (mkStorage None None None None) 1000
              (mkWalletData (VString (js "00ff")) VNull (js "D1") (js "02aa"))
              (js "pass phrase")
              (fun s => mkStorage (Some (Error "QUOTA_BYTES quota exceeded"))
                                  (dinari_wallet s) (dinari_settings s) (dinari_session s))
              (Error "QUOTA_BYTES quota exceeded"))
    as (secret & _ & _ & H & _).
  - cbn [value_ok wd_privateKey]. unfold jsstring_ok. repeat constructor; lia.
  - exact I.
  - eexists. split; [apply H; reflexivity | reflexivity].
Defined.

(* ================================================================= *)
(** ** storage.js and service-worker.js: clearing, locking, activity *)

(** X18: on an available store [clearWallet] removes the wallet and the
    session and keeps the settings: afterwards there is no wallet, no
    password is accepted, [loadWallet] throws
    ['Failed to load wallet: No wallet found'], and the session is
    invalid at every time. *)
Theorem clearWallet_clears (st : chrome_storage) :
  unavailable st = None ->
  exists st',
    clearWallet st = Normal st'
    /\ walletExists st' = Normal false
    /\ getWalletAddress st' = Normal None
    /\ getWalletPublicKey st' = Normal None
    /\ (forall cipher password, verifyPassword cipher st' password = Normal false)
    /\ (forall cipher parse password,
          loadWallet cipher parse st' password
          = Throw (Error "Failed to load wallet: No wallet found"))
    /\ (forall t, isSessionValid st' t = Normal false)
    /\ getSettings st' = getSettings st.
Proof.
  intros Hst. unfold clearWallet, storage_remove_wallet. rewrite Hst.
  eexists. split; [reflexivity|].
  split; [reflexivity|]. split; [reflexivity|]. split; [reflexivity|].
  split; [reflexivity|]. split; [reflexivity|]. split; [reflexivity|].
  unfold getSettings, storage_get. rewrite Hst. reflexivity.
Qed.

Lemma clearWallet_clears_witness :
  exists st',
    clearWallet (mkStorage None (Some (mkWalletRecord (js "AAAA") (js "AAAA") (js "AAAA")
                                                      (js "D1") (js "02")))
                           None (Some (mkSession true 5)))
    = Normal st'
    /\ walletExists st' = Normal false.
Proof.
  destruct (clearWallet_clears
              (mkStorage None (Some (mkWalletRecord (js "AAAA") (js "AAAA") (js "AAAA")
                                                    (js "D1") (js "02")))
                         None (Some (mkSession true 5))))
    as (st' & H1 & H2 & _).
  - reflexivity.
  - exists st'. split; [exact H1 | exact H2].
Defined.

(** X19: on an available store, [lockWallet] of storage.js and the
    [LOCK_WALLET] handler of the service worker both leave a session
    that is invalid at every later (or earlier) time, and neither touches
    the wallet record or the settings; they differ only in the stored
    time of last activity (the time of the call, and 0). *)
Theorem locking_invalidates (st : chrome_storage) (now : Z) :
  unavailable st = None ->
  exists st1 st2,
    lockWallet st now = Normal st1
    /\ handleLockWallet st = (st2, None)
    /\ (forall t, isSessionValid st1 t = Normal false)
    /\ (forall t, isSessionValid st2 t = Normal false)
    /\ dinari_session st1 = Some (mkSession false now)
    /\ dinari_session st2 = Some (mkSession false 0)
    /\ dinari_wallet st1 = dinari_wallet st /\ dinari_wallet st2 = dinari_wallet st
    /\ dinari_settings st1 = dinari_settings st
    /\ dinari_settings st2 = dinari_settings st.
Proof.
  intros Hst.
  unfold lockWallet, setSession, handleLockWallet, storage_set_session. rewrite Hst.
  eexists. eexists. split; [reflexivity|]. split; [reflexivity|].
  split; [intros t; reflexivity|]. split; [intros t; reflexivity|].
  repeat split.
Qed.

Lemma locking_invalidates_witness :
  exists st1,
    lockWallet (mkStorage None None None (Some (mkSession true 5))) 9 = Normal st1
    /\ isSessionValid st1 10 = Normal false.
Proof.
  destruct (locking_invalidates (mkStorage None None None (Some (mkSession true 5))) 9)
    as (st1 & st2 & H1 & _ & H3 & _).
  - reflexivity.
  - exists st1. split; [exact H1 | apply H3].
Defined.

(** X20: [updateActivity] on an unlocked session writes the time of the
    call, so that the session is valid exactly until the auto-lock
    period after it has passed; it does this also when the session had
    already timed out but was not yet locked.  On a locked session, a
    missing session or an unavailable store it changes nothing, and it
    never touches the wallet record or the settings. *)
Theorem updateActivity_window (st : chrome_storage) (now : Z) (session : session_record) :
  unavailable st = None ->
  dinari_session st = Some session ->
  unlocked session = true ->
  (forall t,
      isSessionValid (updateActivity st now) t
      = Normal (t - now <? auto_lock_minutes (current_settings st) * 60000))
  /\ dinari_wallet (updateActivity st now) = dinari_wallet st
  /\ dinari_settings (updateActivity st now) = dinari_settings st
  /\ (forall st0 now0,
        unlocked (current_session st0) = false -> updateActivity st0 now0 = st0).
Proof.
  intros Hst Hs Hu.
  assert (E : updateActivity st now
              = mkStorage None (dinari_wallet st) (dinari_settings st)
                          (Some (mkSession true now))).
  { unfold updateActivity. rewrite getSession_current.
    unfold current_session, storage_set_session. rewrite Hst, Hs, Hu. reflexivity. }
  split; [|split; [rewrite E; reflexivity | split; [rewrite E; reflexivity|]]].
  - intros t. rewrite E, isSessionValid_rule.
    unfold isValid_spec, current_session, current_settings.
    cbn [unavailable dinari_session dinari_settings unlocked last_activity andb].
    rewrite Hst. reflexivity.
  - intros st0 now0 H0. unfold updateActivity. rewrite getSession_current, H0. reflexivity.
Qed.

Lemma updateActivity_window_witness :
  isSessionValid (mkStorage None None None (Some (mkSession true 0))) 400000 = Normal false
  /\ isSessionValid
       (updateActivity (mkStorage None None None (Some (mkSession true 0))) 400000) 400000
     = Normal true.
Proof.
  split; [reflexivity|].
  rewrite (proj1 (updateActivity_window
                    (mkStorage None None None (Some (mkSession true 0))) 400000
                    (mkSession true 0) eq_refl eq_refl eq_refl)).
  reflexivity.
Defined.

(** The flag that the status handler reports. *)
Definition reported_unlocked (r : status_response) : option bool :=
  match r with
  | StatusOk _ isUnlocked _ => Some isUnlocked
  | StatusError _ => None
  end.

(** X21: the [GET_WALLET_STATUS] handler reports the stored flag, not
    the validity of the session, so it can report an unlocked wallet
    after the auto-lock period; once [checkAutoLock] has run at a time,
    the reported flag is the validity of the session at that time.
    [checkAutoLock] changes nothing when run again at the same time,
    never unlocks, and never touches the wallet record or the
    settings. *)
Theorem status_after_checkAutoLock (st : chrome_storage) (now : Z) :
  unavailable st = None ->
  (exists valid,
      isSessionValid st now = Normal valid
      /\ isSessionValid (checkAutoLock st now) now = Normal valid
      /\ reported_unlocked (handleGetWalletStatus (checkAutoLock st now)) = Some valid)
  /\ checkAutoLock (checkAutoLock st now) now = checkAutoLock st now
  /\ (unlocked (current_session (checkAutoLock st now)) = true ->
      unlocked (current_session st) = true)
  /\ dinari_wallet (checkAutoLock st now) = dinari_wallet st
  /\ dinari_settings (checkAutoLock st now) = dinari_settings st
  /\ reported_unlocked
       (handleGetWalletStatus (mkStorage None None None (Some (mkSession true 0))))
     = Some true
  /\ isSessionValid (mkStorage None None None (Some (mkSession true 0))) 300000
     = Normal false.
Proof.
  intros Hst.
  assert (Hcases :
            (exists s, dinari_session st = Some s /\ unlocked s = true
                       /\ now - last_activity s
                          >= auto_lock_minutes (current_settings st) * 60000
                       /\ checkAutoLock st now
                          = mkStorage None (dinari_wallet st) (dinari_settings st)
                                      (Some (mkSession false 0)))
            \/ ((forall s, dinari_session st = Some s -> unlocked s = true ->
                           now - last_activity s
                           < auto_lock_minutes (current_settings st) * 60000)
                /\ checkAutoLock st now = st)).
  { unfold checkAutoLock, current_settings. rewrite Hst.
    destruct (dinari_session st) as [s|] eqn:Es; [|right; split; [discriminate | reflexivity]].
    destruct (unlocked s) eqn:Eu; cbn [negb];
      [|right; split; [intros s' [= <-]; congruence | reflexivity]].
    destruct (dinari_settings st) as [settings|];
      cbn [auto_lock_minutes DEFAULT_SETTINGS];
      rewrite <- Z.mul_assoc; change (60 * 1000) with 60000;
      match goal with
      | |- context [?a >=? ?b] => destruct (Z.geb_spec a b) as [Hge | Hlt]
      end;
      solve [ left; exists s; split; [reflexivity|]; split; [exact Eu|];
              split; [lia | reflexivity]
            | right; split; [intros s' [= <-] _; lia | reflexivity] ]. }
  split; [|split; [|split; [|split; [|split; [|split; reflexivity]]]]].
  - rewrite !isSessionValid_rule. unfold handleGetWalletStatus.
    destruct Hcases as [(s & Es & Eu & Hge & E) | [Hlt E]]; rewrite E.
    + exists false.
      unfold isValid_spec, current_session. cbn [unavailable dinari_session unlocked andb].
      rewrite Hst, Es, Eu. cbn [andb reported_unlocked].
      split; [|split; reflexivity]. f_equal. apply Z.ltb_ge. lia.
    + rewrite Hst. cbn [reported_unlocked].
      eexists. split; [reflexivity|]. split; [reflexivity|].
      unfold isValid_spec, current_session. rewrite Hst.
      destruct (dinari_session st) as [s|] eqn:Es; [|reflexivity].
      destruct (unlocked s) eqn:Eu; [|reflexivity].
      cbn [andb]. specialize (Hlt s eq_refl Eu).
      f_equal. symmetry. apply Z.ltb_lt. exact Hlt.
  - destruct Hcases as [(s & Es & Eu & Hge & E) | [Hlt E]]; rewrite E;
      [reflexivity | exact E].
  - destruct Hcases as [(s & Es & Eu & Hge & E) | [Hlt E]]; rewrite E.
    + discriminate.
    + intros H. exact H.
  - destruct Hcases as [(s & Es & Eu & Hge & E) | [Hlt E]]; rewrite E; reflexivity.
  - destruct Hcases as [(s & Es & Eu & Hge & E) | [Hlt E]]; rewrite E; reflexivity.
Qed.

Lemma status_after_checkAutoLock_witness :
  exists valid,
    isSessionValid (mkStorage None None None (Some (mkSession true 0))) 300000 = Normal valid
    /\ reported_unlocked
         (handleGetWalletStatus
            (checkAutoLock (mkStorage None None None (Some (mkSession true 0))) 300000))
       = Some valid.
Proof.
  destruct (proj1 (status_after_checkAutoLock
                     (mkStorage None None None (Some (mkSession true 0))) 300000 eq_refl))
    as (valid & H1 & _ & H3).
  exists valid. split; [exact H1 | exact H3].
Defined.

(* ================================================================= *)
(** ** storage.js: settings *)

(** X22: on an available store [saveSettings] stores the current
    settings (the defaults when none were stored) with the named ones
    replaced, and touches neither the wallet nor the session; a setting
    that is not named keeps its value.  [getRPCEndpoint] never returns
    the empty string: an empty endpoint reads as the default one. *)
Theorem saveSettings_merges (st : chrome_storage) (settings : settings_update) :
  unavailable st = None ->
  (exists st',
      saveSettings st settings = Normal st'
      /\ getSettings st' = Normal (merge_settings (current_settings st) settings)
      /\ dinari_wallet st' = dinari_wallet st
      /\ dinari_session st' = dinari_session st
      /\ (new_rpc_endpoint settings = None ->
          getRPCEndpoint st' = getRPCEndpoint st)
      /\ (new_auto_lock_minutes settings = None ->
          forall t, isSessionValid st' t = isSessionValid st t))
  /\ (forall st0, exists endpoint,
        getRPCEndpoint st0 = Normal endpoint /\ endpoint <> [])
  /\ (forall st0 minutes,
        getRPCEndpoint (mkStorage None (dinari_wallet st0)
                                  (Some (mkSettings [] minutes)) (dinari_session st0))
        = Normal (js "https://rpctiger-testnet.dinariblockchain.network:8545")).
Proof.
  intros Hst. split; [|split].
  - unfold saveSettings. rewrite getSettings_current. cbn [bind].
    unfold storage_set_settings. rewrite Hst. cbn [try_catch].
    eexists. split; [reflexivity|].
    split; [reflexivity|]. split; [reflexivity|]. split; [reflexivity|]. split.
    + intros Hnone. unfold getRPCEndpoint. rewrite !getSettings_current. cbn [bind].
      unfold current_settings at 1. cbn [unavailable dinari_settings].
      unfold merge_settings. rewrite Hnone. reflexivity.
    + intros Hnone t. rewrite !isSessionValid_rule.
      unfold current_session, current_settings, merge_settings.
      cbn [unavailable dinari_settings dinari_session auto_lock_minutes].
      rewrite Hnone, Hst. reflexivity.
  - intros st0. unfold getRPCEndpoint. rewrite getSettings_current. cbn [bind].
    eexists. split; [reflexivity|].
    destruct (list_eqb (rpc_endpoint (current_settings st0)) []) eqn:E.
    + discriminate.
    + intros Heq. rewrite Heq in E. discriminate.
  - intros st0 minutes. reflexivity.
Qed.

Lemma saveSettings_merges_witness :
  exists st',
    saveSettings (mkStorage None None None None) (mkUpdate None (Some 10)) = Normal st'
    /\ getSettings st'
       = Normal (mkSettings (js "https://rpctiger-testnet.dinariblockchain.network:8545") 10).
Proof.
  destruct (proj1 (saveSettings_merges (mkStorage None None None None)
                     (mkUpdate None (Some 10)) eq_refl))
    as (st' & H1 & H2 & _).
  exists st'. split; [exact H1 | exact H2].
Defined.

(* ================================================================= *)
(** ** The callers of the wallet functions *)

(** A key of the right format is imported unless the curve library
    refuses it. *)
Lemma importWallet_outcome (key : jsstring) :
  is_hex64 key = true ->
  (exists w, importWallet getPublicKeyFromPrivate key = Normal w
             /\ w_privateKey w = toLowerCase key
             /\ getPublicKeyFromPrivate key = Normal (w_publicKey w)
             /\ publicKeyToAddress (w_publicKey w) = Normal (w_address w))
  \/ (exists message,
        importWallet getPublicKeyFromPrivate key
        = Throw (Error ("Invalid private key: " ++ message))).
Proof.
  intros H. unfold importWallet. rewrite H.
  destruct (getPublicKeyFromPrivate key) as [publicKey | e] eqn:Epub; cbn [bind].
  - left. destruct (publicKeyToAddress_encodes publicKey) as [Henc [address Haddr]].
    rewrite Henc, Haddr. cbn [bind].
    exists (mkWallet (toLowerCase key) publicKey address).
    cbn [w_privateKey w_publicKey w_address].
    repeat split. rewrite Henc. exact Haddr.
  - right. revert Epub. unfold getPublicKeyFromPrivate.
    destruct (EC.keyFromPrivate key) as [priv | e0]; cbn [bind try_catch].
    + destruct (EC.getPublic priv) as [[x y]|]; cbn [EC.encodeCompressed try_catch].
      * discriminate.
      * intros [= <-]. eexists. reflexivity.
    + intros [= <-]. eexists. reflexivity.
Qed.

(** X23: the check of the import form, [validateHex(key, 64)], accepts
    exactly the strings that pass the format test of [importWallet]; a
    key that the form lets through is then imported, under its
    lower-case spelling, unless the curve library refuses it, and the
    only error left is ['Invalid private key: ...'], never the format
    error.  [validateHex] with the length 0 checks no length at all,
    only that the string is a non-empty run of hexadecimal digits. *)
Theorem form_check_agrees (key : jsstring) :
  validateHex key (Some 64%nat) = is_hex64 key
  /\ (validateHex key (Some 64%nat) = true ->
      (exists w, importWallet getPublicKeyFromPrivate key = Normal w
                 /\ w_privateKey w = toLowerCase key
                 /\ getPublicKeyFromPrivate key = Normal (w_publicKey w)
                 /\ publicKeyToAddress (w_publicKey w) = Normal (w_address w))
      \/ (exists message,
            importWallet getPublicKeyFromPrivate key
            = Throw (Error ("Invalid private key: " ++ message))))
  /\ (validateHex key (Some 64%nat) = false ->
      forall publicKeyOf,
        importWallet publicKeyOf key
        = Throw (Error "Invalid private key format. Must be 64 hexadecimal characters."))
  /\ validateHex key (Some 0%nat) = validateHex key None
  /\ validateHex key None = negb (list_eqb key []) && forallb is_hex_char key
  /\ validateHex [] (Some 0%nat) = false
  /\ validateHex (js "abc") (Some 0%nat) = true.
Proof.
  split; [reflexivity|]. split; [|split; [|repeat split]].
  - intros H. apply importWallet_outcome. exact H.
  - intros H publicKeyOf. unfold importWallet.
    change (validateHex key (Some 64%nat)) with (is_hex64 key) in H.
    rewrite H. reflexivity.
Qed.

Lemma string_slice_prefix (s : jsstring) (k : Z) :
  0 <= k <= Z.of_nat (List.length s) ->
  string_slice s 0 (Some k) = firstn (Z.to_nat k) s.
Proof.
  intros Hk. unfold string_slice, slice_index. cbv zeta.
  change (0 <? 0) with false. cbv iota.
  destruct (Z.ltb_spec k 0); [lia|].
  rewrite Z.min_l, Z.min_l by lia. rewrite Z.sub_0_r. reflexivity.
Qed.

Lemma string_slice_suffix (s : jsstring) (k : Z) :
  0 < k <= Z.of_nat (List.length s) ->
  string_slice s (- k) None = skipn (List.length s - Z.to_nat k) s.
Proof.
  intros Hk. unfold string_slice, slice_index. cbv zeta.
  destruct (Z.ltb_spec (- k) 0); [|lia].
  rewrite Z.max_l by lia.
  replace (Z.to_nat (Z.of_nat (List.length s) + - k))
    with (List.length s - Z.to_nat k)%nat by lia.
  apply firstn_all2. rewrite length_skipn. lia.
Qed.

(** X24: for a string longer than the two counts together,
    [truncateAddress] keeps the first [startChars] and the last
    [endChars] characters around three dots; a string that is not longer
    comes back unchanged; with [endChars = 0] the whole string follows
    the dots, since [slice(-0)] is [slice(0)]. *)
Theorem truncateAddress_shape (address : jsstring) (startChars endChars : Z) :
  0 <= startChars -> 0 <= endChars ->
  (Z.of_nat (List.length address) <= startChars + endChars ->
   truncateAddress address startChars endChars = address)
  /\ (startChars + endChars < Z.of_nat (List.length address) -> 0 < endChars ->
      truncateAddress address startChars endChars
      = firstn (Z.to_nat startChars) address ++ js "..."
        ++ skipn (List.length address - Z.to_nat endChars) address
      /\ Z.of_nat (List.length (truncateAddress address startChars endChars))
         = startChars + 3 + endChars)
  /\ (startChars < Z.of_nat (List.length address) -> endChars = 0 ->
      truncateAddress address startChars endChars
      = firstn (Z.to_nat startChars) address ++ js "..." ++ address).
Proof.
  intros Hs He. unfold truncateAddress. split; [|split].
  - intros Hshort. destruct (Z.leb_spec (Z.of_nat (List.length address))
                                         (startChars + endChars)); [|lia].
    rewrite orb_true_r. reflexivity.
  - intros Hlong Hpos.
    destruct (Z.leb_spec (Z.of_nat (List.length address)) (startChars + endChars)); [lia|].
    destruct address as [|c address']; [cbn [List.length] in Hlong; lia|].
    cbn [list_eqb orb].
    set (address := c :: address') in *.
    rewrite string_slice_prefix, string_slice_suffix by lia.
    split; [reflexivity|].
    rewrite !length_app, length_firstn, length_skipn.
    change (List.length (js "...")) with 3%nat. lia.
  - intros Hlong ->.
    destruct (Z.leb_spec (Z.of_nat (List.length address)) (startChars + 0)); [lia|].
    destruct address as [|c address']; [cbn [List.length] in Hlong; lia|].
    cbn [list_eqb orb].
    set (address := c :: address') in *.
    rewrite string_slice_prefix by lia.
    unfold string_slice, slice_index. cbv zeta. change (- 0 <? 0) with false. cbv iota.
    rewrite Z.min_l by lia. rewrite Z.sub_0_r, Nat2Z.id. cbn [Z.to_nat skipn].
    rewrite firstn_all. reflexivity.
Qed.

Lemma truncateAddress_shape_witness :
  truncateAddress (js "DUKAi5LLmECQwgUJ3e36EoDjome3pUJisr") 6 6 = js "DUKAi5...pUJisr"
  /\ truncateAddress (js "DUKAi5LLmECQwgUJ3e36EoDjome3pUJisr") 6 0
     = js "DUKAi5...DUKAi5LLmECQwgUJ3e36EoDjome3pUJisr".
Proof.
  destruct (truncateAddress_shape (js "DUKAi5LLmECQwgUJ3e36EoDjome3pUJisr") 6 6)
    as (_ & H1 & _); [lia | lia |].
  destruct (truncateAddress_shape (js "DUKAi5LLmECQwgUJ3e36EoDjome3pUJisr") 6 0)
    as (_ & _ & H2); [lia | lia |].
  split.
  - apply H1; [vm_compute; reflexivity | lia].
  - apply H2; [vm_compute; reflexivity | reflexivity].
Defined.

Lemma hash_of_built (from to amount tokenType feeDNT nonce : value) :
  hashTransaction [ (js "from", from); (js "to", to); (js "amount", amount);
                    (js "tokenType", tokenType); (js "feeDNT", feeDNT);
                    (js "nonce", nonce) ]
  = bytesToHex (sha256Sync (TextEncoder_encode (JSON_stringify
      [ (js "from", from); (js "to", to); (js "amount", amount);
        (js "tokenType", tokenType); (js "fee", feeDNT);
        (js "nonce", nonce) ]))).
Proof.
  unfold hashTransaction. cbv zeta.
  set (tx := [ (js "from", from); (js "to", to); (js "amount", amount);
               (js "tokenType", tokenType); (js "feeDNT", feeDNT);
               (js "nonce", nonce) ]).
  assert (Hfrom : get tx (js "from") = from) by reflexivity.
  assert (Hto : get tx (js "to") = to) by reflexivity.
  assert (Hamount : get tx (js "amount") = amount) by reflexivity.
  assert (Htype : get tx (js "tokenType") = tokenType) by reflexivity.
  assert (Hfee : get tx (js "fee") = VUndefined) by reflexivity.
  assert (HfeeDNT : get tx (js "feeDNT") = feeDNT) by reflexivity.
  assert (Hnonce : get tx (js "nonce") = nonce) by reflexivity.
  rewrite Hfrom, Hto, Hamount, Htype, Hfee, HfeeDNT, Hnonce.
  reflexivity.
Qed.

(** X25: [buildAndSendTransaction] reads the nonce of the sender, signs
    the transaction [{from, to, amount, tokenType, feeDNT, nonce}] and
    sends it with the signature and the public key added; the fee
    travels under the name [feeDNT], and the signed hash is the SHA-256
    of the JSON text of the six fields with that fee under the name
    [fee].
    Every error, of the node, of the signer or of the key derivation,
    reaches the caller as ['Failed to send transaction: '] and its
    message. *)
Theorem buildAndSendTransaction_sends
        (getBalance : value -> completion object)
        (sendTransaction : object -> completion jsstring)
        (publicKeyOf : jsstring -> completion jsstring)
        (signMessage : jsstring -> jsstring -> completion jsstring)
        (from to amount tokenType feeDNT : value) (privateKey : jsstring) :
  let run := buildAndSendTransaction getBalance sendTransaction publicKeyOf signMessage
                                     from to amount tokenType feeDNT privateKey in
  let failed e := Throw (Error ("Failed to send transaction: " ++ exn_message e)) in
  match getBalance from with
  | Throw e => run = failed e
  | Normal balance =>
      let tx := [ (js "from", from); (js "to", to); (js "amount", amount);
                  (js "tokenType", tokenType); (js "feeDNT", feeDNT);
                  (js "nonce", get balance (js "nonce")) ] in
      hashTransaction tx
      = bytesToHex (sha256Sync (TextEncoder_encode (JSON_stringify
          [ (js "from", from); (js "to", to); (js "amount", amount);
            (js "tokenType", tokenType); (js "fee", feeDNT);
            (js "nonce", get balance (js "nonce")) ])))
      /\ match signMessage (hashTransaction tx) privateKey with
         | Throw e => run = failed e
         | Normal signature =>
             match publicKeyOf privateKey with
             | Throw e => run = failed e
             | Normal publicKey =>
                 run = match sendTransaction
                               (tx ++ [ (js "signature", VString signature);
                                        (js "publicKey", VString publicKey) ]) with
                       | Normal txHash => Normal txHash
                       | Throw e => failed e
                       end
             end
         end
  end.
Proof.
  intros run failed. subst run failed. unfold buildAndSendTransaction.
  destruct (getBalance from) as [balance | e]; cbn [bind try_catch]; [|reflexivity].
  cbv zeta. split.
  - apply hash_of_built.
  - unfold signTransaction.
    destruct (signMessage _ privateKey) as [signature | e]; cbn [bind try_catch];
      [|reflexivity].
    destruct (publicKeyOf privateKey) as [publicKey | e]; cbn [bind try_catch];
      [|reflexivity].
    assert (Hset :
              set (set [ (js "from", from); (js "to", to); (js "amount", amount);
                         (js "tokenType", tokenType); (js "feeDNT", feeDNT);
                         (js "nonce", get balance (js "nonce")) ]
                       (js "signature") (VString signature))
                  (js "publicKey") (VString publicKey)
              = [ (js "from", from); (js "to", to); (js "amount", amount);
                  (js "tokenType", tokenType); (js "feeDNT", feeDNT);
                  (js "nonce", get balance (js "nonce")) ]
                ++ [ (js "signature", VString signature);
                     (js "publicKey", VString publicKey) ]) by reflexivity.
    rewrite Hset.
    destruct (sendTransaction _) as [txHash | e]; reflexivity.
Qed.

(* ================================================================= *)
(** ** storage.js: the Base64 helpers *)

Lemma base64_encode_length (bs : list Z) :
  List.length (base64_encode bs) = (4 * ((List.length bs + 2) / 3))%nat.
Proof.
  induction bs as [|a|a b|a b c rest IH] using triple_induction;
    try reflexivity.
  cbn [base64_encode List.length]. rewrite IH.
  replace (S (S (S (List.length rest))) + 2)%nat
    with (List.length rest + 2 + 1 * 3)%nat by lia.
  rewrite Nat.div_add by discriminate. lia.
Qed.

(** X26: [base64ToArrayBuffer] undoes [arrayBufferToBase64] on every
    byte array; the text has four characters for every three bytes
    begun.  On a text that is no Base64, [base64ToArrayBuffer] throws
    the exception that [atob] throws, named [InvalidCharacterError]
    (its message is the platform's); it ignores white space in the
    text. *)
Theorem base64_buffer_roundtrip (buffer : bytes) :
  bytes_ok buffer ->
  (exists text,
      arrayBufferToBase64 buffer = Normal text
      /\ base64ToArrayBuffer text = Normal buffer
      /\ List.length text = (4 * ((List.length buffer + 2) / 3))%nat
      /\ forall other,
           bytes_ok other -> arrayBufferToBase64 other = Normal text -> other = buffer)
  /\ (exists e, base64ToArrayBuffer (js "A") = Throw e
                 /\ exn_name e = "InvalidCharacterError"%string)
  /\ (exists e, base64ToArrayBuffer (js "A-B_") = Throw e
                 /\ exn_name e = "InvalidCharacterError"%string)
  /\ base64ToArrayBuffer (js "AQ I=") = Normal [1; 2]
  /\ base64ToArrayBuffer [] = Normal [].
Proof.
  intros Hok. split; [|split; [|split; [|split]]];
    [| eexists; split; reflexivity | eexists; split; reflexivity
     | reflexivity | reflexivity].
  destruct (base64_roundtrip buffer Hok) as (text & Henc & Hdec).
  exists text. split; [exact Henc|]. split; [exact Hdec|]. split.
  - revert Henc. unfold arrayBufferToBase64, btoa.
    destruct (forallb _ buffer); [|discriminate].
    intros [= <-]. apply base64_encode_length.
  - intros other Hother Heq.
    destruct (base64_roundtrip other Hother) as (text' & Henc' & Hdec').
    rewrite Heq in Henc'. injection Henc' as <-.
    rewrite Hdec in Hdec'. injection Hdec' as ->. reflexivity.
Qed.

Lemma base64_buffer_roundtrip_witness :
  exists text,
    arrayBufferToBase64 [104; 105; 255] = Normal text
    /\ base64ToArrayBuffer text = Normal [104; 105; 255].
Proof.
  destruct (base64_buffer_roundtrip [104; 105; 255]) as [(text & H1 & H2 & _) _].
  - repeat constructor; lia.
  - exists text. split; [exact H1 | exact H2].
Defined.
